(** * OnSSTOVE: calibration and allocation engine

    A shallow embedding of the numerical core of [onsstove/onsstove.py]
    (class [OnSSTOVE]) and of the urban classifier of [onstove/raster.py].

    Number model.  The pandas columns hold IEEE doubles.  Finite values are
    modelled by rationals ([Q]).  The values a division can produce out of
    finite operands (NaN for 0/0, an infinity for x/0) are modelled by
    [fnum], which is used for the normalised columns, the composite
    electrification score, and the density and the urban share of the
    urban classifier.  The other quotients of the code (by the household
    size, by the population of a split cell, by the row count) are taken
    on [Q]; the theorems that depend on one of them assume that its
    divisor is not zero, or hold on tables where it cannot be.

    Rounding.  The definitions of the methods compute exactly.  They carry
    the statements on thresholds, masks, orderings and the shape of the
    tables, which do not hang on the last place of a value.  Where the
    rounding decides what holds (whether two rows add up to a cell,
    whether an inverse value is the complement of a direct one, whether
    the loop of [final_elec] ends) the method is embedded again in module
    [binary64], with a rounding applied to the result of every arithmetic
    operation of the code.  The theorems on these definitions hold for
    every rounding of bounded relative error; [round64] is the rounding
    of double precision, and the examples are computed with it.  Overflow
    and underflow are not modelled.

    Table model.  The GeoDataFrame [self.gdf] is a list of rows, one record
    per cell, in index order.  A column is a field of the record, a boolean
    mask is a predicate on rows, [self.gdf.loc[mask, col] = v] is a
    conditional update of every row, and [.sum()] folds over the rows.  The
    Series [self.combined_weight], which shares the index of the table, is
    kept as a field of the row it is aligned with.

    Other methods.  The file also embeds [calibrate_current_pop] and
    [get_value_of_time], on the columns they read and write;
    [read_scenario_data], on the rows of the file, with Python's [int] and
    [float] as parameters; the layer selections [get_layers] of
    [DataProcessor] and of [OnSSTOVE], on dicts kept in insertion order;
    and the weighted indexes [DataProcessor.index] and [index] of
    [raster.py], on arrays kept as the list of their cells.  Reading and
    writing files, rasters and geometries is left out. *)

From Stdlib Require Import Floats.
From Stdlib Require Import QArith Qpower Qminmax Qabs Qround Lqa ZArith Lia List
  Bool String.
Import ListNotations.
Open Scope Q_scope.

Set Implicit Arguments.

(** ** Numbers *)

Definition Qltb (x y : Q) : bool := negb (Qle_bool y x).

(** A count as a number. *)
Definition nat_Q (n : nat) : Q := inject_Z (Z.of_nat n).

(** A double as numpy computes with it: a finite value, an infinity or NaN. *)
Inductive fnum : Type :=
| Fin (q : Q)
| PInf
| NInf
| NaN.

Definition is_finite (a : fnum) : Prop :=
  match a with Fin _ => True | _ => False end.

Definition fneg (a : fnum) : fnum :=
  match a with
  | Fin q => Fin (- q)
  | PInf => NInf
  | NInf => PInf
  | NaN => NaN
  end.

Definition fadd (a b : fnum) : fnum :=
  match a, b with
  | NaN, _ | _, NaN => NaN
  | Fin x, Fin y => Fin (x + y)
  | PInf, NInf | NInf, PInf => NaN
  | PInf, _ | _, PInf => PInf
  | NInf, _ | _, NInf => NInf
  end.

Definition fsub (a b : fnum) : fnum := fadd a (fneg b).

(** The sign of an infinity times a finite factor; [inf * 0] is NaN. *)
Definition inf_times (positive : bool) (q : Q) : fnum :=
  if Qeq_bool q 0 then NaN
  else if Bool.eqb positive (Qltb 0 q) then PInf else NInf.

Definition fmul (a b : fnum) : fnum :=
  match a, b with
  | NaN, _ | _, NaN => NaN
  | Fin x, Fin y => Fin (x * y)
  | PInf, Fin q | Fin q, PInf => inf_times true q
  | NInf, Fin q | Fin q, NInf => inf_times false q
  | PInf, PInf | NInf, NInf => PInf
  | PInf, NInf | NInf, PInf => NaN
  end.

(** Division as numpy does it on arrays: no exception, [0/0] is NaN and
    [x/0] is an infinity with the sign of [x]. *)
Definition fdiv (a b : fnum) : fnum :=
  match a, b with
  | NaN, _ | _, NaN => NaN
  | Fin x, Fin y =>
      if Qeq_bool y 0 then
        if Qeq_bool x 0 then NaN else if Qltb 0 x then PInf else NInf
      else Fin (x / y)
  | Fin _, _ => Fin 0
  | PInf, Fin y => if Qltb y 0 then NInf else PInf
  | NInf, Fin y => if Qltb y 0 then PInf else NInf
  | _, _ => NaN
  end.

(** Comparisons: every comparison with NaN is false. *)
Definition fle (a b : fnum) : bool :=
  match a, b with
  | NaN, _ | _, NaN => false
  | NInf, _ => true
  | _, PInf => true
  | Fin x, Fin y => Qle_bool x y
  | _, _ => false
  end.

Definition fge (a b : fnum) : bool := fle b a.

Arguments fge : simpl never.

Definition flt (a b : fnum) : bool :=
  match a, b with
  | NaN, _ | _, NaN => false
  | Fin x, Fin y => Qltb x y
  | NInf, NInf | PInf, _ | Fin _, NInf => false
  | NInf, _ | Fin _, PInf => true
  end.

Definition feq (a b : fnum) : bool :=
  match a, b with
  | Fin x, Fin y => Qeq_bool x y
  | PInf, PInf | NInf, NInf => true
  | _, _ => false
  end.

Definition fabs (a : fnum) : fnum :=
  match a with
  | Fin q => Fin (Qabs q)
  | NaN => NaN
  | _ => PInf
  end.

(** ** Outcomes of a call *)

(** [ValueError] is what pandas raises for an [idxmax] over no column,
    and numpy for [nanmin] or [nanmax] of an empty array.
    [AttributeError] is what the accessor [.str] raises on a column that
    does not hold strings.  [DegenerateRangeError] is the error the
    specification names for the normaliser. *)
Inductive exception : Type :=
| ValueError
| AttributeError
| DegenerateRangeError.

Inductive outcome (A : Type) : Type :=
| Returns (a : A)
| Raises (e : exception).

Arguments Raises {A} e.

Definition bind {A B : Type} (m : outcome A) (k : A -> outcome B) : outcome B :=
  match m with
  | Returns a => k a
  | Raises e => Raises e
  end.

Notation "x <- m ;; k" := (bind m (fun x => k))
  (at level 61, m at next level, right associativity).

(** ** The session: table, scenario parameters, calibration state *)

Record row : Type := mkRow {
  Calibrated_pop : Q;
  Transformers_dist : Q;
  MV_lines_dist : Q;
  HV_lines_dist : Q;
  Elec_dist : Q;
  Night_lights : Q;
  combined_weight : fnum;
  Current_elec : Z;
  Elec_pop_calib : Q;
  IsUrban : Z;
  (** [None] is the NaN of a row the column was never assigned on. *)
  Households : option Q;
  (** The [net_benefit_<tech>] columns, in column order, keyed by [<tech>]. *)
  net_benefit : list (string * Q);
  max_benefit_tech : string;
  (** The column [maximum_net_benefit]. *)
  maximum_net_benefit_col : Q
}.

Record Specs : Type := mkSpecs {
  Elec_rate : Q;
  infra_weight : Q;
  Min_Elec_Pop : Q;
  Min_Night_Lights : Q;
  Population_start_year : Q;
  Urban_start : Q;
  Rural_HHsize : Q;
  Urban_HHsize : Q
}.

Record OnSSTOVE : Type := mkOnSSTOVE {
  gdf : list row;
  (** Names of the optional distance columns the table has. *)
  columns : list string;
  specs : Specs;
  cell_size : Q;
  (** [self.i], the threshold Phase A leaves for Phase B. *)
  self_i : Q
}.

Definition set_gdf (g : list row) (s : OnSSTOVE) : OnSSTOVE :=
  mkOnSSTOVE g (columns s) (specs s) (cell_size s) (self_i s).

Definition set_self_i (t : Q) (s : OnSSTOVE) : OnSSTOVE :=
  mkOnSSTOVE (gdf s) (columns s) (specs s) (cell_size s) t.

Definition set_Elec_dist (v : Q) (r : row) : row :=
  mkRow (Calibrated_pop r) (Transformers_dist r) (MV_lines_dist r)
    (HV_lines_dist r) v (Night_lights r) (combined_weight r)
    (Current_elec r) (Elec_pop_calib r) (IsUrban r) (Households r)
    (net_benefit r) (max_benefit_tech r) (maximum_net_benefit_col r).

Definition set_combined_weight (v : fnum) (r : row) : row :=
  mkRow (Calibrated_pop r) (Transformers_dist r) (MV_lines_dist r)
    (HV_lines_dist r) (Elec_dist r) (Night_lights r) v
    (Current_elec r) (Elec_pop_calib r) (IsUrban r) (Households r)
    (net_benefit r) (max_benefit_tech r) (maximum_net_benefit_col r).

Definition set_Current_elec (v : Z) (r : row) : row :=
  mkRow (Calibrated_pop r) (Transformers_dist r) (MV_lines_dist r)
    (HV_lines_dist r) (Elec_dist r) (Night_lights r) (combined_weight r)
    v (Elec_pop_calib r) (IsUrban r) (Households r)
    (net_benefit r) (max_benefit_tech r) (maximum_net_benefit_col r).

Definition set_Elec_pop_calib (v : Q) (r : row) : row :=
  mkRow (Calibrated_pop r) (Transformers_dist r) (MV_lines_dist r)
    (HV_lines_dist r) (Elec_dist r) (Night_lights r) (combined_weight r)
    (Current_elec r) v (IsUrban r) (Households r)
    (net_benefit r) (max_benefit_tech r) (maximum_net_benefit_col r).

Definition set_Calibrated_pop (v : Q) (r : row) : row :=
  mkRow v (Transformers_dist r) (MV_lines_dist r)
    (HV_lines_dist r) (Elec_dist r) (Night_lights r) (combined_weight r)
    (Current_elec r) (Elec_pop_calib r) (IsUrban r) (Households r)
    (net_benefit r) (max_benefit_tech r) (maximum_net_benefit_col r).

Definition set_IsUrban (v : Z) (r : row) : row :=
  mkRow (Calibrated_pop r) (Transformers_dist r) (MV_lines_dist r)
    (HV_lines_dist r) (Elec_dist r) (Night_lights r) (combined_weight r)
    (Current_elec r) (Elec_pop_calib r) v (Households r)
    (net_benefit r) (max_benefit_tech r) (maximum_net_benefit_col r).

Definition set_Households (v : option Q) (r : row) : row :=
  mkRow (Calibrated_pop r) (Transformers_dist r) (MV_lines_dist r)
    (HV_lines_dist r) (Elec_dist r) (Night_lights r) (combined_weight r)
    (Current_elec r) (Elec_pop_calib r) (IsUrban r) v
    (net_benefit r) (max_benefit_tech r) (maximum_net_benefit_col r).

Definition set_max_benefit_tech (v : string) (r : row) : row :=
  mkRow (Calibrated_pop r) (Transformers_dist r) (MV_lines_dist r)
    (HV_lines_dist r) (Elec_dist r) (Night_lights r) (combined_weight r)
    (Current_elec r) (Elec_pop_calib r) (IsUrban r) (Households r)
    (net_benefit r) v (maximum_net_benefit_col r).

Definition set_maximum_net_benefit (v : Q) (r : row) : row :=
  mkRow (Calibrated_pop r) (Transformers_dist r) (MV_lines_dist r)
    (HV_lines_dist r) (Elec_dist r) (Night_lights r) (combined_weight r)
    (Current_elec r) (Elec_pop_calib r) (IsUrban r) (Households r)
    (net_benefit r) (max_benefit_tech r) v.

(** [self.gdf.loc[mask, col] = ...]: update the rows the mask selects. *)
Definition loc_set (mask : row -> bool) (upd : row -> row) (g : list row)
  : list row :=
  map (fun r => if mask r then upd r else r) g.

(** [self.gdf.loc[mask, col].sum()]. *)
Fixpoint loc_sum (mask : row -> bool) (col : row -> Q) (g : list row) : Q :=
  match g with
  | [] => 0
  | r :: g' => if mask r then col r + loc_sum mask col g' else loc_sum mask col g'
  end.

Definition col_sum (col : row -> Q) (g : list row) : Q :=
  loc_sum (fun _ => true) col g.

(** ** Normaliser ([OnSSTOVE.normalized]) *)

(** [Series.max()] and [Series.min()]: NaN on an empty column. *)
Definition series_max (s : list Q) : fnum :=
  match s with
  | [] => NaN
  | x :: t => Fin (fold_left Qmax t x)
  end.

Definition series_min (s : list Q) : fnum :=
  match s with
  | [] => NaN
  | x :: t => Fin (fold_left Qmin t x)
  end.

(** [max - min == 0]: the range of the column is degenerate. *)
Definition zero_range (s : list Q) : bool :=
  match fsub (series_max s) (series_min s) with
  | Fin d => Qeq_bool d 0
  | _ => false
  end.

(** The quotients are exact here; [binary64.normalized] rounds every
    operation. *)
Definition normalized (g : list row) (column : row -> Q) (inverse : bool)
  : outcome (list fnum) :=
  let s := map column g in
  if inverse then
    Returns (map (fun x => fdiv (fsub (series_max s) (Fin x))
                              (fsub (series_max s) (series_min s))) s)
  else
    Returns (map (fun x => fdiv (fsub (Fin x) (series_min s))
                              (fsub (series_max s) (series_min s))) s).

(** [self.normalize_for_electricity()]: the distance column is the first
    one the table has among transformers, MV lines and HV lines. *)
Definition has_column (name : string) (s : OnSSTOVE) : bool :=
  existsb (String.eqb name) (columns s).

Definition select_Elec_dist (s : OnSSTOVE) (r : row) : Q :=
  if has_column "Transformers_dist" s then Transformers_dist r
  else if has_column "MV_lines_dist" s then MV_lines_dist r
  else HV_lines_dist r.

Definition weigh (sp : Specs) (elec_dist pop ntl : fnum) : fnum :=
  fdiv (fadd (fadd (fmul elec_dist (Fin (infra_weight sp)))
                   (fmul pop (Fin (Min_Elec_Pop sp))))
             (fmul ntl (Fin (Min_Night_Lights sp))))
       (Fin (infra_weight sp + Min_Elec_Pop sp + Min_Night_Lights sp)).

(** Element-wise Series arithmetic over the shared index. *)
Fixpoint assign_combined_weight (sp : Specs) (g : list row)
    (elec_dist pop ntl : list fnum) : list row :=
  match g, elec_dist, pop, ntl with
  | r :: g', e :: es, p :: ps, n :: ns =>
      set_combined_weight (weigh sp e p n) r
        :: assign_combined_weight sp g' es ps ns
  | _, _, _, _ => []
  end.

Definition normalize_for_electricity (s : OnSSTOVE) : outcome OnSSTOVE :=
  let g := map (fun r => set_Elec_dist (select_Elec_dist s r) r) (gdf s) in
  elec_dist <- normalized g Elec_dist true ;;
  ntl <- normalized g Night_lights false ;;
  pop <- normalized g Calibrated_pop false ;;
  Returns (set_gdf (assign_combined_weight (specs s) g elec_dist pop ntl) s).

(** The composite scores [normalize_for_electricity] computes, in index
    order. *)
Definition composite_scores (s : OnSSTOVE) : list fnum :=
  match normalize_for_electricity s with
  | Returns s1 => map combined_weight (gdf s1)
  | Raises _ => []
  end.

(** ** Electrification calibrator, Phase A ([OnSSTOVE.current_elec]) *)

(** The fixed threshold step, [0.0001]. *)
Definition step : Q := 1 # 10000.

(** The variables of the loop: the table, [i] and [elec_pop]. *)
Record phaseA : Type := mkPhaseA {
  A_gdf : list row;
  A_i : Q;
  A_elec_pop : Q
}.

Definition current_elec_guard (total_pop elec_rate : Q) (st : phaseA) : bool :=
  Qle_bool (A_elec_pop st) (total_pop * elec_rate).

Definition current_elec_body (st : phaseA) : phaseA :=
  let mask := fun r => fge (combined_weight r) (Fin (A_i st)) in
  mkPhaseA (loc_set mask (set_Current_elec 1) (A_gdf st))
           (A_i st - step)
           (loc_sum mask Calibrated_pop (A_gdf st)).

(** The [while] loop; [None] when the fuel runs out before the guard fails. *)
Fixpoint current_elec_while (fuel : nat) (total_pop elec_rate : Q)
    (st : phaseA) : option phaseA :=
  if current_elec_guard total_pop elec_rate st then
    match fuel with
    | O => None
    | S fuel' =>
        current_elec_while fuel' total_pop elec_rate (current_elec_body st)
    end
  else Some st.

Definition current_elec_init (s : OnSSTOVE) : phaseA :=
  mkPhaseA (map (set_Current_elec 0) (gdf s)) 1 0.

Definition current_elec (fuel : nat) (s : OnSSTOVE)
  : option (outcome OnSSTOVE) :=
  match normalize_for_electricity s with
  | Raises e => Some (Raises e)
  | Returns s1 =>
      let elec_rate := Elec_rate (specs s1) in
      let st0 := current_elec_init s1 in
      let total_pop := col_sum Calibrated_pop (A_gdf st0) in
      match current_elec_while fuel total_pop elec_rate st0 with
      | None => None
      | Some st => Some (Returns (set_self_i (A_i st) (set_gdf (A_gdf st) s1)))
      end
  end.

(** The loop variables after [n] passes of the body. *)
Fixpoint current_elec_iter (n : nat) (st : phaseA) : phaseA :=
  match n with
  | O => st
  | S n' => current_elec_iter n' (current_elec_body st)
  end.

Definition current_elec_after (n : nat) (s : OnSSTOVE) : phaseA :=
  match normalize_for_electricity s with
  | Returns s1 => current_elec_iter n (current_elec_init s1)
  | Raises _ => current_elec_init s
  end.

(** ** Electrification calibrator, Phase B ([OnSSTOVE.final_elec]) *)

Record phaseB : Type := mkPhaseB {
  B_gdf : list row;
  B_i : Q;
  B_elec_pop : Q
}.

(** [Series.count()]: the number of entries that are not missing.  The
    column [Current_elec] holds 0 or 1 on every row, so this is the number
    of rows. *)
Definition series_count (g : list row) : Q :=
  inject_Z (Z.of_nat (List.length g)).

Definition is_electrified (r : row) : bool := (Current_elec r =? 1)%Z.

(** The calibrated population of the cells marked [Current_elec = 1]. *)
Definition electrified_pop (g : list row) : Q :=
  loc_sum is_electrified Calibrated_pop g.

(** A marked cell has a score at or above the current threshold. *)
Definition marked_above (st : phaseA) : Prop :=
  Forall (fun r => is_electrified r = true ->
                   fge (combined_weight r) (Fin (A_i st)) = true)
         (A_gdf st).

(** [(self.i <= self.combined_weight) & (self.combined_weight <= i)] *)
Definition in_band (lo hi : Q) (r : row) : bool :=
  fle (Fin lo) (combined_weight r) && fle (combined_weight r) (Fin hi).

Definition final_elec_guard (total_pop elec_rate : Q) (st : phaseB) : bool :=
  Qltb (total_pop * elec_rate) (B_elec_pop st).

(** One pass of the loop.  The subtraction and the sums are exact here;
    [binary64.final_elec_body] rounds every operation. *)
Definition final_elec_body (lo factor : Q) (st : phaseB) : phaseB :=
  let new_bool := in_band lo (B_i st) in
  let g1 := loc_set new_bool
              (fun r => set_Elec_pop_calib (Elec_pop_calib r - factor) r)
              (B_gdf st) in
  let g2 := loc_set (fun r => Qltb (Elec_pop_calib r) 0)
              (set_Elec_pop_calib 0) g1 in
  let g3 := loc_set (fun r => Qeq_bool (Elec_pop_calib r) 0)
              (set_Current_elec 0) g2 in
  let elec_pop := loc_sum is_electrified Elec_pop_calib g3 in
  let n := List.length (filter (fun r => is_electrified r && new_bool r) g3) in
  mkPhaseB g3
           (if Nat.eqb n 0 then B_i st + step else B_i st)
           elec_pop.

Fixpoint final_elec_while (fuel : nat) (total_pop elec_rate lo factor : Q)
    (st : phaseB) : option phaseB :=
  if final_elec_guard total_pop elec_rate st then
    match fuel with
    | O => None
    | S fuel' =>
        final_elec_while fuel' total_pop elec_rate lo factor
          (final_elec_body lo factor st)
    end
  else Some st.

Definition final_elec_init (s : OnSSTOVE) : phaseB :=
  let g := map (fun r => set_Elec_pop_calib (Calibrated_pop r) r) (gdf s) in
  mkPhaseB g (self_i s + step) (loc_sum is_electrified Calibrated_pop g).

(** [factor], fixed before the loop is entered. *)
Definition final_elec_factor (s : OnSSTOVE) : Q :=
  let st0 := final_elec_init s in
  let total_pop := col_sum Calibrated_pop (B_gdf st0) in
  let diff := B_elec_pop st0 - total_pop * Elec_rate (specs s) in
  diff / series_count (B_gdf st0).

Definition final_elec_finish (g : list row) : list row :=
  loc_set (fun r => (Current_elec r =? 0)%Z) (set_Elec_pop_calib 0) g.

Definition final_elec (fuel : nat) (s : OnSSTOVE) : option OnSSTOVE :=
  let elec_rate := Elec_rate (specs s) in
  let st0 := final_elec_init s in
  let total_pop := col_sum Calibrated_pop (B_gdf st0) in
  match final_elec_while fuel total_pop elec_rate (self_i s)
          (final_elec_factor s) st0 with
  | None => None
  | Some st => Some (set_gdf (final_elec_finish (B_gdf st)) s)
  end.

(** The variables of the loop after [n] passes, as the [while] runs them:
    the body is applied as long as the guard holds. *)
Fixpoint final_elec_passes (n : nat) (total_pop elec_rate lo factor : Q)
    (st : phaseB) : phaseB :=
  match n with
  | O => st
  | S n' =>
      if final_elec_guard total_pop elec_rate st
      then final_elec_passes n' total_pop elec_rate lo factor
             (final_elec_body lo factor st)
      else st
  end.

Definition final_elec_after (n : nat) (s : OnSSTOVE) : phaseB :=
  final_elec_passes n
    (col_sum Calibrated_pop (B_gdf (final_elec_init s)))
    (Elec_rate (specs s)) (self_i s) (final_elec_factor s)
    (final_elec_init s).

(** What one pass does to one row. *)
Definition pass_row (lo hi factor : Q) (r : row) : row :=
  let r1 := if in_band lo hi r
            then set_Elec_pop_calib (Elec_pop_calib r - factor) r else r in
  let r2 := if Qltb (Elec_pop_calib r1) 0 then set_Elec_pop_calib 0 r1 else r1 in
  if Qeq_bool (Elec_pop_calib r2) 0 then set_Current_elec 0 r2 else r2.

(** Whether the loop, after [n] passes, makes another one. *)
Definition final_elec_running (n : nat) (s : OnSSTOVE) : bool :=
  final_elec_guard (col_sum Calibrated_pop (B_gdf (final_elec_init s)))
    (Elec_rate (specs s)) (final_elec_after n s).

(** [x] clamped at zero, as [loc[Elec_pop_calib < 0] = 0] leaves it. *)
Definition clamp0 (x : Q) : Q := if Qltb x 0 then 0 else x.

(** The decrement in the words of the specification: the current surplus
    over the target, divided by the number of cells that are currently
    electrified. *)
Definition surplus_per_electrified (s : OnSSTOVE) (st : phaseB) : Q :=
  (B_elec_pop st
   - col_sum Calibrated_pop (B_gdf (final_elec_init s)) * Elec_rate (specs s))
  / inject_Z (Z.of_nat (List.length (filter is_electrified (B_gdf st)))).

(** The invariant on a cell: its electrified population is neither
    negative nor above its population. *)
Definition elec_within_pop (r : row) : Prop :=
  0 <= Elec_pop_calib r /\ Elec_pop_calib r <= Calibrated_pop r.

(** ** Urban classifier ([OnSSTOVE.calibrate_urban_manual]) *)

(** The variables of the loop: the table, [urban_modelled], [factor], [i]. *)
Record urban : Type := mkUrban {
  U_gdf : list row;
  U_urban_modelled : fnum;
  U_factor : Q;
  U_i : Z
}.

(** [self.gdf["Calibrated_pop"] / (self.cell_size[0] ** 2 / 1000000)] *)
Definition density (cell : Q) (r : row) : fnum :=
  fdiv (Fin (Calibrated_pop r)) (Fin (cell ^ 2 / 1000000)).

Definition is_peri_urban (cell factor : Q) (r : row) : bool :=
  Qltb (5000 * factor) (Calibrated_pop r)
  && flt (Fin (350 * factor)) (density cell r).

Definition is_urban (cell factor : Q) (r : row) : bool :=
  Qltb (50000 * factor) (Calibrated_pop r)
  && flt (Fin (1500 * factor)) (density cell r).

Definition classify (cell factor : Q) (g : list row) : list row :=
  loc_set (is_urban cell factor) (set_IsUrban 2)
    (loc_set (is_peri_urban cell factor) (set_IsUrban 1)
       (map (set_IsUrban 0) g)).

Definition calibrate_urban_guard (urban_current : Q) (st : urban) : bool :=
  flt (Fin (1 # 100)) (fabs (fsub (U_urban_modelled st) (Fin urban_current))).

(** One pass of the loop body up to and including [i = i + 1]. *)
Definition calibrate_urban_body (cell pop_tot urban_current : Q) (st : urban)
  : urban :=
  let g := classify cell (U_factor st) (U_gdf st) in
  let pop_urb := loc_sum (fun r => (1 <? IsUrban r)%Z) Calibrated_pop g in
  let urban_modelled := fdiv (Fin pop_urb) (Fin pop_tot) in
  let factor :=
    if flt (Fin urban_current) urban_modelled
    then U_factor st * (11 # 10)
    else U_factor st * (9 # 10) in
  mkUrban g urban_modelled factor (U_i st + 1).

(** The [while] loop with its [if i > 500: break]. *)
Fixpoint calibrate_urban_while (fuel : nat) (cell pop_tot urban_current : Q)
    (st : urban) : option urban :=
  if calibrate_urban_guard urban_current st then
    match fuel with
    | O => None
    | S fuel' =>
        let st' := calibrate_urban_body cell pop_tot urban_current st in
        if (500 <? U_i st')%Z then Some st'
        else calibrate_urban_while fuel' cell pop_tot urban_current st'
    end
  else Some st.

Definition calibrate_urban_init (s : OnSSTOVE) : urban :=
  mkUrban (gdf s) (Fin 2) 1 0.

(** The loop as the method runs it; the result keeps the loop variables. *)
Definition calibrate_urban_run (fuel : nat) (s : OnSSTOVE) : option urban :=
  calibrate_urban_while fuel (cell_size s)
    (Population_start_year (specs s)) (Urban_start (specs s))
    (calibrate_urban_init s).

Definition calibrate_urban_manual (fuel : nat) (s : OnSSTOVE)
  : option OnSSTOVE :=
  match calibrate_urban_run fuel s with
  | None => None
  | Some st => Some (set_gdf (U_gdf st) s)
  end.

(** ** Urban classifier of [onstove/raster.py] ([calibrate_urban]) *)

Module raster.

Record cluster : Type := mkCluster {
  Population : Q;
  Area : Q;
  IsUrban : Z
}.

Definition set_IsUrban (v : Z) (c : cluster) : cluster :=
  mkCluster (Population c) (Area c) v.

(** The variables of the loop. *)
Record search : Type := mkSearch {
  clusters : list cluster;
  urban_modelled : fnum;
  factor : Q;
  i : Z
}.

Definition over (pop_min dens_min : Q) (c : cluster) : bool :=
  Qltb pop_min (Population c)
  && flt (Fin dens_min) (fdiv (Fin (Population c)) (Fin (Area c))).

Definition classify (f : Q) (cs : list cluster) : list cluster :=
  map (fun c => if over (50000 * f) (1500 * f) c then set_IsUrban 2 c else c)
    (map (fun c => if over (5000 * f) (300 * f) c then set_IsUrban 1 c else c)
       (map (set_IsUrban 0) cs)).

Fixpoint population_where (mask : cluster -> bool) (cs : list cluster) : Q :=
  match cs with
  | [] => 0
  | c :: cs' =>
      if mask c then Population c + population_where mask cs'
      else population_where mask cs'
  end.

Definition guard (urban_current : Q) (st : search) : bool :=
  flt (Fin (1 # 100)) (fabs (fsub (urban_modelled st) (Fin urban_current))).

Definition body (pop_tot urban_current : Q) (st : search) : search :=
  let cs := classify (factor st) (clusters st) in
  let pop_urb := population_where (fun c => (1 <? IsUrban c)%Z) cs in
  let um := fdiv (Fin pop_urb) (Fin pop_tot) in
  mkSearch cs um
    (if flt (Fin urban_current) um
     then factor st * (11 # 10) else factor st * (9 # 10))
    (i st + 1).

Fixpoint while (fuel : nat) (pop_tot urban_current : Q) (st : search)
  : option search :=
  if guard urban_current st then
    match fuel with
    | O => None
    | S fuel' =>
        let st' := body pop_tot urban_current st in
        if (500 <? i st')%Z then Some st'
        else while fuel' pop_tot urban_current st'
    end
  else Some st.

(** The loop of [calibrate_urban]; writing the clusters to a file and
    printing the ratio are left out. *)
Definition calibrate_urban (fuel : nat) (cs : list cluster)
    (urban_current : Q) : option search :=
  while fuel (population_where (fun _ => true) cs) urban_current
    (mkSearch cs (Fin 2) 1 0).

(** The reduction of [np.nanmin] and [np.nanmax] over an array that has
    an entry: the extremum of the entries that are not NaN, and NaN when
    every entry is NaN. *)
Definition nan_reduce (better : fnum -> fnum -> bool) (l : list fnum)
  : fnum :=
  fold_left (fun acc x =>
               match x, acc with
               | NaN, _ => acc
               | _, NaN => x
               | _, _ => if better x acc then x else acc
               end) l NaN.

(** [np.nanmin] and [np.nanmax]: an array without entries raises
    [ValueError]. *)
Definition nan_extremum (better : fnum -> fnum -> bool) (l : list fnum)
  : outcome fnum :=
  match l with
  | [] => Raises ValueError
  | _ :: _ => Returns (nan_reduce better l)
  end.

(** [normalize] on the band it reads from the file.  The extrema are
    taken over the cells that differ from [nodata]; when there is none,
    [np.nanmin] raises. *)
Definition normalize (band : list fnum) (nodata limit : fnum)
  : outcome (list fnum) :=
  let capped := map (fun x => if flt limit x then NaN else x) band in
  let data := filter (fun x => negb (feq x nodata)) capped in
  min_value <- nan_extremum fle data ;;
  max_value <- nan_extremum fge data ;;
  let scaled := map (fun x => if negb (feq x nodata)
                              then fdiv x (fsub max_value min_value) else x)
                    capped in
  let filled := map (fun x => match x with NaN => Fin 1 | _ => x end) scaled in
  Returns (map (fun x => if flt x (Fin 0) then NaN else x) filled).

End raster.

(** ** Households ([OnSSTOVE.number_of_households]) *)

Definition number_of_households (s : OnSSTOVE) : OnSSTOVE :=
  let g1 := loc_set (fun r => (IsUrban r <? 20)%Z)
              (fun r => set_Households
                          (Some (Calibrated_pop r / Rural_HHsize (specs s))) r)
              (gdf s) in
  let g2 := loc_set (fun r => (20 <? IsUrban r)%Z)
              (fun r => set_Households
                          (Some (Calibrated_pop r / Urban_HHsize (specs s))) r)
              g1 in
  set_gdf g2 s.

(** ** Maximum-net-benefit allocator ([OnSSTOVE.maximum_net_benefit]) *)

(** [idxmax(axis=1)] together with [max(axis=1)] on one row: the first
    column that holds the largest value, and that value. *)
Fixpoint idxmax (cols : list (string * Q)) : option (string * Q) :=
  match cols with
  | [] => None
  | (t, v) :: rest =>
      match idxmax rest with
      | None => Some (t, v)
      | Some (t', v') => if Qltb v v' then Some (t', v') else Some (t, v)
      end
  end.

(** [list.remove]: drops the first column of that name. *)
Fixpoint remove_col (name : string) (cols : list (string * Q))
  : list (string * Q) :=
  match cols with
  | [] => []
  | (t, v) :: rest =>
      if String.eqb t name then rest else (t, v) :: remove_col name rest
  end.

Fixpoint traverse {A B : Type} (f : A -> outcome B) (l : list A)
  : outcome (list B) :=
  match l with
  | [] => Returns []
  | a :: l' => b <- f a ;; bs <- traverse f l' ;; Returns (b :: bs)
  end.

(** [idxmax] and [max] over the net-benefit columns, on one row.  The
    rows of a table have the same columns and the entries are finite, so
    a row without an entry is a row of a table that has no net-benefit
    column, on which [idxmax] raises [ValueError]. *)
Definition assign_max_benefit (r : row) : outcome row :=
  match idxmax (net_benefit r) with
  | None => Raises ValueError
  | Some (t, v) =>
      Returns (set_maximum_net_benefit v (set_max_benefit_tech t r))
  end.

(** The mask [current_elect]. *)
Definition current_elect (r : row) : bool :=
  (Current_elec r =? 1)%Z
  && Qltb (Elec_pop_calib r) (Calibrated_pop r)
  && String.eqb (max_benefit_tech r) "Electricity".

Definition elect_fraction (r : row) : Q :=
  Elec_pop_calib r / Calibrated_pop r.

Definition scale_Households (f : Q) (r : row) : option Q :=
  match Households r with
  | Some h => Some (h * f)
  | None => None
  end.

(** The existing row of a split cell, after the in-place scalings.  The
    products are exact here and in [second_row]; [binary64.grid_row] and
    [binary64.second_row] round every operation. *)
Definition grid_row (r : row) : row :=
  let f := elect_fraction r in
  set_Households (scale_Households f r)
    (set_Elec_pop_calib (Elec_pop_calib r * f)
       (set_Calibrated_pop (Calibrated_pop r * f)
          (set_maximum_net_benefit (maximum_net_benefit_col r * f) r))).

(** The row of [dff] made from a split cell. *)
Definition second_row (r : row) : outcome row :=
  let f := elect_fraction r in
  match idxmax (remove_col "Electricity" (net_benefit r)) with
  | None => Raises ValueError
  | Some (second_best, second_best_value) =>
      Returns
        (set_Households (scale_Households (1 - f) r)
           (set_Elec_pop_calib (Elec_pop_calib r * (1 - f))
              (set_Calibrated_pop (Calibrated_pop r * (1 - f))
                 (set_maximum_net_benefit (second_best_value * (1 - f))
                    (set_max_benefit_tech second_best r)))))
  end.

(** [.str.replace] on the column [idxmax] has filled: on a table
    without rows that column holds no strings, and the accessor raises. *)
Definition str_replace (g : list row) : outcome (list row) :=
  match g with
  | [] => Raises AttributeError
  | _ :: _ => Returns g
  end.

Definition maximum_net_benefit (s : OnSSTOVE) : outcome OnSSTOVE :=
  g <- traverse assign_max_benefit (gdf s) ;;
  g <- str_replace g ;;
  if Nat.ltb 0 (List.length (filter current_elect g)) then
    dff <- traverse second_row (filter current_elect g) ;;
    Returns (set_gdf (loc_set current_elect grid_row g ++ dff) s)
  else Returns (set_gdf g s).

(** The cells the allocator splits, read on the table it is given: the
    grid column holds the row's first maximum, the cell is marked
    electrified, and its electrified population is below its population. *)
Definition chooses_grid (r : row) : bool :=
  match idxmax (net_benefit r) with
  | Some (t, _) => String.eqb t "Electricity"
  | None => false
  end.

Definition is_split (r : row) : bool :=
  (Current_elec r =? 1)%Z
  && Qltb (Elec_pop_calib r) (Calibrated_pop r)
  && chooses_grid r.

(** The position, among the appended rows, of the row made from cell [k]. *)
Definition split_rank (g : list row) (k : nat) : nat :=
  List.length (filter is_split (firstn k g)).

(** ** Sample tables *)

(** A cell with a calibrated population and a composite score; the other
    columns are zero or empty. *)
Definition cell (pop : Q) (w : fnum) : row :=
  mkRow pop 0 0 0 0 0 w 0 0 0 None [] "" 0.

Definition scenario (rate : Q) : Specs :=
  mkSpecs rate 1 1 1 100 (1 # 2) 5 4.

Definition session (g : list row) (rate : Q) : OnSSTOVE :=
  mkOnSSTOVE g [] (scenario rate) 1000 0.

(** One cell of 100 people and 20 households, 40 of them served by the
    grid; the grid has net benefit 10 and LPG, the next best, 6. *)
Definition partly_served : row :=
  mkRow 100 0 0 0 0 0 (Fin 1) 1 40 0 (Some 20)
    [("Electricity"%string, 10); ("LPG"%string, 6); ("Biogas"%string, 2)]
    "" 0.

(** Three surveyed cells: two next to the HV lines and lit at night, one
    far away and dark.  The scenario weighs the distance and the night
    lights, and asks for an electrification rate of one tenth. *)
Definition surveyed (pop hv ntl : Q) : row :=
  mkRow pop 0 0 hv 0 ntl NaN 0 0 0 (Some (pop / 5))
    [("Electricity"%string, 10); ("LPG"%string, 6)] "" 0.

Definition survey : OnSSTOVE :=
  mkOnSSTOVE [surveyed 100 0 1; surveyed 10 0 1; surveyed 90 5 0]
    ["HV_lines_dist"%string]
    (mkSpecs (1 # 10) 1 0 1 200 (1 # 2) 5 4) 1000 0.

(** The session [current_elec] leaves on the survey. *)
Definition after_phase_A : OnSSTOVE :=
  Eval vm_compute in
    match current_elec 1 survey with
    | Some (Returns s) => s
    | _ => survey
    end.

(** Three cells along a line away from the grid, at 0, 2 and 10000 km;
    the target rate is one half.  Phase A marks the first cell on its
    first pass and the second on its second pass. *)
Definition transect : OnSSTOVE :=
  mkOnSSTOVE [surveyed 10 0 1; surveyed 100 2 1; surveyed 90 10000 0]
    ["HV_lines_dist"%string]
    (mkSpecs (1 # 2) 1 0 1 200 (1 # 2) 5 4) 1000 0.

Definition transect_after_phase_A : OnSSTOVE :=
  Eval vm_compute in
    match current_elec 2 transect with
    | Some (Returns s) => s
    | _ => transect
    end.

(** A hamlet of 100 people on a 1 km grid, in a country of 100 people
    half of whom should come out urban. *)
Definition hamlet : OnSSTOVE :=
  mkOnSSTOVE [cell 100 NaN] []
    (mkSpecs (1 # 2) 1 1 1 100 (1 # 2) 5 4) 1000 0.

(** A town of 60000 people and a village of 1000 on a 1 km grid; 98% of
    the 61000 people should come out urban; rural households have 5
    members, urban households 4. *)
Definition town : OnSSTOVE :=
  mkOnSSTOVE [cell 60000 NaN; cell 1000 NaN] []
    (mkSpecs (1 # 2) 1 1 1 61000 (98 # 100) 5 4) 1000 0.

(** ** Predicates used to state what the calibration leaves *)

(** A score in the unit interval. *)
Definition in_unit_interval (a : fnum) : Prop :=
  match a with
  | Fin q => 0 <= q /\ q <= 1
  | _ => False
  end.

(** The mark a threshold gives a cell: 1 when its score is at or above
    the threshold, 0 otherwise (also when the score is NaN). *)
Definition mark_at (t : Q) (r : row) : Z :=
  if fge (combined_weight r) (Fin t) then 1%Z else 0%Z.

(** What Phase B may do to a row: write [Elec_pop_calib], and keep the
    mark [Current_elec] or clear it. *)
Definition trimmed (r r' : row) : Prop :=
  exists e c,
    r' = set_Current_elec c (set_Elec_pop_calib e r)
    /\ (c = Current_elec r \/ c = 0%Z).

(** The rows on which the allocator finds the maxima it takes: a
    net-benefit column, and for a cell it splits a column besides the
    grid. *)
Definition has_benefit_columns (r : row) : Prop :=
  net_benefit r <> []
  /\ (is_split r = true -> remove_col "Electricity" (net_benefit r) <> []).

(** The code the urban classifier gives a cell, read on the cell alone. *)
Definition urban_code (cell factor : Q) (r : row) : Z :=
  if is_urban cell factor r then 2%Z
  else if is_peri_urban cell factor r then 1%Z else 0%Z.

(** The table of a state that has been through a pass of the urban loop
    is a classified one. *)
Definition classified (cell : Q) (st : urban) : Prop :=
  exists factor g, U_gdf st = classify cell factor g.

(** What the classifier of [raster.py] leaves of a cluster: its
    population and its area, and one of the codes 0, 1, 2. *)
Definition raster_classified (c c' : raster.cluster) : Prop :=
  raster.Population c' = raster.Population c
  /\ raster.Area c' = raster.Area c
  /\ (raster.IsUrban c' = 0%Z \/ raster.IsUrban c' = 1%Z
      \/ raster.IsUrban c' = 2%Z).

(** The code the classifier of [raster.py] gives a cluster, read on the
    cluster alone. *)
Definition raster_code (f : Q) (c : raster.cluster) : Z :=
  if raster.over (50000 * f) (1500 * f) c then 2%Z
  else if raster.over (5000 * f) (300 * f) c then 1%Z else 0%Z.

(** ** Population calibration ([OnSSTOVE.calibrate_current_pop]) *)

(** [Series.sum()] of a column of finite values: 0 on an empty column. *)
Definition series_sum (s : list Q) : Q := fold_right Qplus 0 s.

(** [specs["Population_start_year"] / total_gis_pop]: the divisor is a
    numpy scalar, so a zero total gives an infinity or NaN, not an
    exception. *)
Definition calibration_factor (sp : Specs) (Pop : list Q) : fnum :=
  fdiv (Fin (Population_start_year sp)) (Fin (series_sum Pop)).

(** The column [Calibrated_pop] the method writes, from the column [Pop]. *)
Definition calibrate_current_pop (sp : Specs) (Pop : list Q) : list fnum :=
  map (fun p => fmul (Fin p) (calibration_factor sp Pop)) Pop.

(** The sum of a column that may hold infinities and NaN. *)
Definition fsum (s : list fnum) : fnum := fold_right fadd (Fin 0) s.

(** ** Value of time ([OnSSTOVE.get_value_of_time]) *)

(** The column [value_of_time], from the column [relative_wealth] and
    [specs['Minimum_wage']]; on a column without rows [np.nanmin]
    raises. *)
Definition get_value_of_time (relative_wealth : list fnum) (Minimum_wage : Q)
  : outcome (list fnum) :=
  min_value <- raster.nan_extremum fle relative_wealth ;;
  max_value <- raster.nan_extremum fge relative_wealth ;;
  Returns
    (map (fun x =>
            let norm_layer :=
              fadd (fmul (fdiv (fsub x min_value) (fsub max_value min_value))
                         (Fin ((5 # 10) - (2 # 10))))
                   (Fin (2 # 10)) in
            fdiv (fdiv (fmul norm_layer (Fin Minimum_wage)) (Fin 30)) (Fin 24))
         relative_wealth).

(** ** Weighted index ([index] of [raster.py], [DataProcessor.index]) *)

(** A raster band is the list of its cells in row-major order; the
    arrays of one call have one shape. *)

(** [w * r] *)
Definition scale (w : Q) (r : list fnum) : list fnum := map (fmul (Fin w)) r.

(** What Python's [sum] holds while it adds arrays to its start value:
    the number 0 as long as nothing was added, an array afterwards. *)
Inductive summed : Type :=
| Scalar (q : Q)
| Array (a : list fnum).

Definition add_array (t : summed) (r : list fnum) : summed :=
  match t with
  | Scalar q => Array (map (fadd (Fin q)) r)
  | Array a => Array (map (fun xy => fadd (fst xy) (snd xy)) (combine a r))
  end.

Definition sum_arrays (rs : list (list fnum)) : summed :=
  fold_left add_array rs (Scalar 0).

(** [sum(weights)] on Python numbers. *)
Definition sum_weights (ws : list Q) : Q := fold_left Qplus ws 0.

(** The result of an index call: an array, or, when no array was added,
    the quotient of two Python numbers, which raises on a zero divisor. *)
Inductive index_result : Type :=
| Grid (a : list fnum)
| Number (q : Q)
| ZeroDivisionError.

(** [sum(rasters) / sum(weights)] *)
Definition divide (t : summed) (w : Q) : index_result :=
  match t with
  | Array a => Grid (map (fun x => fdiv x (Fin w)) a)
  | Scalar q => if Qeq_bool w 0 then ZeroDivisionError else Number (q / w)
  end.

(** [index(rasters, weights)] of [raster.py]; [zip] stops at the shorter
    list. *)
Definition index (rasters : list (list fnum)) (weights : list Q)
  : index_result :=
  let raster := map (fun rw => scale (snd rw) (fst rw))
                    (combine rasters weights) in
  divide (sum_arrays raster) (sum_weights weights).

(** The weighted sum so far lies between [lo] and [hi] times the weight
    so far. *)
Definition between (lo hi w : Q) (x : Q) : Prop := lo * w <= x /\ x <= hi * w.

(** ** Layer selection ([DataProcessor.get_layers], [OnSSTOVE.get_layers]) *)

(** A Python dict with string keys: its items in insertion order, one per
    key. *)
Definition dict (V : Type) : Type := list (string * V).

Fixpoint dict_get {V : Type} (k : string) (d : dict V) : option V :=
  match d with
  | [] => None
  | (k', v) :: d' => if String.eqb k' k then Some v else dict_get k d'
  end.

(** [d[k] = v]: a key the dict has keeps its place. *)
Fixpoint dict_set {V : Type} (k : string) (v : V) (d : dict V) : dict V :=
  match d with
  | [] => [(k, v)]
  | (k', v') :: d' =>
      if String.eqb k' k then (k', v) :: d' else (k', v') :: dict_set k v d'
  end.

(** [d[c][n]] on a dict of dicts, as a mapping: [None] when [d] has no
    key [c], [Some None] when [d[c]] has no key [n]. *)
Definition dict_get2 {V : Type} (c n : string) (d : dict (dict V))
  : option (option V) :=
  match dict_get c d with
  | Some inner => Some (dict_get n inner)
  | None => None
  end.

(** The outcome of code whose only exception is the [KeyError] of a
    subscript. *)
Inductive lookup (A : Type) : Type :=
| Found (a : A)
| KeyError.

Arguments KeyError {A}.

(** [d[k]] *)
Definition getitem {V : Type} (k : string) (d : dict V) : lookup V :=
  match dict_get k d with
  | Some v => Found v
  | None => KeyError
  end.

(** The argument [layers]: the string ['all'], or a dict from a category
    to the names wanted in it. *)
Inductive selection : Type :=
| all
| only (names_by_category : dict (list string)).

Section Layers.

(** The layer objects. *)
Variable L : Type.

(** [self.layers[category][name]] *)
Definition layer_of (self_layers : dict (dict L)) (category name : string)
  : lookup L :=
  match getitem category self_layers with
  | Found c => getitem name c
  | KeyError => KeyError
  end.

(** [for name in names: _layers[category][name] = self.layers[category][name]],
    on the dict [_layers[category]]. *)
Fixpoint copy_names (self_layers : dict (dict L)) (category : string)
    (names : list string) (inner : dict L) : lookup (dict L) :=
  match names with
  | [] => Found inner
  | name :: names' =>
      match layer_of self_layers category name with
      | Found l => copy_names self_layers category names' (dict_set name l inner)
      | KeyError => KeyError
      end
  end.

(** The loop of [DataProcessor.get_layers] over [layers.items()]; the
    dict stored under [category] is the one the inner loop fills. *)
Fixpoint copy_categories (self_layers : dict (dict L))
    (items : dict (list string)) (_layers : dict (dict L))
  : lookup (dict (dict L)) :=
  match items with
  | [] => Found _layers
  | (category, names) :: items' =>
      match copy_names self_layers category names [] with
      | Found inner =>
          copy_categories self_layers items' (dict_set category inner _layers)
      | KeyError => KeyError
      end
  end.

(** The dict comprehension of [OnSSTOVE.get_layers]: each name sets the
    key [category] to a dict of its own. *)
Fixpoint comprehend_names (self_layers : dict (dict L)) (category : string)
    (names : list string) (layers : dict (dict L)) : lookup (dict (dict L)) :=
  match names with
  | [] => Found layers
  | name :: names' =>
      match layer_of self_layers category name with
      | Found l =>
          comprehend_names self_layers category names'
            (dict_set category [(name, l)] layers)
      | KeyError => KeyError
      end
  end.

Fixpoint comprehend (self_layers : dict (dict L)) (items : dict (list string))
    (layers : dict (dict L)) : lookup (dict (dict L)) :=
  match items with
  | [] => Found layers
  | (category, names) :: items' =>
      match comprehend_names self_layers category names layers with
      | Found layers' => comprehend self_layers items' layers'
      | KeyError => KeyError
      end
  end.

(** [OnSSTOVE.get_layers] *)
Definition get_layers (self_layers : dict (dict L)) (layers : selection)
  : lookup (dict (dict L)) :=
  match layers with
  | all => Found self_layers
  | only items => comprehend self_layers items []
  end.

End Layers.

(** ** The base class ([DataProcessor]) *)

Module DataProcessor.

(** [DataProcessor.get_layers] *)
Definition get_layers {L : Type} (self_layers : dict (dict L))
    (layers : selection) : lookup (dict (dict L)) :=
  match layers with
  | all => Found self_layers
  | only items => copy_categories self_layers items []
  end.

(** A layer, as far as [index] reads it: [layer.weight] and
    [layer.distance_raster.normalized.layer]. *)
Record layer : Type := mkLayer {
  weight : Q;
  normalized_layer : list fnum
}.

(** [DataProcessor.index(layers)], on the dict in insertion order. *)
Definition index (layers : dict layer) : index_result :=
  let rasters := map (fun nl => scale (weight (snd nl))
                                      (normalized_layer (snd nl))) layers in
  let weights := map (fun nl => weight (snd nl)) layers in
  divide (sum_arrays rasters) (sum_weights weights).

End DataProcessor.

(** ** Scenario file ([OnSSTOVE.read_scenario_data]) *)

(** A row of the file as [DictReader] yields it; the empty string stands
    for an empty field. *)
Record config_row : Type := mkConfigRow {
  Param : string;
  Value : string;
  data_type : string
}.

(** A value of the [specs] dict. *)
Inductive value : Type :=
| Int (z : Z)
| Float (x : fnum)
| Str (s : string).

Section Config.

(** Python's [int] and [float] on a string; [None] is their
    [ValueError]. *)
Variable int : string -> option Z.
Variable float : string -> option fnum.

(** The conversion the [data_type] field selects. *)
Definition convert (r : config_row) : outcome value :=
  if String.eqb (data_type r) "int" then
    match int (Value r) with
    | Some z => Returns (Int z)
    | None => Raises ValueError
    end
  else if String.eqb (data_type r) "float" then
    match float (Value r) with
    | Some x => Returns (Float x)
    | None => Raises ValueError
    end
  else if String.eqb (data_type r) "string" then Returns (Str (Value r))
  else Raises ValueError.

(** The loop over the rows, on the dict [config]. *)
Fixpoint read_rows (config_file : list config_row) (config : dict value)
  : outcome (dict value) :=
  match config_file with
  | [] => Returns config
  | r :: rest =>
      if String.eqb (Value r) "" then read_rows rest config
      else v <- convert r ;; read_rows rest (dict_set (Param r) v config)
  end.

(** The dict the method stores in [self.specs]. *)
Definition read_scenario_data (config_file : list config_row)
  : outcome (dict value) :=
  read_rows config_file [].

(** The row that decides a parameter: the last one that names it and
    has a value. *)
Fixpoint deciding_row (p : string) (config_file : list config_row)
  : option config_row :=
  match config_file with
  | [] => None
  | r :: rest =>
      match deciding_row p rest with
      | Some r' => Some r'
      | None =>
          if negb (String.eqb (Value r) "") && String.eqb (Param r) p
          then Some r else None
      end
  end.

End Config.

(** ** More sample inputs *)

(** Two cells that differ in population only: the night lights and the
    distances are the same on both. *)
Definition unlit (rate : Q) : OnSSTOVE :=
  session [cell 5 NaN; cell 10 NaN] rate.

(** Two surveyed cells that the grid does not reach. *)
Definition unserved : OnSSTOVE :=
  session [surveyed 100 0 1; surveyed 10 0 1] (1 # 2).

(** The layers of a project: two demand layers and one supply layer. *)
Definition project_layers : dict (dict nat) :=
  [("demand"%string, [("population"%string, 1%nat); ("roads"%string, 2%nat)]);
   ("supply"%string, [("lpg"%string, 3%nat)])].

(** A reading of the digits 0 to 9, for the sample scenario file. *)
Definition digit (s : string) : option Z :=
  if String.eqb s "0" then Some 0%Z
  else if String.eqb s "1" then Some 1%Z
  else if String.eqb s "2" then Some 2%Z
  else if String.eqb s "3" then Some 3%Z
  else if String.eqb s "4" then Some 4%Z
  else if String.eqb s "5" then Some 5%Z
  else if String.eqb s "6" then Some 6%Z
  else if String.eqb s "7" then Some 7%Z
  else if String.eqb s "8" then Some 8%Z
  else if String.eqb s "9" then Some 9%Z
  else None.

Definition digit_float (s : string) : option fnum :=
  match digit s with
  | Some z => Some (Fin (inject_Z z))
  | None => None
  end.

(** A scenario file that gives the household size twice and leaves a
    value out. *)
Definition scenario_file : list config_row :=
  [mkConfigRow "Rural_HHsize" "5" "int";
   mkConfigRow "Country" "" "nothing";
   mkConfigRow "Rural_HHsize" "6" "float"].

(** ** Double precision *)

(** The numbers of the code are IEEE doubles: an arithmetic operation
    returns the double nearest to its exact result, a tie going to the
    even significand.  [round64] is that rounding on the rationals, to 53
    significant bits; the exponent is not bounded, so overflow and
    underflow are left out. *)

Definition pow2 (e : Z) : Q := 2 ^ e.

(** The binary exponent of a positive number, [floor (log2 x)]. *)
Definition exponent (x : Q) : Z :=
  let k := (Z.log2 (Qnum x) - Z.log2 (Zpos (Qden x)))%Z in
  if Qle_bool (pow2 k) x then k else (k - 1)%Z.

(** The nearest integer, a tie going to the even one. *)
Definition nearest_even (y : Q) : Z :=
  let n := Qfloor y in
  let r := y - inject_Z n in
  if Qltb r (1 # 2) then n
  else if Qltb (1 # 2) r then (n + 1)%Z
  else if Z.even n then n else (n + 1)%Z.

Definition round64 (x : Q) : Q :=
  if Qeq_bool x 0 then 0
  else
    let e := (exponent (Qabs x) - 52)%Z in
    Qred (inject_Z (nearest_even (x / pow2 e)) * pow2 e).

(** The unit roundoff of double precision, [2^-53]. *)
Definition u64 : Q := pow2 (-53).

(** What the theorems below ask of a rounding: a relative error of at
    most [u] on every number, monotonicity, and that 1 is kept.  Exact
    arithmetic is the identity with [u = 0]; double precision is
    [round64] with [u = u64]. *)
Definition accurate (u : Q) (rnd : Q -> Q) : Prop :=
  forall x, Qabs (rnd x - x) <= u * Qabs x.

Definition monotone (rnd : Q -> Q) : Prop :=
  forall x y, x <= y -> rnd x <= rnd y.

(** The methods whose results depend on the rounding, with the rounding
    [rnd] applied to the result of every arithmetic operation of the
    code.  With the identity for [rnd] they are the definitions above. *)
Module binary64.

Section Rounded.

Variable rnd : Q -> Q.

Definition fround (a : fnum) : fnum :=
  match a with
  | Fin q => Fin (rnd q)
  | _ => a
  end.

(** [OnSSTOVE.normalized]: a subtraction for the numerator of every
    row, one for the range, and a division. *)
Definition normalized (g : list row) (column : row -> Q) (inverse : bool)
  : outcome (list fnum) :=
  let s := map column g in
  if inverse then
    Returns (map (fun x => fround (fdiv (fround (fsub (series_max s) (Fin x)))
                                        (fround (fsub (series_max s)
                                                      (series_min s))))) s)
  else
    Returns (map (fun x => fround (fdiv (fround (fsub (Fin x) (series_min s)))
                                        (fround (fsub (series_max s)
                                                      (series_min s))))) s).

(** [OnSSTOVE.maximum_net_benefit]: the quotient [elect_fraction], the
    difference [1 - elect_fraction], and a product for every scaled
    column. *)
Definition elect_fraction (r : row) : Q :=
  rnd (Elec_pop_calib r / Calibrated_pop r).

Definition scale_Households (f : Q) (r : row) : option Q :=
  match Households r with
  | Some h => Some (rnd (h * f))
  | None => None
  end.

Definition grid_row (r : row) : row :=
  let f := elect_fraction r in
  set_Households (scale_Households f r)
    (set_Elec_pop_calib (rnd (Elec_pop_calib r * f))
       (set_Calibrated_pop (rnd (Calibrated_pop r * f))
          (set_maximum_net_benefit (rnd (maximum_net_benefit_col r * f)) r))).

Definition second_row (r : row) : outcome row :=
  let f := elect_fraction r in
  match idxmax (remove_col "Electricity" (net_benefit r)) with
  | None => Raises ValueError
  | Some (second_best, second_best_value) =>
      Returns
        (set_Households (scale_Households (rnd (1 - f)) r)
           (set_Elec_pop_calib (rnd (Elec_pop_calib r * rnd (1 - f)))
              (set_Calibrated_pop (rnd (Calibrated_pop r * rnd (1 - f)))
                 (set_maximum_net_benefit
                    (rnd (second_best_value * rnd (1 - f)))
                    (set_max_benefit_tech second_best r)))))
  end.

Definition maximum_net_benefit (s : OnSSTOVE) : outcome OnSSTOVE :=
  g <- traverse assign_max_benefit (gdf s) ;;
  g <- str_replace g ;;
  if Nat.ltb 0 (List.length (filter current_elect g)) then
    dff <- traverse second_row (filter current_elect g) ;;
    Returns (set_gdf (loc_set current_elect grid_row g ++ dff) s)
  else Returns (set_gdf g s).

(** [OnSSTOVE.final_elec].  [.sum()] adds the selected entries in index
    order, starting from 0, which is the order numpy adds a column of
    fewer than 8 entries in. *)
Definition step : Q := rnd (1 # 10000).

Definition loc_sum (mask : row -> bool) (col : row -> Q) (g : list row) : Q :=
  fold_left (fun acc r => rnd (acc + col r)) (filter mask g) 0.

Definition col_sum (col : row -> Q) (g : list row) : Q :=
  loc_sum (fun _ => true) col g.

Definition final_elec_guard (total_pop elec_rate : Q) (st : phaseB) : bool :=
  Qltb (rnd (total_pop * elec_rate)) (B_elec_pop st).

Definition final_elec_body (lo factor : Q) (st : phaseB) : phaseB :=
  let new_bool := in_band lo (B_i st) in
  let g1 := loc_set new_bool
              (fun r => set_Elec_pop_calib (rnd (Elec_pop_calib r - factor)) r)
              (B_gdf st) in
  let g2 := loc_set (fun r => Qltb (Elec_pop_calib r) 0)
              (set_Elec_pop_calib 0) g1 in
  let g3 := loc_set (fun r => Qeq_bool (Elec_pop_calib r) 0)
              (set_Current_elec 0) g2 in
  let elec_pop := loc_sum is_electrified Elec_pop_calib g3 in
  let n := List.length (filter (fun r => is_electrified r && new_bool r) g3) in
  mkPhaseB g3
           (if Nat.eqb n 0 then rnd (B_i st + step) else B_i st)
           elec_pop.

Fixpoint final_elec_while (fuel : nat) (total_pop elec_rate lo factor : Q)
    (st : phaseB) : option phaseB :=
  if final_elec_guard total_pop elec_rate st then
    match fuel with
    | O => None
    | S fuel' =>
        final_elec_while fuel' total_pop elec_rate lo factor
          (final_elec_body lo factor st)
    end
  else Some st.

Definition final_elec_init (s : OnSSTOVE) : phaseB :=
  let g := map (fun r => set_Elec_pop_calib (Calibrated_pop r) r) (gdf s) in
  mkPhaseB g (rnd (self_i s + step)) (loc_sum is_electrified Calibrated_pop g).

Definition final_elec_factor (s : OnSSTOVE) : Q :=
  let st0 := final_elec_init s in
  let total_pop := col_sum Calibrated_pop (B_gdf st0) in
  let diff := rnd (B_elec_pop st0 - rnd (total_pop * Elec_rate (specs s))) in
  rnd (diff / series_count (B_gdf st0)).

Definition final_elec (fuel : nat) (s : OnSSTOVE) : option OnSSTOVE :=
  let elec_rate := Elec_rate (specs s) in
  let st0 := final_elec_init s in
  let total_pop := col_sum Calibrated_pop (B_gdf st0) in
  match final_elec_while fuel total_pop elec_rate (self_i s)
          (final_elec_factor s) st0 with
  | None => None
  | Some st => Some (set_gdf (final_elec_finish (B_gdf st)) s)
  end.

End Rounded.

End binary64.

(** ** Inputs on which the rounding shows *)

(** A cell of 15 people and 3 households, 5 of the people served by the
    grid. *)
Definition third_served : row :=
  mkRow 15 0 0 0 0 0 (Fin 1) 1 5 0 (Some 3)
    [("Electricity"%string, 10); ("LPG"%string, 6)] "" 0.

(** Three cells with populations 0, 1 and 3. *)
Definition thirds : list row := [cell 0 NaN; cell 1 NaN; cell 3 NaN].

(** Three cells as [current_elec] leaves them after one pass: the first,
    of score 1, is marked, and [self.i] is the double [1 - 0.0001].  The
    populations are the doubles [1 + 2^-52], [1/2] and [1/2 - 2^-52]; they
    add up to 2, and the target rate is one half. *)
Definition marked (pop : Q) (w : fnum) (mark : Z) : row :=
  mkRow pop 0 0 0 0 0 w mark 0 0 None [] "" 0.

Definition threshold_left : Q :=
  Eval vm_compute in round64 (1 - round64 (1 # 10000)).

Definition stalled : OnSSTOVE :=
  mkOnSSTOVE
    [marked (4503599627370497 # 4503599627370496) (Fin 1) 1;
     marked (1 # 2) (Fin 0) 0;
     marked (2251799813685247 # 4503599627370496) (Fin 0) 0]
    [] (scenario (1 # 2)) 1000 threshold_left.

(** ** The doubles of the machine *)

(** Rocq's primitive floats are binary64 numbers, computed with by the
    processor.  [double] is the rational a finite one stands for; it
    serves to compare [round64] with the machine's arithmetic on the
    operations of the examples. *)
Definition double (f : float) : option Q :=
  match Prim2SF f with
  | S754_zero _ => Some 0
  | S754_finite s m e =>
      Some (Qred ((if s then -1 else 1) * inject_Z (Zpos m) * pow2 e))
  | _ => None
  end.

(** * Properties *)

(** ** Comparisons on [Q] *)

Lemma Qltb_lt (x y : Q) : Qltb x y = true <-> x < y.
Proof.
  unfold Qltb. rewrite negb_true_iff. split; intro H.
  - apply Qnot_le_lt. intro L. apply Qle_bool_iff in L. congruence.
  - destruct (Qle_bool y x) eqn:E; [|reflexivity].
    apply Qle_bool_iff in E. exfalso. apply (Qlt_not_le _ _ H E).
Qed.

Lemma Qltb_ge (x y : Q) : Qltb x y = false <-> y <= x.
Proof.
  unfold Qltb. rewrite negb_false_iff. apply Qle_bool_iff.
Qed.

Lemma Qeq_bool_false (x y : Q) : Qeq_bool x y = false <-> ~ x == y.
Proof.
  split.
  - intros E H. apply Qeq_bool_iff in H. congruence.
  - intro H. destruct (Qeq_bool x y) eqn:E; [|reflexivity].
    apply Qeq_bool_iff in E. contradiction.
Qed.

(** ** Rounding to double precision *)

Lemma pow2_pos (e : Z) : 0 < pow2 e.
Proof. apply Qpower_0_lt. reflexivity. Qed.

Lemma pow2_add (a b : Z) : pow2 (a + b) == pow2 a * pow2 b.
Proof. apply Qpower_plus. discriminate. Qed.

Lemma pow2_Z (n : Z) : (0 <= n)%Z -> pow2 n == inject_Z (2 ^ n).
Proof. intro H. unfold pow2. rewrite Zpower_Qpower by exact H. reflexivity. Qed.

Lemma exponent_le (x : Q) : 0 < x -> pow2 (exponent x) <= x.
Proof.
  intro Hx. unfold exponent. cbv zeta.
  destruct (Qle_bool _ x) eqn:E; [now apply Qle_bool_iff|].
  clear E. destruct x as [n d]. cbn [Qnum Qden].
  assert (Hn : (0 < n)%Z).
  { unfold Qlt in Hx. cbn in Hx. lia. }
  pose proof (Z.log2_nonneg n) as Ln.
  pose proof (Z.log2_nonneg (Zpos d)) as Ld.
  destruct (Z.log2_spec n Hn) as [N1 _].
  destruct (Z.log2_spec (Zpos d) eq_refl) as [_ D2].
  assert (A : pow2 (Z.log2 n) <= inject_Z n).
  { rewrite pow2_Z by exact Ln. rewrite <- Zle_Qle. exact N1. }
  assert (B : inject_Z (Zpos d) <= pow2 (Z.log2 (Zpos d) + 1)).
  { rewrite pow2_Z by lia. rewrite <- Zle_Qle. unfold Z.succ in D2. lia. }
  assert (C : pow2 (Z.log2 n)
              == pow2 (Z.log2 n - Z.log2 (Zpos d) - 1) * pow2 (Z.log2 (Zpos d) + 1)).
  { rewrite <- pow2_add.
    replace (Z.log2 n - Z.log2 (Z.pos d) - 1 + (Z.log2 (Z.pos d) + 1))%Z
      with (Z.log2 n) by lia. reflexivity. }
  pose proof (pow2_pos (Z.log2 n - Z.log2 (Zpos d) - 1)) as P.
  set (p := pow2 (Z.log2 n - Z.log2 (Zpos d) - 1)) in *.
  assert (Dp : 0 < inject_Z (Zpos d)) by reflexivity.
  rewrite (Qmake_Qdiv n d).
  apply Qle_shift_div_l; [exact Dp|].
  apply Qle_trans with (p * pow2 (Z.log2 (Zpos d) + 1)).
  - apply Qmult_le_l; assumption.
  - rewrite <- C. exact A.
Qed.

Lemma nearest_even_close (y : Q) :
  Qabs (inject_Z (nearest_even y) - y) <= 1 # 2.
Proof.
  unfold nearest_even. cbv zeta.
  pose proof (Qfloor_le y) as L. pose proof (Qlt_floor y) as U.
  rewrite inject_Z_plus in U. change (inject_Z 1) with 1 in U.
  apply Qabs_Qle_condition.
  destruct (Qltb (y - inject_Z (Qfloor y)) (1 # 2)) eqn:A.
  - apply Qltb_lt in A. split; lra.
  - apply Qltb_ge in A.
    destruct (Qltb (1 # 2) (y - inject_Z (Qfloor y))) eqn:B.
    + rewrite inject_Z_plus. change (inject_Z 1) with 1. split; lra.
    + apply Qltb_ge in B. destruct (Z.even (Qfloor y)).
      * split; lra.
      * rewrite inject_Z_plus. change (inject_Z 1) with 1. split; lra.
Qed.

Lemma round64_accurate : accurate u64 round64.
Proof.
  intro x. unfold round64.
  destruct (Qeq_bool x 0) eqn:Z.
  - apply Qeq_bool_iff in Z. rewrite Z. apply Qmult_le_0_compat.
    + apply Qlt_le_weak, pow2_pos.
    + apply Qabs_nonneg.
  - cbv zeta. rewrite Qred_correct.
    assert (Hx : 0 < Qabs x).
    { destruct (Qlt_le_dec 0 (Qabs x)) as [|C]; [assumption|].
      exfalso. pose proof (Qabs_nonneg x).
      assert (E : Qabs x == 0) by lra.
      assert (x == 0).
      { revert E. apply Qabs_case; intros; lra. }
      apply Qeq_bool_iff in H0. congruence. }
    pose proof (exponent_le Hx) as K.
    set (k := exponent (Qabs x)) in *.
    pose proof (pow2_pos (k - 52)) as P.
    set (p := pow2 (k - 52)) in *.
    pose proof (nearest_even_close (x / p)) as N.
    set (m := inject_Z (nearest_even (x / p))) in *.
    assert (E : m * p - x == (m - x / p) * p) by (field; lra).
    rewrite E, Qabs_Qmult, (Qabs_pos p) by lra.
    assert (Ek : pow2 k == p * pow2 52).
    { unfold p. rewrite <- pow2_add. replace (k - 52 + 52)%Z with k by lia.
      reflexivity. }
    assert (E52 : pow2 52 == 4503599627370496) by reflexivity.
    assert (E53 : u64 == 1 # 9007199254740992) by reflexivity.
    rewrite E53. rewrite Ek, E52 in K.
    apply Qle_trans with ((1 # 2) * p).
    + apply Qmult_le_compat_r; lra.
    + lra.
Qed.

Lemma pow2_le (a b : Z) : (a <= b)%Z -> pow2 a <= pow2 b.
Proof. intro H. apply Qpower_le_compat_l; [exact H | discriminate]. Qed.

Lemma pow2_lt_inv (a b : Z) : pow2 a < pow2 b -> (a < b)%Z.
Proof. intro H. eapply Qpower_lt_compat_l_inv; [exact H | reflexivity]. Qed.

Lemma exponent_lt (x : Q) : 0 < x -> x < pow2 (exponent x + 1).
Proof.
  intro Hx. unfold exponent. cbv zeta.
  destruct (Qle_bool _ x) eqn:E.
  - clear E. destruct x as [n d]. cbn [Qnum Qden].
    assert (Hn : (0 < n)%Z).
    { unfold Qlt in Hx. cbn in Hx. lia. }
    pose proof (Z.log2_nonneg n) as Ln.
    pose proof (Z.log2_nonneg (Zpos d)) as Ld.
    destruct (Z.log2_spec n Hn) as [_ N2].
    destruct (Z.log2_spec (Zpos d) eq_refl) as [D1 _].
    assert (A : inject_Z n < pow2 (Z.log2 n + 1)).
    { rewrite pow2_Z by lia. rewrite <- Zlt_Qlt. exact N2. }
    assert (B : pow2 (Z.log2 (Zpos d)) <= inject_Z (Zpos d)).
    { rewrite pow2_Z by lia. rewrite <- Zle_Qle. exact D1. }
    assert (C : pow2 (Z.log2 n + 1)
                == pow2 (Z.log2 n - Z.log2 (Zpos d) + 1) * pow2 (Z.log2 (Zpos d))).
    { rewrite <- pow2_add.
      replace (Z.log2 n - Z.log2 (Z.pos d) + 1 + Z.log2 (Z.pos d))%Z
        with (Z.log2 n + 1)%Z by lia. reflexivity. }
    pose proof (pow2_pos (Z.log2 n - Z.log2 (Zpos d) + 1)) as P.
    set (p := pow2 (Z.log2 n - Z.log2 (Zpos d) + 1)) in *.
    assert (Dp : 0 < inject_Z (Zpos d)) by reflexivity.
    rewrite (Qmake_Qdiv n d).
    apply Qlt_shift_div_r; [exact Dp|].
    apply Qlt_le_trans with (p * pow2 (Z.log2 (Zpos d))).
    + rewrite <- C. exact A.
    + apply Qmult_le_l; assumption.
  - replace (Z.log2 (Qnum x) - Z.log2 (Z.pos (Qden x)) - 1 + 1)%Z
      with (Z.log2 (Qnum x) - Z.log2 (Z.pos (Qden x)))%Z by lia.
    apply Qnot_le_lt. intro C. apply Qle_bool_iff in C. congruence.
Qed.

Lemma exponent_monotone (x y : Q) :
  0 < x -> x <= y -> (exponent x <= exponent y)%Z.
Proof.
  intros Hx Hxy.
  pose proof (exponent_le Hx) as L.
  assert (Hy : 0 < y) by lra.
  pose proof (exponent_lt Hy) as U.
  assert (H : pow2 (exponent x) < pow2 (exponent y + 1)) by lra.
  apply pow2_lt_inv in H. lia.
Qed.

Lemma nearest_even_floor (y : Q) :
  (Qfloor y <= nearest_even y <= Qfloor y + 1)%Z.
Proof.
  unfold nearest_even. cbv zeta.
  destruct (Qltb _ _); [lia|]. destruct (Qltb _ _); [lia|].
  destruct (Z.even _); lia.
Qed.

Lemma nearest_even_monotone (a b : Q) :
  a <= b -> (nearest_even a <= nearest_even b)%Z.
Proof.
  intro H. pose proof (Qfloor_resp_le _ _ H) as F.
  destruct (Z.eq_dec (Qfloor a) (Qfloor b)) as [E|N].
  - unfold nearest_even. cbv zeta. rewrite E.
    destruct (Qltb (a - inject_Z (Qfloor b)) (1 # 2)) eqn:A1.
    + destruct (Qltb (b - _) _); [lia|]. destruct (Qltb _ (b - _)); [lia|].
      destruct (Z.even _); lia.
    + apply Qltb_ge in A1.
      destruct (Qltb (b - inject_Z (Qfloor b)) (1 # 2)) eqn:B1.
      { apply Qltb_lt in B1. lra. }
      destruct (Qltb (1 # 2) (a - inject_Z (Qfloor b))) eqn:A2.
      * apply Qltb_lt in A2.
        assert (B2 : Qltb (1 # 2) (b - inject_Z (Qfloor b)) = true)
          by (apply Qltb_lt; lra).
        rewrite B2. lia.
      * destruct (Qltb (1 # 2) (b - inject_Z (Qfloor b))); [|lia].
        destruct (Z.even _); lia.
  - pose proof (nearest_even_floor a). pose proof (nearest_even_floor b). lia.
Qed.

Lemma nearest_even_Z (n : Z) : nearest_even (inject_Z n) = n.
Proof.
  unfold nearest_even. cbv zeta. rewrite Qfloor_Z.
  assert (E : Qltb (inject_Z n - inject_Z n) (1 # 2) = true)
    by (apply Qltb_lt; lra).
  rewrite E. reflexivity.
Qed.

(** The significand of a positive number lies between [2^52] and [2^53]. *)
Lemma significand_bounds (x : Q) :
  0 < x ->
  (2 ^ 52 <= nearest_even (x / pow2 (exponent x - 52)) <= 2 ^ 53)%Z.
Proof.
  intro Hx. pose proof (exponent_le Hx) as L. pose proof (exponent_lt Hx) as U.
  set (k := exponent x) in *.
  pose proof (pow2_pos (k - 52)) as P.
  assert (Ek : pow2 k == pow2 (k - 52) * inject_Z (2 ^ 52)).
  { rewrite <- (@pow2_Z 52) by lia. rewrite <- pow2_add.
    replace (k - 52 + 52)%Z with k by lia. reflexivity. }
  assert (Ek1 : pow2 (k + 1) == pow2 (k - 52) * inject_Z (2 ^ 53)).
  { rewrite <- (@pow2_Z 53) by lia. rewrite <- pow2_add.
    replace (k - 52 + 53)%Z with (k + 1)%Z by lia. reflexivity. }
  set (p := pow2 (k - 52)) in *.
  assert (A : inject_Z (2 ^ 52) <= x / p).
  { apply Qle_shift_div_l; [exact P|]. rewrite Qmult_comm, <- Ek. exact L. }
  assert (B : x / p <= inject_Z (2 ^ 53)).
  { apply Qle_shift_div_r; [exact P|]. rewrite Qmult_comm, <- Ek1. lra. }
  apply nearest_even_monotone in A. apply nearest_even_monotone in B.
  rewrite nearest_even_Z in A, B. lia.
Qed.

Lemma Qabs_of_pos (x : Q) : 0 < x -> Qabs x = x.
Proof.
  destruct x as [[|n|n] d]; intro H; try reflexivity;
    unfold Qlt in H; cbn in H; lia.
Qed.

Lemma round64_pos (x : Q) :
  0 < x ->
  round64 x == inject_Z (nearest_even (x / pow2 (exponent x - 52)))
               * pow2 (exponent x - 52).
Proof.
  intro Hx. unfold round64.
  assert (Z : Qeq_bool x 0 = false).
  { destruct (Qeq_bool x 0) eqn:E; [|reflexivity].
    apply Qeq_bool_iff in E. lra. }
  rewrite Z. cbv zeta. rewrite Qred_correct, (Qabs_of_pos Hx). reflexivity.
Qed.

Lemma round64_monotone_pos (x y : Q) :
  0 < x -> x <= y -> round64 x <= round64 y.
Proof.
  intros Hx Hxy. assert (Hy : 0 < y) by lra.
  rewrite (round64_pos Hx), (round64_pos Hy).
  pose proof (exponent_monotone Hx Hxy) as K.
  pose proof (significand_bounds Hx) as [_ Ux].
  pose proof (significand_bounds Hy) as [Ly _].
  set (kx := exponent x) in *. set (ky := exponent y) in *.
  pose proof (pow2_pos (kx - 52)) as Px. pose proof (pow2_pos (ky - 52)) as Py.
  destruct (Z.eq_dec kx ky) as [E|N].
  - rewrite <- E in *. apply Qmult_le_compat_r; [|lra].
    rewrite <- Zle_Qle. apply nearest_even_monotone.
    apply Qmult_le_compat_r; [exact Hxy|].
    apply Qlt_le_weak, Qinv_lt_0_compat. exact Px.
  - apply Qle_trans with (pow2 (kx + 1)).
    + assert (E1 : pow2 (kx + 1) == inject_Z (2 ^ 53) * pow2 (kx - 52)).
      { rewrite <- (@pow2_Z 53) by lia. rewrite <- pow2_add.
        replace (53 + (kx - 52))%Z with (kx + 1)%Z by lia. reflexivity. }
      rewrite E1. apply Qmult_le_compat_r; [|lra].
      rewrite <- Zle_Qle. exact Ux.
    + apply Qle_trans with (pow2 ky); [apply pow2_le; lia|].
      assert (E2 : pow2 ky == inject_Z (2 ^ 52) * pow2 (ky - 52)).
      { rewrite <- (@pow2_Z 52) by lia. rewrite <- pow2_add.
        replace (52 + (ky - 52))%Z with ky by lia. reflexivity. }
      rewrite E2. apply Qmult_le_compat_r; [|lra].
      rewrite <- Zle_Qle. exact Ly.
Qed.

Lemma Qltb_comp (x x' y y' : Q) : x == x' -> y == y' -> Qltb x y = Qltb x' y'.
Proof.
  intros Ex Ey. destruct (Qltb x' y') eqn:E.
  - apply Qltb_lt in E. apply Qltb_lt. lra.
  - apply Qltb_ge in E. apply Qltb_ge. lra.
Qed.

Lemma nearest_even_comp (a b : Q) : a == b -> nearest_even a = nearest_even b.
Proof.
  intro H. unfold nearest_even. cbv zeta.
  assert (F : Qfloor a = Qfloor b) by (rewrite H; reflexivity).
  rewrite F.
  rewrite (@Qltb_comp (a - inject_Z (Qfloor b)) (b - inject_Z (Qfloor b))
             (1 # 2) (1 # 2)) by lra.
  rewrite (@Qltb_comp (1 # 2) (1 # 2) (a - inject_Z (Qfloor b))
             (b - inject_Z (Qfloor b))) by lra.
  reflexivity.
Qed.

Lemma Qfloor_unique (m : Z) (z : Q) :
  inject_Z m <= z -> z < inject_Z m + 1 -> Qfloor z = m.
Proof.
  intros L U. pose proof (Qfloor_le z) as L'. pose proof (Qlt_floor z) as U'.
  rewrite inject_Z_plus in U'. change (inject_Z 1) with 1 in U'.
  assert (A : inject_Z (Qfloor z) < inject_Z (m + 1)).
  { rewrite inject_Z_plus. change (inject_Z 1) with 1. lra. }
  assert (B : inject_Z m < inject_Z (Qfloor z + 1)).
  { rewrite inject_Z_plus. change (inject_Z 1) with 1. lra. }
  rewrite <- Zlt_Qlt in A, B. lia.
Qed.

Lemma inject_Z_pred_opp (n : Z) : inject_Z (- n - 1) == - inject_Z n - 1.
Proof.
  unfold Z.sub. rewrite inject_Z_plus, inject_Z_opp.
  change (inject_Z (- (1))) with (- (1)). ring.
Qed.

Lemma nearest_even_opp (y : Q) : nearest_even (- y) = (- nearest_even y)%Z.
Proof.
  pose proof (Qfloor_le y) as L. pose proof (Qlt_floor y) as U.
  rewrite inject_Z_plus in U. change (inject_Z 1) with 1 in U.
  destruct (Qeq_dec y (inject_Z (Qfloor y))) as [E|N].
  - assert (E' : - y == inject_Z (- Qfloor y))
      by (rewrite inject_Z_opp; lra).
    rewrite (nearest_even_comp E'), (nearest_even_comp E), !nearest_even_Z.
    reflexivity.
  - pose proof (inject_Z_pred_opp (Qfloor y)) as I.
    assert (F : Qfloor (- y) = (- Qfloor y - 1)%Z).
    { apply Qfloor_unique.
      - rewrite I. lra.
      - rewrite I.
        destruct (Qlt_le_dec (inject_Z (Qfloor y)) y) as [C|C]; [lra|].
        exfalso. apply N. lra. }
    unfold nearest_even. cbv zeta. rewrite F.
    set (n := Qfloor y) in *.
    destruct (Qltb (- y - inject_Z (- n - 1)) (1 # 2)) eqn:A1.
    + apply Qltb_lt in A1. rewrite I in A1.
      assert (B1 : Qltb (y - inject_Z n) (1 # 2) = false)
        by (apply Qltb_ge; lra).
      assert (B2 : Qltb (1 # 2) (y - inject_Z n) = true)
        by (apply Qltb_lt; lra).
      rewrite B1, B2. lia.
    + apply Qltb_ge in A1. rewrite I in A1.
      destruct (Qltb (1 # 2) (- y - inject_Z (- n - 1))) eqn:A2.
      * apply Qltb_lt in A2. rewrite I in A2.
        assert (B1 : Qltb (y - inject_Z n) (1 # 2) = true)
          by (apply Qltb_lt; lra).
        rewrite B1. lia.
      * apply Qltb_ge in A2. rewrite I in A2.
        assert (B1 : Qltb (y - inject_Z n) (1 # 2) = false)
          by (apply Qltb_ge; lra).
        assert (B2 : Qltb (1 # 2) (y - inject_Z n) = false)
          by (apply Qltb_ge; lra).
        rewrite B1, B2.
        replace (- n - 1)%Z with (- (n + 1))%Z by lia.
        rewrite Z.even_opp, Z.even_add. cbn [Z.even].
        destruct (Z.even n); cbn; lia.
Qed.

Lemma Qabs_opp_eq (x : Q) : Qabs (- x) = Qabs x.
Proof. destruct x as [n d]. cbn. now rewrite Z.abs_opp. Qed.

Lemma round64_opp (x : Q) : round64 (- x) == - round64 x.
Proof.
  unfold round64. rewrite Qabs_opp_eq.
  assert (Z : Qeq_bool (- x) 0 = Qeq_bool x 0).
  { destruct (Qeq_bool x 0) eqn:E.
    - apply Qeq_bool_iff in E. apply Qeq_bool_iff. lra.
    - destruct (Qeq_bool (- x) 0) eqn:E'; [|reflexivity].
      apply Qeq_bool_iff in E'.
      assert (C : Qeq_bool x 0 = true) by (apply Qeq_bool_iff; lra).
      congruence. }
  rewrite Z. destruct (Qeq_bool x 0); [reflexivity|].
  cbv zeta. rewrite !Qred_correct.
  set (p := pow2 (exponent (Qabs x) - 52)).
  pose proof (pow2_pos (exponent (Qabs x) - 52)) as P. fold p in P.
  assert (E : - x / p == - (x / p)) by (field; lra).
  rewrite (nearest_even_comp E), nearest_even_opp, inject_Z_opp. ring.
Qed.

Lemma round64_nonneg (x : Q) : 0 <= x -> 0 <= round64 x.
Proof.
  intro H. destruct (Qeq_dec x 0) as [E|N].
  - unfold round64. apply Qeq_bool_iff in E. rewrite E. apply Qle_refl.
  - assert (Hx : 0 < x).
    { destruct (Qlt_le_dec 0 x) as [|C]; [assumption|]. exfalso. apply N. lra. }
    rewrite (round64_pos Hx).
    pose proof (significand_bounds Hx) as [L _].
    apply Qmult_le_0_compat.
    + change 0 with (inject_Z 0). rewrite <- Zle_Qle. lia.
    + apply Qlt_le_weak, pow2_pos.
Qed.

Lemma round64_monotone : monotone round64.
Proof.
  intros x y H.
  destruct (Qlt_le_dec 0 x) as [Px|Nx]; [now apply round64_monotone_pos|].
  assert (Rx : round64 x <= 0).
  { pose proof (@round64_nonneg (- x)) as R. rewrite round64_opp in R.
    assert (0 <= - x) by lra. specialize (R H0). lra. }
  destruct (Qlt_le_dec y 0) as [Ny|Py].
  - assert (A : round64 (- y) <= round64 (- x))
      by (apply round64_monotone_pos; lra).
    rewrite !round64_opp in A. lra.
  - pose proof (round64_nonneg Py). lra.
Qed.

Lemma round64_1 : round64 1 == 1.
Proof. reflexivity. Qed.

(** [round64] gives what the machine gives on the operations of the
    examples below: the split of a cell of 15 people with 5 served, the
    normalisation of 1 in the column 0, 1, 3, and the pass of
    [final_elec] on the table [stalled]. *)
Lemma round64_on_the_examples :
  double (5 / 15) = Some (round64 (5 / 15))
  /\ double (1 - 5 / 15) = Some (round64 (1 - round64 (5 / 15)))
  /\ double (15 * (5 / 15)) = Some (round64 (15 * round64 (5 / 15)))
  /\ double (15 * (1 - 5 / 15))
     = Some (round64 (15 * round64 (1 - round64 (5 / 15))))
  /\ double ((1 - 0) / (3 - 0)) = Some (round64 (round64 (1 - 0) / round64 (3 - 0)))
  /\ double ((3 - 1) / (3 - 0)) = Some (round64 (round64 (3 - 1) / round64 (3 - 0)))
  /\ double (1 - (1 - 0) / (3 - 0))
     = Some (round64 (1 - round64 (round64 (1 - 0) / round64 (3 - 0))))
  /\ double (1 - 1 / 10000) = Some threshold_left
  /\ double (1 - 1 / 10000 + 1 / 10000) = Some 1
  /\ double ((0x1.0000000000001p0 - 2 * 0x1p-1) / 3)
     = Some (binary64.final_elec_factor round64 stalled)
  /\ double (0x1.0000000000001p0 - (0x1.0000000000001p0 - 2 * 0x1p-1) / 3)
     = Some (4503599627370497 # 4503599627370496).
Proof.
  vm_compute. repeat split; reflexivity.
Qed.

(** ** The error of a rounded computation *)

Section Errors.

Variable rnd : Q -> Q.
Variable u : Q.
Hypothesis rnd_accurate : accurate u rnd.
Hypothesis u_nonneg : 0 <= u.

(** The rounded value of a number that is not negative. *)
Lemma rnd_near_nonneg (x : Q) :
  0 <= x -> x - u * x <= rnd x /\ rnd x <= x + u * x.
Proof.
  intro H. pose proof (rnd_accurate x) as A.
  rewrite (Qabs_pos x H) in A. apply Qabs_Qle_condition in A.
  destruct A. split; lra.
Qed.

(** The rounded value of any number, in terms of its absolute value. *)
Lemma rnd_near (x : Q) :
  x - u * Qabs x <= rnd x /\ rnd x <= x + u * Qabs x.
Proof.
  pose proof (rnd_accurate x) as A. apply Qabs_Qle_condition in A.
  destruct A. split; lra.
Qed.

Lemma rnd_0 : rnd 0 == 0.
Proof.
  destruct (@rnd_near_nonneg 0) as [A B]; [apply Qle_refl|]. lra.
Qed.

Lemma split_error (x E P : Q) :
  u <= 1 # 2 -> 0 <= E -> E < P ->
  Qabs (rnd (x * rnd (E / P)) + rnd (x * rnd (1 - rnd (E / P))) - x)
  <= 4 * u * Qabs x.
Proof.
  intros U E0 EP.
  assert (P0 : 0 < P) by lra.
  assert (Q0 : 0 <= E / P) by (apply Qle_shift_div_l; lra).
  assert (Q1 : E / P <= 1) by (apply Qle_shift_div_r; lra).
  set (q := E / P) in *.
  destruct (rnd_near_nonneg Q0) as [F1 F2].
  set (f := rnd q) in *.
  assert (Ff : 0 <= f) by nra.
  assert (Ff' : f <= 1 + u) by nra.
  destruct (rnd_near (1 - f)) as [G1 G2].
  assert (A1 : Qabs (1 - f) <= 1) by (apply Qabs_Qle_condition; split; lra).
  pose proof (Qabs_nonneg (1 - f)) as A0.
  set (g := rnd (1 - f)) in *.
  assert (Gg : Qabs g <= 1 + u).
  { pose proof A1 as A2. apply Qabs_Qle_condition in A2. destruct A2.
    apply Qabs_Qle_condition. split; nra. }
  destruct (rnd_near (x * f)) as [a1 a2].
  destruct (rnd_near (x * g)) as [b1 b2].
  rewrite Qabs_Qmult in a1, a2, b1, b2.
  rewrite (Qabs_pos f Ff) in a1, a2.
  pose proof (Qabs_nonneg x) as X0. pose proof (Qabs_nonneg g) as G0.
  set (X := Qabs x) in *. set (G := Qabs g) in *. set (D := Qabs (1 - f)) in *.
  set (a := rnd (x * f)) in *. set (b := rnd (x * g)) in *.
  assert (Xx : - X <= x /\ x <= X).
  { unfold X. split; [|apply Qle_Qabs].
    pose proof (Qle_Qabs (- x)) as T. rewrite Qabs_opp in T. lra. }
  destruct Xx as [Xl Xu].
  apply Qabs_Qle_condition.
  assert (UX : 0 <= u * X) by (apply Qmult_le_0_compat; assumption).
  assert (T1 : 0 <= u * X * (1 + u - f))
    by (apply Qmult_le_0_compat; lra).
  assert (T2 : 0 <= u * X * (1 + u - G))
    by (apply Qmult_le_0_compat; lra).
  assert (T3 : 0 <= u * X * ((1 # 2) - u))
    by (apply Qmult_le_0_compat; lra).
  assert (T4 : 0 <= u * (1 - D)) by (apply Qmult_le_0_compat; lra).
  assert (T5 : - u <= g - (1 - f) /\ g - (1 - f) <= u) by (split; lra).
  destruct T5 as [T5 T6].
  assert (T7 : 0 <= (X - x) * (u - (g - (1 - f))))
    by (apply Qmult_le_0_compat; lra).
  assert (T8 : 0 <= (X + x) * (u - (g - (1 - f))))
    by (apply Qmult_le_0_compat; lra).
  assert (T9 : 0 <= (X - x) * (u + (g - (1 - f))))
    by (apply Qmult_le_0_compat; lra).
  assert (T10 : 0 <= (X + x) * (u + (g - (1 - f))))
    by (apply Qmult_le_0_compat; lra).
  split; lra.
Qed.

Lemma complement_error (a0 b0 D0 : Q) :
  u <= 1 # 5 -> 0 <= a0 -> 0 <= b0 -> a0 + b0 == D0 -> 0 < D0 ->
  0 < rnd D0
  /\ 0 <= rnd (rnd a0 / rnd D0)
  /\ 0 <= rnd (rnd b0 / rnd D0)
  /\ Qabs (rnd (rnd b0 / rnd D0) - (1 - rnd (rnd a0 / rnd D0))) <= 4 * u.
Proof.
  intros U A0 B0 E D0p.
  destruct (@rnd_near_nonneg D0) as [D1 D2]; [lra|].
  destruct (rnd_near_nonneg A0) as [a1 a2].
  destruct (rnd_near_nonneg B0) as [b1 b2].
  set (D := rnd D0) in *. set (a := rnd a0) in *. set (b := rnd b0) in *.
  assert (Dp : 0 < D) by nra.
  assert (Ap : 0 <= a) by nra.
  assert (Bp : 0 <= b) by nra.
  assert (Pp : 0 <= a / D) by (apply Qle_shift_div_l; lra).
  assert (Qp : 0 <= b / D) by (apply Qle_shift_div_l; lra).
  assert (Ep : a / D * D == a) by (field; lra).
  assert (Eq : b / D * D == b) by (field; lra).
  destruct (rnd_near_nonneg Pp) as [d1 d2].
  destruct (rnd_near_nonneg Qp) as [v1 v2].
  set (p := a / D) in *. set (q := b / D) in *.
  set (d := rnd p) in *. set (v := rnd q) in *.
  assert (Dn : 0 <= d) by nra.
  assert (Vn : 0 <= v) by nra.
  split; [exact Dp|]. split; [exact Dn|]. split; [exact Vn|].
  set (S := p + q).
  assert (Eu : u * a0 + u * b0 == u * D0) by (rewrite <- E; ring).
  assert (S0 : 0 <= S) by (unfold S; lra).
  assert (SD : S * D == a + b) by (unfold S; lra).
  assert (H1 : S * (1 - u) <= 1 + u).
  { apply (proj1 (Qmult_le_r _ _ D0 D0p)).
    assert (T : 0 <= S * (D - (1 - u) * D0))
      by (apply Qmult_le_0_compat; lra).
    lra. }
  assert (H2 : 1 - u <= S * (1 + u)).
  { apply (proj1 (Qmult_le_r _ _ D0 D0p)).
    assert (T : 0 <= S * ((1 + u) * D0 - D))
      by (apply Qmult_le_0_compat; lra).
    lra. }
  assert (H3 : (1 + u) * S <= 1 + 4 * u).
  { apply (proj1 (Qmult_le_r _ _ (1 - u) ltac:(lra))).
    assert (T : 0 <= u * ((1 # 5) - u)) by (apply Qmult_le_0_compat; lra).
    assert (T' : 0 <= (1 + u) * (1 + u - S * (1 - u)))
      by (apply Qmult_le_0_compat; lra).
    lra. }
  assert (H4 : 1 - 4 * u <= (1 - u) * S).
  { apply (proj1 (Qmult_le_r _ _ (1 + u) ltac:(lra))).
    assert (T : 0 <= u * u) by (apply Qmult_le_0_compat; lra).
    assert (T' : 0 <= (1 - u) * (S * (1 + u) - (1 - u)))
      by (apply Qmult_le_0_compat; lra).
    lra. }
  apply Qabs_Qle_condition. unfold S in *.
  assert (T1 : 0 <= u * p) by (apply Qmult_le_0_compat; lra).
  assert (T2 : 0 <= u * q) by (apply Qmult_le_0_compat; lra).
  split; lra.
Qed.

Hypothesis rnd_monotone : monotone rnd.
Hypothesis rnd_1 : rnd 1 == 1.

Lemma quotient_in_unit_interval (a0 D0 : Q) :
  u < 1 -> 0 <= a0 -> a0 <= D0 -> 0 < D0 ->
  0 <= rnd (rnd a0 / rnd D0) /\ rnd (rnd a0 / rnd D0) <= 1.
Proof.
  intros U A0 AD D0p.
  destruct (@rnd_near_nonneg D0) as [D1 D2]; [lra|].
  destruct (rnd_near_nonneg A0) as [a1 a2].
  pose proof (rnd_monotone AD) as M.
  set (D := rnd D0) in *. set (a := rnd a0) in *.
  assert (Dp : 0 < D) by nra.
  assert (Ap : 0 <= a) by nra.
  assert (Pp : 0 <= a / D) by (apply Qle_shift_div_l; lra).
  assert (P1 : a / D <= 1) by (apply Qle_shift_div_r; lra).
  pose proof (rnd_monotone Pp) as L. pose proof (rnd_monotone P1) as R.
  rewrite rnd_0 in L. rewrite rnd_1 in R. split; assumption.
Qed.

End Errors.

(** ** Normaliser *)

Section Normaliser.

Lemma fold_Qmax_ge (t : list Q) (h : Q) :
  h <= fold_left Qmax t h /\ forall x, In x t -> x <= fold_left Qmax t h.
Proof.
  revert h. induction t as [|a t IH]; intro h; simpl.
  - split; [apply Qle_refl | intros x []].
  - destruct (IH (Qmax h a)) as [H1 H2]. split.
    + eapply Qle_trans; [apply Q.le_max_l | exact H1].
    + intros x [<- | Hx]; [|auto].
      eapply Qle_trans; [apply Q.le_max_r | exact H1].
Qed.

Lemma fold_Qmin_le (t : list Q) (h : Q) :
  fold_left Qmin t h <= h /\ forall x, In x t -> fold_left Qmin t h <= x.
Proof.
  revert h. induction t as [|a t IH]; intro h; simpl.
  - split; [apply Qle_refl | intros x []].
  - destruct (IH (Qmin h a)) as [H1 H2]. split.
    + eapply Qle_trans; [exact H1 | apply Q.le_min_l].
    + intros x [<- | Hx]; [|auto].
      eapply Qle_trans; [exact H1 | apply Q.le_min_r].
Qed.

(** On a column with an entry, the extrema are finite and bound it. *)
Lemma series_bounds (s : list Q) (x : Q) :
  In x s ->
  exists mx mn, series_max s = Fin mx /\ series_min s = Fin mn
                /\ mn <= x /\ x <= mx.
Proof.
  destruct s as [|h t]; [intros []|]. intro Hx. simpl.
  exists (fold_left Qmax t h), (fold_left Qmin t h).
  destruct (fold_Qmax_ge t h) as [M1 M2].
  destruct (fold_Qmin_le t h) as [N1 N2].
  repeat split; destruct Hx as [<- | Hx]; auto.
Qed.

(** One entry of a column whose range is not degenerate. *)
Lemma normalized_entry (s : list Q) (x : Q) :
  zero_range s = false -> In x s ->
  exists d,
    fdiv (fsub (Fin x) (series_min s)) (fsub (series_max s) (series_min s))
      = Fin d
    /\ exists v,
    fdiv (fsub (series_max s) (Fin x)) (fsub (series_max s) (series_min s))
      = Fin v
    /\ 0 <= d /\ d <= 1 /\ 0 <= v /\ v <= 1 /\ v == 1 - d.
Proof.
  intros Hz Hx. destruct (series_bounds s x Hx) as (mx & mn & Emx & Emn & L & U).
  unfold zero_range in Hz. rewrite Emx, Emn in *. simpl in *.
  rewrite Hz. apply Qeq_bool_false in Hz.
  assert (P : 0 < mx + - mn).
  { destruct (Qlt_le_dec 0 (mx + - mn)) as [|C]; [assumption|].
    exfalso. apply Hz. lra. }
  eexists. split; [reflexivity|]. eexists. split; [reflexivity|].
  repeat split.
  - apply Qle_shift_div_l; [exact P | lra].
  - apply Qle_shift_div_r; [exact P | lra].
  - apply Qle_shift_div_l; [exact P | lra].
  - apply Qle_shift_div_r; [exact P | lra].
  - field. lra.
Qed.

(** One entry of a column whose range is degenerate: [0/0]. *)
Lemma degenerate_entry (s : list Q) (x : Q) :
  zero_range s = true -> In x s ->
  fdiv (fsub (Fin x) (series_min s)) (fsub (series_max s) (series_min s)) = NaN
  /\ fdiv (fsub (series_max s) (Fin x)) (fsub (series_max s) (series_min s)) = NaN.
Proof.
  intros Hz Hx. destruct (series_bounds s x Hx) as (mx & mn & Emx & Emn & L & U).
  unfold zero_range in Hz. rewrite Emx, Emn in *. simpl in *.
  rewrite Hz. apply Qeq_bool_iff in Hz.
  assert (E1 : Qeq_bool (x + - mn) 0 = true) by (apply Qeq_bool_iff; lra).
  assert (E2 : Qeq_bool (mx + - x) 0 = true) by (apply Qeq_bool_iff; lra).
  rewrite E1, E2. split; reflexivity.
Qed.

End Normaliser.

Lemma Forall2_map_same {A B C : Type} (R : B -> C -> Prop)
    (f : A -> B) (h : A -> C) (l : list A) :
  (forall x, In x l -> R (f x) (h x)) -> Forall2 R (map f l) (map h l).
Proof.
  induction l as [|a l IH]; intro H; simpl; constructor.
  - apply H. now left.
  - apply IH. intros x Hx. apply H. now right.
Qed.

Lemma binary64_normalized_entry (rnd : Q -> Q) (u : Q) (s : list Q) (x : Q) :
  accurate u rnd -> monotone rnd -> rnd 1 == 1 -> 0 <= u -> u <= 1 # 5 ->
  zero_range s = false -> In x s ->
  exists d v,
    binary64.fround rnd
      (fdiv (binary64.fround rnd (fsub (Fin x) (series_min s)))
            (binary64.fround rnd (fsub (series_max s) (series_min s))))
    = Fin d
    /\ binary64.fround rnd
         (fdiv (binary64.fround rnd (fsub (series_max s) (Fin x)))
               (binary64.fround rnd (fsub (series_max s) (series_min s))))
       = Fin v
    /\ 0 <= d /\ d <= 1 /\ 0 <= v /\ v <= 1
    /\ Qabs (v - (1 - d)) <= 4 * u.
Proof.
  intros A M R1 U0 U5 Hz Hx.
  destruct (series_bounds s x Hx) as (mx & mn & Emx & Emn & L & U).
  unfold zero_range in Hz. rewrite Emx, Emn in *.
  cbn [fsub fneg fadd binary64.fround] in *.
  apply Qeq_bool_false in Hz.
  assert (P : 0 < mx + - mn).
  { destruct (Qlt_le_dec 0 (mx + - mn)) as [|C]; [assumption|].
    exfalso. apply Hz. lra. }
  destruct (@complement_error rnd u A U0 (x + - mn) (mx + - x) (mx + - mn))
    as (Dp & _ & _ & C); try lra.
  destruct (@quotient_in_unit_interval rnd u A M R1 (x + - mn) (mx + - mn))
    as [d0 d1]; try lra.
  destruct (@quotient_in_unit_interval rnd u A M R1 (mx + - x) (mx + - mn))
    as [v0 v1]; try lra.
  assert (Z : Qeq_bool (rnd (mx + - mn)) 0 = false)
    by (apply Qeq_bool_false; lra).
  cbn [fdiv]. rewrite Z. cbn [binary64.fround].
  eexists. eexists. split; [reflexivity|]. split; [reflexivity|].
  repeat split; assumption.
Qed.

(** C8, as the code behaves.  On a column whose maximum differs from its
    minimum, [normalized] returns, for both settings of [inverse], one
    finite value per row, and each value lies in [0,1].  The inverse
    value is one minus the direct value of the same row up to the
    rounding of the operations: when each operation has a relative error
    of at most [u], the two differ by at most [4 * u], so they are equal
    in exact arithmetic and within [4 * 2^-53] in double precision. *)
Theorem normalized_range_and_complement
    (rnd : Q -> Q) (u : Q) (g : list row) (column : row -> Q) :
  accurate u rnd -> monotone rnd -> rnd 1 == 1 -> 0 <= u -> u <= 1 # 5 ->
  zero_range (map column g) = false ->
  exists direct inv,
    binary64.normalized rnd g column false = Returns direct
    /\ binary64.normalized rnd g column true = Returns inv
    /\ List.length direct = List.length g
    /\ Forall2 (fun a b => exists d v,
                   a = Fin d /\ b = Fin v
                   /\ 0 <= d /\ d <= 1 /\ 0 <= v /\ v <= 1
                   /\ Qabs (v - (1 - d)) <= 4 * u)
         direct inv.
Proof.
  intros A M R1 U0 U5 Hz. unfold binary64.normalized. cbv zeta.
  eexists. eexists. split; [reflexivity|]. split; [reflexivity|]. split.
  - now rewrite !length_map.
  - apply Forall2_map_same. intros x Hx.
    destruct (@binary64_normalized_entry rnd u _ x A M R1 U0 U5 Hz Hx)
      as (d & v & Ed & Ev & H).
    exists d, v. rewrite Ed, Ev. auto.
Qed.

Lemma normalized_range_and_complement_witness :
  exists direct inv,
    binary64.normalized round64 thirds Calibrated_pop false = Returns direct
    /\ binary64.normalized round64 thirds Calibrated_pop true = Returns inv
    /\ List.length direct = 3%nat
    /\ Forall2 (fun a b => exists d v,
                   a = Fin d /\ b = Fin v
                   /\ 0 <= d /\ d <= 1 /\ 0 <= v /\ v <= 1
                   /\ Qabs (v - (1 - d)) <= 4 * u64)
         direct inv.
Proof.
  apply (@normalized_range_and_complement round64 u64 thirds Calibrated_pop).
  - exact round64_accurate.
  - exact round64_monotone.
  - exact round64_1.
  - vm_compute. discriminate.
  - vm_compute. discriminate.
  - reflexivity.
Defined.

(** C8, as stated, fails.  In double precision, on the column 0, 1, 3
    the direct value of the middle row is the double nearest to 1/3 and
    the inverse value the double nearest to 2/3, which is neither one
    minus the former nor the double nearest to that.  And [normalize] of
    [raster.py], which divides by the range without subtracting the
    minimum, returns 1 and 2 on a band that holds 5 and 10. *)
Lemma normalized_complement_fails :
  binary64.normalized round64 thirds Calibrated_pop false
  = Returns [Fin 0; Fin (6004799503160661 # 18014398509481984); Fin 1]
  /\ binary64.normalized round64 thirds Calibrated_pop true
     = Returns [Fin 1; Fin (6004799503160661 # 9007199254740992); Fin 0]
  /\ ~ (6004799503160661 # 9007199254740992)
       == 1 - (6004799503160661 # 18014398509481984)
  /\ ~ (6004799503160661 # 9007199254740992)
       == round64 (1 - (6004799503160661 # 18014398509481984))
  /\ raster.normalize [Fin 5; Fin 10] (Fin (-9999)) PInf
     = Returns [Fin (5 / (10 + - 5)); Fin (10 / (10 + - 5))]
  /\ ~ 10 / (10 + - 5) <= 1.
Proof.
  split; [vm_compute; reflexivity|]. split; [vm_compute; reflexivity|].
  split; [vm_compute; discriminate|]. split; [vm_compute; discriminate|].
  split; [reflexivity|]. vm_compute. intro H. apply H. reflexivity.
Qed.

(** C7, as the code behaves.  When the maximum of the column equals its
    minimum, [normalized] raises nothing: it returns a column that holds
    NaN on every row. *)
Theorem normalized_degenerate_returns_nan
    (g : list row) (column : row -> Q) (inverse : bool) :
  zero_range (map column g) = true ->
  normalized g column inverse = Returns (map (fun _ => NaN) g).
Proof.
  intro Hz. unfold normalized.
  destruct inverse; f_equal; rewrite map_map; apply map_ext_in;
    intros r Hr; apply (in_map column) in Hr;
    destruct (degenerate_entry _ _ Hz Hr) as [D I]; assumption.
Qed.

Lemma normalized_degenerate_returns_nan_witness :
  normalized [cell 5 NaN; cell 5 NaN] Calibrated_pop true
  = Returns [NaN; NaN].
Proof.
  apply (normalized_degenerate_returns_nan
           [cell 5 NaN; cell 5 NaN] Calibrated_pop true).
  reflexivity.
Defined.

(** C7, as stated, fails: on the column [5; 5] the range is zero and the
    call returns the column [NaN; NaN] instead of raising
    [DegenerateRangeError]. *)
Lemma normalized_degenerate_no_error :
  zero_range (map Calibrated_pop [cell 5 NaN; cell 5 NaN]) = true
  /\ normalized [cell 5 NaN; cell 5 NaN] Calibrated_pop false
     = Returns [NaN; NaN]
  /\ normalized [cell 5 NaN; cell 5 NaN] Calibrated_pop false
     <> Raises DegenerateRangeError.
Proof.
  split; [reflexivity|]. split; [reflexivity|]. discriminate.
Qed.

(** [normalize] of [raster.py] is another function: it has no inverse
    mode and divides by the range without subtracting the minimum, so a
    band from 5 to 10 comes out as 1 to 2; on a band of equal values it
    raises nothing either and returns infinities. *)
Lemma raster_normalize_keeps_offset :
  raster.normalize [Fin 5; Fin 10; Fin (-9999)] (Fin (-9999)) PInf
  = Returns [Fin (5 / (10 + - 5)); Fin (10 / (10 + - 5)); NaN]
  /\ 10 / (10 + - 5) == 2
  /\ raster.normalize [Fin 5; Fin 5] (Fin (-9999)) PInf
     = Returns [PInf; PInf].
Proof.
  split; [reflexivity|]. split; reflexivity.
Qed.

(** ** Lists *)

Lemma nth_error_filter_rank {A : Type} (p : A -> bool) (l : list A)
    (k : nat) (x : A) :
  nth_error l k = Some x -> p x = true ->
  nth_error (filter p l) (List.length (filter p (firstn k l))) = Some x.
Proof.
  revert k. induction l as [|a l IH]; intros [|k] H Hp; simpl in *;
    try discriminate.
  - injection H as ->. rewrite Hp. reflexivity.
  - destruct (p a); simpl; auto.
Qed.

Lemma Forall2_nth_error {A B : Type} (R : A -> B -> Prop)
    (l : list A) (l' : list B) (k : nat) (a : A) :
  Forall2 R l l' -> nth_error l k = Some a ->
  exists b, nth_error l' k = Some b /\ R a b.
Proof.
  intro F. revert k. induction F as [|x y l l' Hxy F IH]; intros [|k] H;
    simpl in *; try discriminate.
  - injection H as ->. eauto.
  - auto.
Qed.

Lemma Forall2_filter {A B : Type} (R : A -> B -> Prop)
    (p : A -> bool) (q : B -> bool) (l : list A) (l' : list B) :
  (forall a b, R a b -> p a = q b) ->
  Forall2 R l l' -> Forall2 R (filter p l) (filter q l').
Proof.
  intros Hpq F. induction F as [|x y l l' Hxy F IH]; simpl; [constructor|].
  rewrite (Hpq _ _ Hxy). destruct (q y); auto.
Qed.

Lemma Forall2_firstn {A B : Type} (R : A -> B -> Prop)
    (l : list A) (l' : list B) (k : nat) :
  Forall2 R l l' -> Forall2 R (firstn k l) (firstn k l').
Proof.
  intro F. revert k. induction F; intros [|k]; simpl; auto.
Qed.

Lemma Forall2_In_r {A B : Type} (R : A -> B -> Prop)
    (l : list A) (l' : list B) (b : B) :
  Forall2 R l l' -> In b l' -> exists a, In a l /\ R a b.
Proof.
  induction 1 as [|x y l l' Hxy F IH]; simpl; [intros []|].
  intros [<- | Hb]; [eauto|]. destruct (IH Hb) as (a & Ha & Hr). eauto.
Qed.

Lemma traverse_Returns {A B : Type} (f : A -> outcome B)
    (l : list A) (l' : list B) :
  traverse f l = Returns l' -> Forall2 (fun a b => f a = Returns b) l l'.
Proof.
  revert l'. induction l as [|a l IH]; intros l' H; simpl in H.
  - injection H as <-. constructor.
  - destruct (f a) as [b|e] eqn:Ea; simpl in H; [|discriminate].
    destruct (traverse f l) as [bs|e] eqn:El; simpl in H; [|discriminate].
    injection H as <-. constructor; auto.
Qed.

Lemma nth_error_loc_set (mask : row -> bool) (upd : row -> row)
    (g : list row) (k : nat) (r : row) :
  nth_error g k = Some r ->
  nth_error (loc_set mask upd g) k = Some (if mask r then upd r else r).
Proof.
  intro H. unfold loc_set. rewrite nth_error_map, H. reflexivity.
Qed.

(** ** Allocator: shape of the result *)

Lemma assign_max_benefit_Returns (r r' : row) :
  assign_max_benefit r = Returns r' ->
  exists t v, idxmax (net_benefit r) = Some (t, v)
              /\ r' = set_maximum_net_benefit v (set_max_benefit_tech t r).
Proof.
  unfold assign_max_benefit. destruct (idxmax (net_benefit r)) as [[t v]|];
    [|discriminate].
  intro H. injection H as <-. eauto.
Qed.

Lemma current_elect_assigned (r r' : row) :
  assign_max_benefit r = Returns r' -> current_elect r' = is_split r.
Proof.
  intro H. destruct (assign_max_benefit_Returns _ H) as (t & v & E & ->).
  unfold current_elect, is_split, chooses_grid. rewrite E. reflexivity.
Qed.

Lemma loc_set_none (mask : row -> bool) (upd : row -> row) (g : list row) :
  filter mask g = [] -> loc_set mask upd g = g.
Proof.
  induction g as [|r g IH]; simpl; [reflexivity|].
  destruct (mask r); [discriminate|]. intro H. f_equal. auto.
Qed.

Lemma maximum_net_benefit_rows (s s' : OnSSTOVE) :
  maximum_net_benefit s = Returns s' ->
  exists g dff,
    Forall2 (fun r r' => assign_max_benefit r = Returns r') (gdf s) g
    /\ Forall2 (fun r' b => second_row r' = Returns b)
         (filter current_elect g) dff
    /\ gdf s' = loc_set current_elect grid_row g ++ dff.
Proof.
  unfold maximum_net_benefit.
  destruct (traverse assign_max_benefit (gdf s)) as [g|e] eqn:Eg; simpl;
    [|discriminate].
  apply traverse_Returns in Eg.
  destruct g as [|r0 g0]; [discriminate|]. cbn [str_replace bind].
  remember (r0 :: g0) as g eqn:Hg. clear Hg.
  destruct (Nat.ltb 0 (List.length (filter current_elect g))) eqn:En.
  - destruct (traverse second_row (filter current_elect g)) as [dff|e] eqn:Ed;
      simpl; [|discriminate].
    apply traverse_Returns in Ed. intro H. injection H as <-.
    exists g, dff. auto.
  - intro H. injection H as <-. exists g, []. split; [exact Eg|].
    apply Nat.ltb_ge in En.
    assert (E : filter current_elect g = []).
    { destruct (filter current_elect g); [reflexivity | simpl in En; lia]. }
    rewrite E. split; [constructor|]. simpl.
    rewrite loc_set_none by exact E. now rewrite app_nil_r.
Qed.

(** The two rows a split cell leaves in the table: the existing row at
    its own position, and a row appended after the original table. *)
Lemma maximum_net_benefit_split (s s' : OnSSTOVE) (k : nat) (r : row) :
  maximum_net_benefit s = Returns s' ->
  nth_error (gdf s) k = Some r ->
  is_split r = true ->
  exists r' b,
    assign_max_benefit r = Returns r'
    /\ second_row r' = Returns b
    /\ nth_error (gdf s') k = Some (grid_row r')
    /\ nth_error (gdf s') (List.length (gdf s) + split_rank (gdf s) k)
       = Some b.
Proof.
  intros H Hk Hs.
  destruct (maximum_net_benefit_rows _ H) as (g & dff & Fg & Fd & E).
  destruct (Forall2_nth_error k Fg Hk) as (r' & Hk' & Hr').
  assert (Hc : current_elect r' = true)
    by (rewrite (current_elect_assigned _ Hr'); exact Hs).
  pose proof (nth_error_filter_rank current_elect g k Hk' Hc) as Hf.
  destruct (Forall2_nth_error _ Fd Hf) as (b & Hb & Hrb).
  exists r', b. split; [exact Hr'|]. split; [exact Hrb|].
  assert (Hlen : List.length (loc_set current_elect grid_row g)
                 = List.length (gdf s)).
  { unfold loc_set. rewrite length_map. symmetry.
    apply (Forall2_length Fg). }
  rewrite E. split.
  - rewrite nth_error_app1.
    + rewrite (nth_error_loc_set _ _ _ _ Hk'), Hc. reflexivity.
    + rewrite Hlen. apply nth_error_Some. congruence.
  - rewrite nth_error_app2 by (rewrite Hlen; lia).
    rewrite Hlen.
    replace (List.length (gdf s) + split_rank (gdf s) k - List.length (gdf s))%nat
      with (split_rank (gdf s) k) by lia.
    unfold split_rank.
    assert (Hcount : List.length (filter is_split (firstn k (gdf s)))
                     = List.length (filter current_elect (firstn k g))).
    { apply (@Forall2_length _ _ (fun r r' => assign_max_benefit r = Returns r')).
      apply Forall2_filter.
      - intros a c Hac. symmetry. apply current_elect_assigned. exact Hac.
      - apply Forall2_firstn. exact Fg. }
    rewrite Hcount. exact Hb.
Qed.


Lemma binary64_maximum_net_benefit_rows (rnd : Q -> Q) (s s' : OnSSTOVE) :
  binary64.maximum_net_benefit rnd s = Returns s' ->
  exists g dff,
    Forall2 (fun r r' => assign_max_benefit r = Returns r') (gdf s) g
    /\ Forall2 (fun r' b => binary64.second_row rnd r' = Returns b)
         (filter current_elect g) dff
    /\ gdf s' = loc_set current_elect (binary64.grid_row rnd) g ++ dff.
Proof.
  unfold binary64.maximum_net_benefit.
  destruct (traverse assign_max_benefit (gdf s)) as [g|e] eqn:Eg; simpl;
    [|discriminate].
  apply traverse_Returns in Eg.
  destruct g as [|r0 g0]; [discriminate|]. cbn [str_replace bind].
  remember (r0 :: g0) as g eqn:Hg. clear Hg.
  destruct (Nat.ltb 0 (List.length (filter current_elect g))) eqn:En.
  - destruct (traverse (binary64.second_row rnd) (filter current_elect g))
      as [dff|e] eqn:Ed; simpl; [|discriminate].
    apply traverse_Returns in Ed. intro H. injection H as <-.
    exists g, dff. auto.
  - intro H. injection H as <-. exists g, []. split; [exact Eg|].
    apply Nat.ltb_ge in En.
    assert (E : filter current_elect g = []).
    { destruct (filter current_elect g); [reflexivity | simpl in En; lia]. }
    rewrite E. split; [constructor|]. simpl.
    rewrite loc_set_none by exact E. now rewrite app_nil_r.
Qed.

(** The two rows a split cell leaves in the table. *)
Lemma binary64_maximum_net_benefit_split
    (rnd : Q -> Q) (s s' : OnSSTOVE) (k : nat) (r : row) :
  binary64.maximum_net_benefit rnd s = Returns s' ->
  nth_error (gdf s) k = Some r ->
  is_split r = true ->
  exists r' b,
    assign_max_benefit r = Returns r'
    /\ binary64.second_row rnd r' = Returns b
    /\ nth_error (gdf s') k = Some (binary64.grid_row rnd r')
    /\ nth_error (gdf s') (List.length (gdf s) + split_rank (gdf s) k)
       = Some b.
Proof.
  intros H Hk Hs.
  destruct (binary64_maximum_net_benefit_rows _ _ H) as (g & dff & Fg & Fd & E).
  destruct (Forall2_nth_error k Fg Hk) as (r' & Hk' & Hr').
  assert (Hc : current_elect r' = true)
    by (rewrite (current_elect_assigned _ Hr'); exact Hs).
  pose proof (nth_error_filter_rank current_elect g k Hk' Hc) as Hf.
  destruct (Forall2_nth_error _ Fd Hf) as (b & Hb & Hrb).
  exists r', b. split; [exact Hr'|]. split; [exact Hrb|].
  assert (Hlen : List.length (loc_set current_elect (binary64.grid_row rnd) g)
                 = List.length (gdf s)).
  { unfold loc_set. rewrite length_map. symmetry.
    apply (Forall2_length Fg). }
  rewrite E. split.
  - rewrite nth_error_app1.
    + rewrite (nth_error_loc_set _ _ _ _ Hk'), Hc. reflexivity.
    + rewrite Hlen. apply nth_error_Some. congruence.
  - rewrite nth_error_app2 by (rewrite Hlen; lia).
    rewrite Hlen.
    replace (List.length (gdf s) + split_rank (gdf s) k - List.length (gdf s))%nat
      with (split_rank (gdf s) k) by lia.
    unfold split_rank.
    assert (Hcount : List.length (filter is_split (firstn k (gdf s)))
                     = List.length (filter current_elect (firstn k g))).
    { apply (@Forall2_length _ _ (fun r r' => assign_max_benefit r = Returns r')).
      apply Forall2_filter.
      - intros a c Hac. symmetry. apply current_elect_assigned. exact Hac.
      - apply Forall2_firstn. exact Fg. }
    rewrite Hcount. exact Hb.
Qed.

(** The two rows made of a cell add up to the cell, within four units
    of roundoff. *)
Lemma binary64_second_row_shares (rnd : Q -> Q) (u : Q) (r b : row) :
  accurate u rnd -> 0 <= u -> u <= 1 # 2 ->
  0 <= Elec_pop_calib r -> Elec_pop_calib r < Calibrated_pop r ->
  binary64.second_row rnd r = Returns b ->
  Qabs (Calibrated_pop (binary64.grid_row rnd r) + Calibrated_pop b
        - Calibrated_pop r) <= 4 * u * Calibrated_pop r
  /\ Qabs (Elec_pop_calib (binary64.grid_row rnd r) + Elec_pop_calib b
           - Elec_pop_calib r) <= 4 * u * Elec_pop_calib r
  /\ forall h, Households r = Some h ->
       exists ha hb,
         Households (binary64.grid_row rnd r) = Some ha
         /\ Households b = Some hb
         /\ Qabs (ha + hb - h) <= 4 * u * Qabs h.
Proof.
  intros A U0 U2 E0 EP. unfold binary64.second_row. cbv zeta.
  destruct (idxmax (remove_col "Electricity" (net_benefit r))) as [[t v]|];
    [|discriminate].
  intro H. injection H as <-.
  unfold binary64.grid_row, binary64.scale_Households, binary64.elect_fraction.
  simpl.
  pose proof (@split_error rnd u A U0 (Calibrated_pop r) _ _ U2 E0 EP) as SP.
  pose proof (@split_error rnd u A U0 (Elec_pop_calib r) _ _ U2 E0 EP) as SE.
  rewrite (Qabs_pos (Calibrated_pop r)) in SP by lra.
  rewrite (Qabs_pos (Elec_pop_calib r)) in SE by lra.
  split; [exact SP|]. split; [exact SE|].
  intros h Hh. rewrite Hh. eexists. eexists.
  split; [reflexivity|]. split; [reflexivity|].
  apply (@split_error rnd u A U0 h _ _ U2 E0 EP).
Qed.

(** C2, as the code behaves.  A split cell whose electrified population
    is not negative leaves two rows, the scaled row at its position and
    one appended row.  Their populations, their electrified populations
    and their households each add up to the value the cell had before
    the split up to the rounding of the products: when each operation has
    a relative error of at most [u], the sum differs from the cell's
    value by at most [4 * u] times that value.  So the sums are those of
    the cell in exact arithmetic, and within [4 * 2^-53] of them,
    relatively, in double precision. *)
Theorem split_conservation_up_to_rounding
    (rnd : Q -> Q) (u : Q) (s s' : OnSSTOVE) (k : nat) (r : row) (h : Q) :
  accurate u rnd -> 0 <= u -> u <= 1 # 2 ->
  binary64.maximum_net_benefit rnd s = Returns s' ->
  nth_error (gdf s) k = Some r ->
  is_split r = true ->
  0 <= Elec_pop_calib r ->
  Households r = Some h ->
  exists a b ha hb,
    nth_error (gdf s') k = Some a
    /\ nth_error (gdf s') (List.length (gdf s) + split_rank (gdf s) k) = Some b
    /\ Qabs (Calibrated_pop a + Calibrated_pop b - Calibrated_pop r)
       <= 4 * u * Calibrated_pop r
    /\ Qabs (Elec_pop_calib a + Elec_pop_calib b - Elec_pop_calib r)
       <= 4 * u * Elec_pop_calib r
    /\ Households a = Some ha /\ Households b = Some hb
    /\ Qabs (ha + hb - h) <= 4 * u * Qabs h.
Proof.
  intros A U0 U2 H Hk Hs E0 Hh.
  destruct (binary64_maximum_net_benefit_split _ _ _ H Hk Hs)
    as (r' & b & Hr & Hb & Na & Nb).
  destruct (assign_max_benefit_Returns _ Hr) as (t & v & _ & ->).
  assert (EP : Elec_pop_calib r < Calibrated_pop r).
  { unfold is_split in Hs. apply andb_true_iff in Hs. destruct Hs as [Hs _].
    apply andb_true_iff in Hs. destruct Hs as [_ Hl]. now apply Qltb_lt. }
  destruct (@binary64_second_row_shares rnd u _ b A U0 U2
              (E0 : 0 <= Elec_pop_calib
                           (set_maximum_net_benefit v (set_max_benefit_tech t r)))
              EP Hb)
    as (SP & SE & SH).
  destruct (SH h Hh) as (ha & hb & Ha & Hhb & Bh).
  exists (binary64.grid_row rnd
            (set_maximum_net_benefit v (set_max_benefit_tech t r))), b, ha, hb.
  split; [exact Na|]. split; [exact Nb|]. split; [exact SP|].
  split; [exact SE|]. split; [exact Ha|]. split; [exact Hhb | exact Bh].
Qed.

Lemma split_conservation_up_to_rounding_witness :
  exists s' a b ha hb,
    binary64.maximum_net_benefit round64 (session [third_served] (1 # 2))
    = Returns s'
    /\ nth_error (gdf s') 0 = Some a
    /\ nth_error (gdf s') 1 = Some b
    /\ Qabs (Calibrated_pop a + Calibrated_pop b - 15) <= 4 * u64 * 15
    /\ Qabs (Elec_pop_calib a + Elec_pop_calib b - 5) <= 4 * u64 * 5
    /\ Households a = Some ha /\ Households b = Some hb
    /\ Qabs (ha + hb - 3) <= 4 * u64 * Qabs 3.
Proof.
  destruct (binary64.maximum_net_benefit round64
              (session [third_served] (1 # 2))) as [s'|e] eqn:E;
    [|vm_compute in E; discriminate E].
  destruct (@split_conservation_up_to_rounding round64 u64
              (session [third_served] (1 # 2)) s' 0 third_served 3
              round64_accurate)
    as (a & b & ha & hb & P);
    try (vm_compute; discriminate); try reflexivity; [exact E|].
  exists s', a, b, ha, hb. split; [reflexivity | exact P].
Defined.

(** C2, as stated, fails in double precision.  A cell of 15 people, 5 of
    them served, is split into a row of 5 people and a row of
    10.000000000000002 people (the double [5629499534213121 * 2^-49]):
    the served fraction is the double nearest to 1/3, one minus it
    rounds up, and so does its product with 15.  The two populations do
    not add up to 15. *)
Lemma split_not_conserved :
  exists s' a b,
    binary64.maximum_net_benefit round64 (session [third_served] (1 # 2))
    = Returns s'
    /\ gdf s' = [a; b]
    /\ Calibrated_pop a = 5
    /\ Calibrated_pop b = 5629499534213121 # 562949953421312
    /\ ~ Calibrated_pop a + Calibrated_pop b == 15.
Proof.
  eexists. eexists. eexists. split; [vm_compute; reflexivity|].
  split; [reflexivity|]. split; [reflexivity|]. split; [reflexivity|].
  vm_compute. discriminate.
Qed.



(** ** The electrified population stays within the population *)

Lemma loc_set_Forall (P : row -> Prop) (mask : row -> bool)
    (upd : row -> row) (g : list row) :
  (forall r, P r -> mask r = true -> P (upd r)) ->
  Forall P g -> Forall P (loc_set mask upd g).
Proof.
  intros Hu F. unfold loc_set. apply Forall_map.
  eapply Forall_impl; [|exact F]. intros r Hr. simpl.
  destruct (mask r) eqn:E; auto.
Qed.

Lemma final_elec_body_within (lo factor : Q) (st : phaseB) :
  0 <= factor ->
  Forall elec_within_pop (B_gdf st) ->
  Forall elec_within_pop (B_gdf (final_elec_body lo factor st)).
Proof.
  intros Hf F. unfold final_elec_body. simpl.
  apply loc_set_Forall; [intros r Hr _; exact Hr|].
  (* after the decrement and the clamp *)
  unfold loc_set. rewrite map_map. apply Forall_map.
  eapply Forall_impl; [|exact F]. intros r [L U]. simpl.
  unfold elec_within_pop.
  destruct (in_band lo (B_i st) r); simpl.
  - destruct (Qltb (Elec_pop_calib r - factor) 0) eqn:E; simpl.
    + split; lra.
    + apply Qltb_ge in E. split; lra.
  - destruct (Qltb (Elec_pop_calib r) 0) eqn:E; simpl; split; lra.
Qed.

Lemma final_elec_passes_within (n : nat) (total_pop elec_rate lo factor : Q)
    (st : phaseB) :
  0 <= factor ->
  Forall elec_within_pop (B_gdf st) ->
  Forall elec_within_pop
    (B_gdf (final_elec_passes n total_pop elec_rate lo factor st)).
Proof.
  intro Hf. revert st. induction n as [|n IH]; intros st F; simpl; [exact F|].
  destruct (final_elec_guard total_pop elec_rate st); [|exact F].
  apply IH. apply final_elec_body_within; assumption.
Qed.

Lemma final_elec_init_within (s : OnSSTOVE) :
  Forall (fun r => 0 <= Calibrated_pop r) (gdf s) ->
  Forall elec_within_pop (B_gdf (final_elec_init s)).
Proof.
  intro F. unfold final_elec_init. simpl. apply Forall_map.
  eapply Forall_impl; [|exact F]. intros r Hr. simpl in Hr.
  unfold elec_within_pop. simpl. split; lra.
Qed.

Lemma series_count_nonneg (g : list row) : 0 <= series_count g.
Proof.
  unfold series_count. change 0 with (inject_Z 0).
  rewrite <- Zle_Qle. lia.
Qed.

(** The loop body only runs with a decrement that is not negative. *)
Lemma final_elec_factor_nonneg (s : OnSSTOVE) :
  final_elec_guard (col_sum Calibrated_pop (B_gdf (final_elec_init s)))
    (Elec_rate (specs s)) (final_elec_init s) = true ->
  0 <= final_elec_factor s.
Proof.
  unfold final_elec_guard. intro G. apply Qltb_lt in G.
  unfold final_elec_factor. cbv zeta.
  pose proof (series_count_nonneg (B_gdf (final_elec_init s))) as C.
  unfold Qdiv. apply Qmult_le_0_compat; [lra|].
  apply Qinv_le_0_compat. exact C.
Qed.

Lemma final_elec_passes_stopped (n : nat) (total_pop elec_rate lo factor : Q)
    (st : phaseB) :
  final_elec_guard total_pop elec_rate st = false ->
  final_elec_passes n total_pop elec_rate lo factor st = st.
Proof.
  intro G. destruct n as [|n]; simpl; [reflexivity|]. now rewrite G.
Qed.

Lemma final_elec_after_within (n : nat) (s : OnSSTOVE) :
  Forall (fun r => 0 <= Calibrated_pop r) (gdf s) ->
  Forall elec_within_pop (B_gdf (final_elec_after n s)).
Proof.
  intro F. apply final_elec_init_within in F. unfold final_elec_after.
  destruct (final_elec_guard
              (col_sum Calibrated_pop (B_gdf (final_elec_init s)))
              (Elec_rate (specs s)) (final_elec_init s)) eqn:G.
  - apply final_elec_passes_within; [|exact F].
    apply final_elec_factor_nonneg. exact G.
  - rewrite final_elec_passes_stopped by exact G. exact F.
Qed.

(** What the loop returns is the state after as many passes as its fuel. *)
Lemma final_elec_while_passes (fuel : nat) (total_pop elec_rate lo factor : Q)
    (st st' : phaseB) :
  final_elec_while fuel total_pop elec_rate lo factor st = Some st' ->
  st' = final_elec_passes fuel total_pop elec_rate lo factor st
  /\ final_elec_guard total_pop elec_rate st' = false.
Proof.
  revert st. induction fuel as [|fuel IH]; intros st H; simpl in *.
  - destruct (final_elec_guard total_pop elec_rate st) eqn:G; [discriminate|].
    injection H as <-. auto.
  - destruct (final_elec_guard total_pop elec_rate st) eqn:G.
    + apply IH. exact H.
    + injection H as <-. auto.
Qed.

Lemma final_elec_finish_within (g : list row) :
  Forall elec_within_pop g -> Forall elec_within_pop (final_elec_finish g).
Proof.
  intro F. unfold final_elec_finish. apply Forall_map.
  eapply Forall_impl; [|exact F]. intros r [L U]. simpl.
  destruct (Current_elec r =? 0)%Z; unfold elec_within_pop; simpl; split; lra.
Qed.

Lemma served_fraction_bounds (r : row) :
  0 <= Elec_pop_calib r -> Elec_pop_calib r < Calibrated_pop r ->
  0 <= elect_fraction r /\ elect_fraction r <= 1.
Proof.
  intros L U. unfold elect_fraction.
  assert (P : 0 < Calibrated_pop r) by lra. split.
  - apply Qle_shift_div_l; [exact P | lra].
  - apply Qle_shift_div_r; [exact P | lra].
Qed.

Lemma current_elect_below (r : row) :
  current_elect r = true -> Elec_pop_calib r < Calibrated_pop r.
Proof.
  unfold current_elect. intro H.
  apply andb_true_iff in H. destruct H as [H _].
  apply andb_true_iff in H. destruct H as [_ H].
  now apply Qltb_lt.
Qed.

Lemma grid_row_within (r : row) :
  elec_within_pop r -> current_elect r = true -> elec_within_pop (grid_row r).
Proof.
  intros [L U] C. apply current_elect_below in C.
  destruct (served_fraction_bounds r L C) as [F0 F1].
  unfold elec_within_pop, grid_row. simpl. split.
  - apply Qmult_le_0_compat; assumption.
  - apply Qmult_le_compat_r; assumption.
Qed.

Lemma second_row_within (r b : row) :
  second_row r = Returns b ->
  elec_within_pop r -> current_elect r = true -> elec_within_pop b.
Proof.
  intros H [L U] C. apply current_elect_below in C.
  destruct (served_fraction_bounds r L C) as [F0 F1].
  unfold second_row in H.
  destruct (idxmax (remove_col "Electricity" (net_benefit r))) as [[t v]|];
    [|discriminate].
  injection H as <-. unfold elec_within_pop. simpl. split.
  - apply Qmult_le_0_compat; [assumption | lra].
  - apply Qmult_le_compat_r; [assumption | lra].
Qed.

Lemma assign_max_benefit_within (r r' : row) :
  assign_max_benefit r = Returns r' -> elec_within_pop r -> elec_within_pop r'.
Proof.
  intros H I. destruct (assign_max_benefit_Returns _ H) as (t & v & _ & ->).
  exact I.
Qed.

(** The allocator keeps the invariant on every row, split or not. *)
Lemma maximum_net_benefit_within (s s' : OnSSTOVE) :
  Forall elec_within_pop (gdf s) ->
  maximum_net_benefit s = Returns s' ->
  Forall elec_within_pop (gdf s').
Proof.
  intros F H.
  destruct (maximum_net_benefit_rows _ H) as (g & dff & Fg & Fd & ->).
  assert (G : Forall elec_within_pop g).
  { apply Forall_forall. intros x Hx.
    destruct (Forall2_In_r _ Fg Hx) as (r & Hr & Ha).
    apply (assign_max_benefit_within Ha).
    eapply Forall_forall in F; eauto. }
  apply Forall_app. split.
  - apply loc_set_Forall; [|exact G]. intros r. apply grid_row_within.
  - apply Forall_forall. intros b Hb.
    destruct (Forall2_In_r _ Fd Hb) as (r & Hr & Hs).
    apply filter_In in Hr. destruct Hr as [Hr Hc].
    apply (second_row_within Hs); [|exact Hc].
    eapply Forall_forall in G; eauto.
Qed.

(** C4.  On a table whose populations are not negative, every cell
    satisfies [0 <= Elec_pop_calib <= Calibrated_pop] after each pass of
    the loop of [final_elec], in the table [final_elec] returns, and in
    the table [maximum_net_benefit] then returns. *)
Theorem elec_pop_invariant (s : OnSSTOVE) :
  Forall (fun r => 0 <= Calibrated_pop r) (gdf s) ->
  (forall n, Forall elec_within_pop (B_gdf (final_elec_after n s)))
  /\ (forall fuel s1,
        final_elec fuel s = Some s1 ->
        Forall elec_within_pop (gdf s1)
        /\ forall s2, maximum_net_benefit s1 = Returns s2 ->
                      Forall elec_within_pop (gdf s2)).
Proof.
  intro F. split.
  - intro n. apply final_elec_after_within. exact F.
  - intros fuel s1 H. unfold final_elec in H.
    destruct (final_elec_while fuel _ _ _ _ _) as [st|] eqn:W; [|discriminate].
    injection H as <-.
    apply final_elec_while_passes in W. destruct W as [-> _].
    assert (I : Forall elec_within_pop
                  (gdf (set_gdf (final_elec_finish
                                   (B_gdf (final_elec_after fuel s))) s))).
    { simpl. apply final_elec_finish_within.
      apply final_elec_after_within. exact F. }
    split; [exact I|].
    intros s2 H2. eapply maximum_net_benefit_within; eauto.
Qed.

Lemma elec_pop_invariant_witness :
  (forall n, Forall elec_within_pop (B_gdf (final_elec_after n after_phase_A)))
  /\ (forall fuel s1,
        final_elec fuel after_phase_A = Some s1 ->
        Forall elec_within_pop (gdf s1)
        /\ forall s2, maximum_net_benefit s1 = Returns s2 ->
                      Forall elec_within_pop (gdf s2)).
Proof.
  apply (elec_pop_invariant after_phase_A).
  repeat constructor; vm_compute; discriminate.
Defined.

(** ** The sessions Phase A leaves on the samples *)

Lemma survey_phase_A :
  current_elec 1 survey = Some (Returns after_phase_A)
  /\ current_elec 0 survey = None.
Proof. split; vm_compute; reflexivity. Qed.

Lemma transect_phase_A :
  current_elec 2 transect = Some (Returns transect_after_phase_A)
  /\ current_elec 1 transect = None.
Proof. split; vm_compute; reflexivity. Qed.

(** ** One pass of Phase B *)

(** The pass after [n] passes is made from the state they leave. *)
Lemma final_elec_passes_S (n : nat) (total_pop elec_rate lo factor : Q)
    (st : phaseB) :
  final_elec_passes (S n) total_pop elec_rate lo factor st
  = if final_elec_guard total_pop elec_rate
         (final_elec_passes n total_pop elec_rate lo factor st)
    then final_elec_body lo factor
           (final_elec_passes n total_pop elec_rate lo factor st)
    else final_elec_passes n total_pop elec_rate lo factor st.
Proof.
  revert st. induction n as [|n IH]; intro st; [reflexivity|].
  change (final_elec_passes (S (S n)) total_pop elec_rate lo factor st)
    with (if final_elec_guard total_pop elec_rate st
          then final_elec_passes (S n) total_pop elec_rate lo factor
                 (final_elec_body lo factor st)
          else st).
  change (final_elec_passes (S n) total_pop elec_rate lo factor st)
    with (if final_elec_guard total_pop elec_rate st
          then final_elec_passes n total_pop elec_rate lo factor
                 (final_elec_body lo factor st)
          else st).
  destruct (final_elec_guard total_pop elec_rate st) eqn:G.
  - apply IH.
  - now rewrite G.
Qed.

Ltac pass_cases :=
  cbn [Elec_pop_calib set_Elec_pop_calib];
  match goal with
  | |- context [Qeq_bool 0 0] => change (Qeq_bool 0 0) with true; simpl
  | |- context [Qeq_bool ?x 0] =>
      let E := fresh "E" in
      destruct (Qeq_bool x 0) eqn:E; simpl; rewrite ?E
  end;
  repeat split.

Lemma final_elec_body_row (lo factor : Q) (st : phaseB) (k : nat) (r : row) :
  nth_error (B_gdf st) k = Some r ->
  exists r',
    nth_error (B_gdf (final_elec_body lo factor st)) k = Some r'
    /\ Elec_pop_calib r'
       = clamp0 (if in_band lo (B_i st) r
                 then Elec_pop_calib r - factor else Elec_pop_calib r)
    /\ Current_elec r'
       = (if Qeq_bool (Elec_pop_calib r') 0 then 0 else Current_elec r)%Z
    /\ Calibrated_pop r' = Calibrated_pop r
    /\ combined_weight r' = combined_weight r.
Proof.
  intro H. unfold final_elec_body. cbn [B_gdf].
  eexists. split.
  - erewrite nth_error_loc_set; [reflexivity|].
    erewrite nth_error_loc_set; [reflexivity|].
    erewrite nth_error_loc_set; [reflexivity | exact H].
  - unfold clamp0.
    destruct (in_band lo (B_i st) r); cbn [Elec_pop_calib set_Elec_pop_calib].
    + destruct (Qltb (Elec_pop_calib r - factor) 0); pass_cases.
    + destruct (Qltb (Elec_pop_calib r) 0); pass_cases.
Qed.

(** C3, as the code behaves.  The decrement [final_elec_factor] is fixed
    before the loop and is the same on every pass.  A pass subtracts it
    from the electrified population of every cell whose score lies in the
    scanning band [[self.i, i]], clamps the result of every cell at zero,
    and deactivates every cell whose value is then zero. *)
Theorem final_elec_pass (s : OnSSTOVE) (n k : nat) (r : row) :
  final_elec_running n s = true ->
  nth_error (B_gdf (final_elec_after n s)) k = Some r ->
  exists r',
    nth_error (B_gdf (final_elec_after (S n) s)) k = Some r'
    /\ Elec_pop_calib r'
       = clamp0 (if in_band (self_i s) (B_i (final_elec_after n s)) r
                 then Elec_pop_calib r - final_elec_factor s
                 else Elec_pop_calib r)
    /\ Current_elec r'
       = (if Qeq_bool (Elec_pop_calib r') 0 then 0 else Current_elec r)%Z.
Proof.
  unfold final_elec_running, final_elec_after. intros G H.
  rewrite final_elec_passes_S, G.
  destruct (final_elec_body_row (self_i s) (final_elec_factor s) _ _ H)
    as (r' & N & E & C & _).
  exists r'. auto.
Qed.

Lemma final_elec_pass_witness :
  exists r',
    nth_error (B_gdf (final_elec_after 2 after_phase_A)) 0 = Some r'
    /\ Elec_pop_calib r' == 40
    /\ Current_elec r' = 1%Z.
Proof.
  destruct (nth_error (B_gdf (final_elec_after 1 after_phase_A)) 0)
    as [r|] eqn:Hr; [|discriminate Hr].
  destruct (@final_elec_pass after_phase_A 1 0 r) as (r' & N & E & C).
  - vm_compute. reflexivity.
  - exact Hr.
  - vm_compute in Hr. injection Hr as <-.
    exists r'. split; [exact N|]. rewrite C, E. split; reflexivity.
Defined.

(** C3, as stated, fails.  On the survey the first pass takes 30 from
    the first cell while the surplus per electrified cell is 45, and the
    second pass takes 30 again from that cell, still electrified, while the
    surplus per electrified cell has become 50.  On the transect the
    first pass takes 10/3 from the second cell and nothing from the first
    cell, electrified too but above the scanning band, while the surplus
    per electrified cell is 5. *)
Lemma final_elec_decrement_not_surplus_share :
  (exists r0 r1 r2,
      nth_error (B_gdf (final_elec_after 0 after_phase_A)) 0 = Some r0
      /\ nth_error (B_gdf (final_elec_after 1 after_phase_A)) 0 = Some r1
      /\ nth_error (B_gdf (final_elec_after 2 after_phase_A)) 0 = Some r2
      /\ final_elec_running 0 after_phase_A = true
      /\ final_elec_running 1 after_phase_A = true
      /\ is_electrified r0 = true
      /\ is_electrified r1 = true
      /\ is_electrified r2 = true
      /\ Elec_pop_calib r0 - Elec_pop_calib r1 == 30
      /\ surplus_per_electrified after_phase_A
           (final_elec_after 0 after_phase_A) == 45
      /\ Elec_pop_calib r1 - Elec_pop_calib r2 == 30
      /\ surplus_per_electrified after_phase_A
           (final_elec_after 1 after_phase_A) == 50)
  /\ (exists a0 a1 b0 b1,
        nth_error (B_gdf (final_elec_after 0 transect_after_phase_A)) 0
        = Some a0
        /\ nth_error (B_gdf (final_elec_after 1 transect_after_phase_A)) 0
           = Some a1
        /\ nth_error (B_gdf (final_elec_after 0 transect_after_phase_A)) 1
           = Some b0
        /\ nth_error (B_gdf (final_elec_after 1 transect_after_phase_A)) 1
           = Some b1
        /\ final_elec_running 0 transect_after_phase_A = true
        /\ is_electrified a0 = true /\ is_electrified a1 = true
        /\ is_electrified b0 = true /\ is_electrified b1 = true
        /\ Elec_pop_calib a0 - Elec_pop_calib a1 == 0
        /\ Elec_pop_calib b0 - Elec_pop_calib b1 == 10 # 3
        /\ surplus_per_electrified transect_after_phase_A
             (final_elec_after 0 transect_after_phase_A) == 5).
Proof.
  split.
  - eexists. eexists. eexists.
    split; [vm_compute; reflexivity|].
    split; [vm_compute; reflexivity|].
    split; [vm_compute; reflexivity|].
    repeat split; vm_compute; reflexivity.
  - eexists. eexists. eexists. eexists.
    split; [vm_compute; reflexivity|].
    split; [vm_compute; reflexivity|].
    split; [vm_compute; reflexivity|].
    split; [vm_compute; reflexivity|].
    repeat split; vm_compute; reflexivity.
Qed.

(** ** Phase A: the threshold search *)

Section PhaseA.

Variables total_pop elec_rate : Q.

Lemma fge_lower (w : fnum) (a b : Q) :
  fge w (Fin a) = true -> b <= a -> fge w (Fin b) = true.
Proof.
  unfold fge. destruct w as [q| | |]; simpl; auto.
  intros H L. apply Qle_bool_iff in H. apply Qle_bool_iff. lra.
Qed.

Lemma step_pos : 0 < step.
Proof. reflexivity. Qed.

Lemma current_elec_iter_S (n : nat) (st : phaseA) :
  current_elec_iter (S n) st = current_elec_body (current_elec_iter n st).
Proof.
  revert st. induction n as [|n IH]; intro st; [reflexivity|].
  change (current_elec_iter (S (S n)) st)
    with (current_elec_iter (S n) (current_elec_body st)).
  rewrite IH. reflexivity.
Qed.

Lemma mark_sum (t : Q) (g : list row) :
  Forall (fun r => is_electrified r = true ->
                   fge (combined_weight r) (Fin t) = true) g ->
  loc_sum is_electrified Calibrated_pop
    (loc_set (fun r => fge (combined_weight r) (Fin t)) (set_Current_elec 1) g)
  = loc_sum (fun r => fge (combined_weight r) (Fin t)) Calibrated_pop g.
Proof.
  induction g as [|r g IH]; intro F; [reflexivity|].
  inversion F as [|? ? Hr Fg]; subst.
  unfold loc_set in *. cbn [map loc_sum].
  destruct (fge (combined_weight r) (Fin t)) eqn:M.
  - cbn [is_electrified Current_elec set_Current_elec Calibrated_pop
         Z.eqb Pos.eqb].
    rewrite (IH Fg). reflexivity.
  - destruct (is_electrified r) eqn:E.
    + discriminate (Hr eq_refl).
    + apply IH. exact Fg.
Qed.

(** After a pass, [elec_pop] is the population of the marked cells. *)
Lemma current_elec_body_electrified (st : phaseA) :
  marked_above st ->
  electrified_pop (A_gdf (current_elec_body st))
  = A_elec_pop (current_elec_body st).
Proof.
  intro F. apply mark_sum. exact F.
Qed.

Lemma current_elec_body_marked (st : phaseA) :
  marked_above st -> marked_above (current_elec_body st).
Proof.
  unfold marked_above, current_elec_body. cbn [A_gdf A_i].
  intro F. unfold loc_set. apply Forall_map.
  eapply Forall_impl; [|exact F]. intros r Hr. cbv beta in *.
  pose proof step_pos as P.
  destruct (fge (combined_weight r) (Fin (A_i st))) eqn:M; intro E.
  - apply (fge_lower _ M). lra.
  - discriminate (Hr E).
Qed.

Lemma current_elec_iter_marked (n : nat) (st : phaseA) :
  marked_above st -> marked_above (current_elec_iter n st).
Proof.
  revert st. induction n as [|n IH]; intros st H; simpl; [exact H|].
  apply IH. apply current_elec_body_marked. exact H.
Qed.

(** What the loop returns: the state after the first pass count at which
    the guard fails, every earlier guard having held. *)
Lemma current_elec_while_iter (fuel : nat) (st st' : phaseA) :
  current_elec_while fuel total_pop elec_rate st = Some st' ->
  exists n,
    st' = current_elec_iter n st
    /\ current_elec_guard total_pop elec_rate st' = false
    /\ (n = O
        \/ exists m, n = S m
                     /\ current_elec_guard total_pop elec_rate
                          (current_elec_iter m st) = true).
Proof.
  revert st. induction fuel as [|fuel IH]; intros st H; simpl in H.
  - destruct (current_elec_guard total_pop elec_rate st) eqn:G; [discriminate|].
    injection H as <-. exists O. auto.
  - destruct (current_elec_guard total_pop elec_rate st) eqn:G.
    + destruct (IH _ H) as (n & E & G' & P). exists (S n).
      split; [exact E|]. split; [exact G'|]. right.
      destruct P as [-> | (m & -> & Gm)].
      * exists O. auto.
      * exists (S m). auto.
    + injection H as <-. exists O. auto.
Qed.

(** Once some pass count makes the guard fail, that much fuel suffices. *)
Lemma current_elec_while_terminates (n : nat) (st : phaseA) :
  current_elec_guard total_pop elec_rate (current_elec_iter n st) = false ->
  exists st', current_elec_while n total_pop elec_rate st = Some st'.
Proof.
  revert st. induction n as [|n IH]; intros st G; simpl in *.
  - rewrite G. eauto.
  - destruct (current_elec_guard total_pop elec_rate st); eauto.
Qed.

End PhaseA.

Lemma assign_combined_weight_pop (sp : Specs) (g : list row)
    (e p n : list fnum) :
  List.length e = List.length g -> List.length p = List.length g ->
  List.length n = List.length g ->
  map Calibrated_pop (assign_combined_weight sp g e p n)
  = map Calibrated_pop g.
Proof.
  revert e p n. induction g as [|r g IH]; intros [|x e] [|y p] [|z n];
    simpl; try discriminate; try reflexivity.
  intros He Hp Hn. f_equal. apply IH; congruence.
Qed.

(** Normalising never raises, and leaves populations and scenario alone. *)
Lemma normalize_for_electricity_Returns (s : OnSSTOVE) :
  exists s1,
    normalize_for_electricity s = Returns s1
    /\ specs s1 = specs s
    /\ map Calibrated_pop (gdf s1) = map Calibrated_pop (gdf s).
Proof.
  unfold normalize_for_electricity, normalized. cbn [bind].
  eexists. split; [reflexivity|]. split; [reflexivity|].
  cbn [gdf set_gdf].
  rewrite assign_combined_weight_pop by (now rewrite !length_map).
  rewrite map_map. reflexivity.
Qed.

Lemma col_sum_map (col : row -> Q) (g g' : list row) :
  map col g = map col g' -> col_sum col g = col_sum col g'.
Proof.
  unfold col_sum. revert g'. induction g as [|r g IH]; intros [|r' g'] H;
    simpl in *; try discriminate; [reflexivity|].
  injection H as -> H. rewrite (IH _ H). reflexivity.
Qed.

Lemma current_elec_init_pop (s : OnSSTOVE) :
  map Calibrated_pop (A_gdf (current_elec_init s))
  = map Calibrated_pop (gdf s).
Proof.
  unfold current_elec_init. cbn [A_gdf]. rewrite map_map. reflexivity.
Qed.

Lemma current_elec_init_marked (s : OnSSTOVE) :
  marked_above (current_elec_init s).
Proof.
  unfold marked_above, current_elec_init. cbn [A_gdf].
  apply Forall_map. apply Forall_forall. intros r _ E. discriminate E.
Qed.

Lemma current_elec_init_electrified (s : OnSSTOVE) :
  electrified_pop (A_gdf (current_elec_init s)) = 0.
Proof.
  unfold current_elec_init, electrified_pop. cbn [A_gdf].
  induction (gdf s) as [|r g IH]; [reflexivity|]. exact IH.
Qed.

(** At every pass count, [elec_pop] is the population of the cells
    marked so far. *)
Lemma current_elec_iter_electrified (n : nat) (s : OnSSTOVE) :
  electrified_pop (A_gdf (current_elec_iter n (current_elec_init s)))
  = A_elec_pop (current_elec_iter n (current_elec_init s)).
Proof.
  destruct n as [|n].
  - apply current_elec_init_electrified.
  - rewrite current_elec_iter_S. apply current_elec_body_electrified.
    apply current_elec_iter_marked. apply current_elec_init_marked.
Qed.

Lemma current_elec_result (s : OnSSTOVE) (fuel : nat) (s' : OnSSTOVE) :
  0 < col_sum Calibrated_pop (gdf s) ->
  0 < Elec_rate (specs s) ->
  current_elec fuel s = Some (Returns s') ->
  exists n,
    gdf s' = A_gdf (current_elec_after (S n) s)
    /\ electrified_pop (A_gdf (current_elec_after n s))
       <= col_sum Calibrated_pop (gdf s) * Elec_rate (specs s)
    /\ col_sum Calibrated_pop (gdf s) * Elec_rate (specs s)
       < electrified_pop (gdf s').
Proof.
  intros Hpop Hrate H.
  destruct (normalize_for_electricity_Returns s) as (s1 & N & Hsp & Hmap).
  unfold current_elec in H. unfold current_elec_after. rewrite N in *.
  rewrite Hsp in H.
  rewrite (col_sum_map Calibrated_pop _ (gdf s)) in H
    by (rewrite current_elec_init_pop; exact Hmap).
  destruct (current_elec_while fuel _ _ _) as [st|] eqn:W; [|discriminate].
  injection H as <-. cbn [gdf set_gdf set_self_i].
  destruct (current_elec_while_iter _ _ _ _ W) as (n & -> & G & P).
  destruct P as [-> | (m & -> & Gm)].
  - exfalso. unfold current_elec_guard in G. cbn in G.
    apply not_true_iff_false in G. apply G. apply Qle_bool_iff.
    apply Qlt_le_weak. apply Qmult_lt_0_compat; assumption.
  - exists m. split; [reflexivity|].
    rewrite !current_elec_iter_electrified.
    unfold current_elec_guard in G, Gm. split.
    + apply Qle_bool_iff. exact Gm.
    + apply Qltb_lt. unfold Qltb. now rewrite G.
Qed.

(** ** Phase A terminates on finite scores *)

Lemma nat_Q_S (n : nat) : nat_Q (S n) == nat_Q n + 1.
Proof.
  unfold nat_Q. rewrite Nat2Z.inj_succ. unfold Z.succ.
  rewrite inject_Z_plus. reflexivity.
Qed.

Lemma nat_Q_nonneg (n : nat) : 0 <= nat_Q n.
Proof.
  unfold nat_Q. change 0 with (inject_Z 0). rewrite <- Zle_Qle. lia.
Qed.

Lemma nat_Q_add (n m : nat) : nat_Q (n + m) == nat_Q n + nat_Q m.
Proof.
  unfold nat_Q. rewrite Nat2Z.inj_add, inject_Z_plus. reflexivity.
Qed.

Lemma Q_archimedean (x : Q) : exists n : nat, x <= nat_Q n.
Proof.
  exists (Z.to_nat (Qceiling x)). unfold nat_Q.
  pose proof (Qle_ceiling x) as C.
  destruct (Z_le_gt_dec 0 (Qceiling x)) as [P | N].
  - rewrite Z2Nat.id by exact P. exact C.
  - destruct (Qceiling x) as [|c|c] eqn:E; try lia.
    simpl. eapply Qle_trans; [exact C|].
    change 0 with (inject_Z 0). rewrite <- Zle_Qle. lia.
Qed.

Lemma A_i_iter (n : nat) (st : phaseA) :
  A_i (current_elec_iter n st) == A_i st - nat_Q n * step.
Proof.
  revert st. induction n as [|n IH]; intro st.
  - simpl. unfold nat_Q. simpl. ring.
  - cbn [current_elec_iter]. rewrite IH, nat_Q_S.
    unfold current_elec_body. cbn [A_i]. ring.
Qed.

Lemma loc_set_keeps {A : Type} (col : row -> A) (mask : row -> bool)
    (upd : row -> row) (g : list row) :
  (forall r, col (upd r) = col r) ->
  map col (loc_set mask upd g) = map col g.
Proof.
  intro H. unfold loc_set. rewrite map_map. apply map_ext.
  intro r. destruct (mask r); auto.
Qed.

Lemma current_elec_iter_keeps {A : Type} (col : row -> A) (n : nat)
    (st : phaseA) :
  (forall v r, col (set_Current_elec v r) = col r) ->
  map col (A_gdf (current_elec_iter n st)) = map col (A_gdf st).
Proof.
  intro H. revert st. induction n as [|n IH]; intro st; [reflexivity|].
  cbn [current_elec_iter]. rewrite IH. unfold current_elec_body.
  cbn [A_gdf]. apply loc_set_keeps. intro r. apply H.
Qed.

Lemma loc_sum_all (mask : row -> bool) (col : row -> Q) (g : list row) :
  Forall (fun r => mask r = true) g -> loc_sum mask col g = col_sum col g.
Proof.
  unfold col_sum. induction 1 as [|r g Hr F IH]; simpl; [reflexivity|].
  rewrite Hr, IH. reflexivity.
Qed.

(** Some threshold [1 - K * step] lies at or below every finite score. *)
Lemma threshold_below_all (ws : list fnum) :
  Forall is_finite ws ->
  exists K, Forall (fun w => fge w (Fin (1 - nat_Q K * step)) = true) ws.
Proof.
  induction 1 as [|w ws Hw F (K2 & IH)].
  - exists O. constructor.
  - destruct w as [q| | |]; try contradiction.
    destruct (Q_archimedean ((1 - q) * 10000)) as (K1 & H1).
    exists (K1 + K2)%nat.
    pose proof (nat_Q_nonneg K1) as P1. pose proof (nat_Q_nonneg K2) as P2.
    pose proof (nat_Q_add K1 K2) as E. unfold step in *.
    constructor.
    + unfold fge, fle. apply Qle_bool_iff. lra.
    + eapply Forall_impl; [|exact IH]. intros x Hx. cbv beta in *.
      apply (fge_lower _ Hx). lra.
Qed.

Lemma current_elec_terminates (s : OnSSTOVE) :
  0 < col_sum Calibrated_pop (gdf s) ->
  Elec_rate (specs s) < 1 ->
  Forall (fun r => is_finite (combined_weight r))
         (A_gdf (current_elec_after 0 s)) ->
  exists fuel s', current_elec fuel s = Some (Returns s').
Proof.
  intros Hpop Hrate Hfin.
  destruct (normalize_for_electricity_Returns s) as (s1 & N & Hsp & Hmap).
  unfold current_elec_after in Hfin. unfold current_elec.
  rewrite N in *. cbn [current_elec_iter] in Hfin.
  set (st0 := current_elec_init s1) in *.
  set (total := col_sum Calibrated_pop (A_gdf st0)).
  assert (Etotal : total = col_sum Calibrated_pop (gdf s)).
  { apply col_sum_map. unfold st0. rewrite current_elec_init_pop. exact Hmap. }
  rewrite Hsp.
  assert (Hws : Forall is_finite (map combined_weight (A_gdf st0)))
    by (apply Forall_map; exact Hfin).
  destruct (threshold_below_all Hws) as (K & HK).
  assert (G : current_elec_guard total (Elec_rate (specs s))
                (current_elec_iter (S K) st0) = false).
  { rewrite current_elec_iter_S. unfold current_elec_guard, current_elec_body.
    cbn [A_elec_pop]. rewrite loc_sum_all.
    - rewrite (col_sum_map Calibrated_pop _ (A_gdf st0))
        by (apply current_elec_iter_keeps; reflexivity).
      fold total. apply not_true_iff_false. intro L.
      apply Qle_bool_iff in L. rewrite Etotal in L. nra.
    - apply (proj1 (Forall_map combined_weight
                      (fun w => fge w (Fin (A_i (current_elec_iter K st0)))
                                = true) _)).
      rewrite current_elec_iter_keeps by reflexivity.
      eapply Forall_impl; [|exact HK]. intros w Hw. cbv beta in *.
      apply (fge_lower _ Hw). rewrite A_i_iter. unfold st0. cbn [A_i current_elec_init].
      lra. }
  destruct (current_elec_while_terminates _ _ _ _ G) as (st' & W).
  exists (S K). rewrite W. eauto.
Qed.

Lemma weigh_finite (sp : Specs) (e p n : fnum) :
  ~ infra_weight sp + Min_Elec_Pop sp + Min_Night_Lights sp == 0 ->
  is_finite e -> is_finite p -> is_finite n -> is_finite (weigh sp e p n).
Proof.
  intros Hw He Hp Hn.
  destruct e as [a| | |], p as [b| | |], n as [c| | |]; try contradiction.
  unfold weigh. cbn [fmul fadd fdiv].
  apply Qeq_bool_false in Hw. rewrite Hw. exact I.
Qed.

Lemma assign_combined_weight_finite (sp : Specs) (g : list row)
    (e p n : list fnum) :
  ~ infra_weight sp + Min_Elec_Pop sp + Min_Night_Lights sp == 0 ->
  Forall is_finite e -> Forall is_finite p -> Forall is_finite n ->
  Forall is_finite (map combined_weight (assign_combined_weight sp g e p n)).
Proof.
  intros Hw He. revert g p n.
  induction He as [|x e Hx He IH]; intros [|r g] p n Hp Hn;
    try (constructor; fail).
  destruct Hp as [|y p Hy Hp]; [constructor|].
  destruct Hn as [|z n Hz Hn]; [constructor|].
  cbn [assign_combined_weight map combined_weight set_combined_weight].
  constructor; [apply weigh_finite; assumption | apply IH; assumption].
Qed.

Lemma normalized_finite (g : list row) (column : row -> Q) (inverse : bool)
    (out : list fnum) :
  zero_range (map column g) = false ->
  normalized g column inverse = Returns out ->
  Forall is_finite out.
Proof.
  intros Hz H.
  set (s := map column g) in *.
  assert (E : out
              = map (fun x =>
                       if inverse
                       then fdiv (fsub (series_max s) (Fin x))
                                 (fsub (series_max s) (series_min s))
                       else fdiv (fsub (Fin x) (series_min s))
                                 (fsub (series_max s) (series_min s))) s).
  { unfold normalized in H. fold s in H.
    destruct inverse; injection H as <-; reflexivity. }
  subst out. apply Forall_map, Forall_forall. intros x Hx.
  destruct (normalized_entry _ x Hz Hx) as (d & Ed & v & Ev & _).
  destruct inverse; [rewrite Ev | rewrite Ed]; exact I.
Qed.

(** The scores are finite when the three normalised columns have a range
    and the weights do not add up to zero. *)
Lemma composite_scores_finite (s : OnSSTOVE) :
  zero_range (map (select_Elec_dist s) (gdf s)) = false ->
  zero_range (map Night_lights (gdf s)) = false ->
  zero_range (map Calibrated_pop (gdf s)) = false ->
  ~ infra_weight (specs s) + Min_Elec_Pop (specs s)
    + Min_Night_Lights (specs s) == 0 ->
  Forall is_finite (composite_scores s).
Proof.
  intros Ze Zn Zp Hw. unfold composite_scores, normalize_for_electricity.
  set (g := map (fun r => set_Elec_dist (select_Elec_dist s r) r) (gdf s)).
  assert (Ee : map Elec_dist g = map (select_Elec_dist s) (gdf s))
    by (unfold g; rewrite map_map; reflexivity).
  assert (En : map Night_lights g = map Night_lights (gdf s))
    by (unfold g; rewrite map_map; reflexivity).
  assert (Ep : map Calibrated_pop g = map Calibrated_pop (gdf s))
    by (unfold g; rewrite map_map; reflexivity).
  rewrite <- Ee in Ze. rewrite <- En in Zn. rewrite <- Ep in Zp.
  destruct (normalized g Elec_dist true) as [e|x] eqn:He; [|discriminate He].
  destruct (normalized g Night_lights false) as [n|x] eqn:Hn;
    [|discriminate Hn].
  destruct (normalized g Calibrated_pop false) as [p|x] eqn:Hp;
    [|discriminate Hp].
  cbn [bind gdf set_gdf].
  apply assign_combined_weight_finite; [exact Hw | | |].
  - exact (normalized_finite _ _ _ Ze He).
  - exact (normalized_finite _ _ _ Zp Hp).
  - exact (normalized_finite _ _ _ Zn Hn).
Qed.

Lemma composite_scores_after (s : OnSSTOVE) :
  Forall is_finite (composite_scores s) ->
  Forall (fun r => is_finite (combined_weight r))
         (A_gdf (current_elec_after 0 s)).
Proof.
  unfold composite_scores, current_elec_after.
  destruct (normalize_for_electricity_Returns s) as (s1 & -> & _).
  cbn [current_elec_iter current_elec_init A_gdf]. intro F.
  apply Forall_map. apply (proj1 (Forall_map _ _ _)) in F.
  eapply Forall_impl; [|exact F]. intros r Hr. exact Hr.
Qed.

(** C1, as the code behaves.  On a table with positive total population
    and a target rate in (0,1): whenever the search returns, it has made
    at least one pass, the population of the cells marked
    [Current_elec = 1] is strictly above [Elec_rate] times the total
    population, and the population marked one pass earlier was at most
    that target, hence strictly smaller; and the search does return when
    every composite score is finite. *)
Theorem current_elec_overshoots (s : OnSSTOVE) :
  0 < col_sum Calibrated_pop (gdf s) ->
  0 < Elec_rate (specs s) ->
  Elec_rate (specs s) < 1 ->
  (forall fuel s',
      current_elec fuel s = Some (Returns s') ->
      exists n,
        gdf s' = A_gdf (current_elec_after (S n) s)
        /\ electrified_pop (A_gdf (current_elec_after n s))
           <= col_sum Calibrated_pop (gdf s) * Elec_rate (specs s)
        /\ col_sum Calibrated_pop (gdf s) * Elec_rate (specs s)
           < electrified_pop (gdf s')
        /\ electrified_pop (A_gdf (current_elec_after n s))
           < electrified_pop (gdf s'))
  /\ (Forall is_finite (composite_scores s) ->
      exists fuel s', current_elec fuel s = Some (Returns s')).
Proof.
  intros Hpop H0 H1. split.
  - intros fuel s' H.
    destruct (current_elec_result s fuel Hpop H0 H) as (n & E & L & U).
    exists n. repeat split; try assumption. lra.
  - intro Hfin. apply current_elec_terminates; try assumption.
    apply composite_scores_after. exact Hfin.
Qed.

Lemma current_elec_overshoots_witness :
  (forall fuel s',
      current_elec fuel survey = Some (Returns s') ->
      exists n,
        gdf s' = A_gdf (current_elec_after (S n) survey)
        /\ electrified_pop (A_gdf (current_elec_after n survey))
           <= col_sum Calibrated_pop (gdf survey) * Elec_rate (specs survey)
        /\ col_sum Calibrated_pop (gdf survey) * Elec_rate (specs survey)
           < electrified_pop (gdf s')
        /\ electrified_pop (A_gdf (current_elec_after n survey))
           < electrified_pop (gdf s'))
  /\ (Forall is_finite (composite_scores survey) ->
      exists fuel s', current_elec fuel survey = Some (Returns s')).
Proof.
  apply (current_elec_overshoots survey); reflexivity.
Defined.

(** C1, as stated, fails on the survey (total population 200, target rate
    one tenth): the search returns with the two cells of 100 and 10
    people marked, 110 people against a target of 20. *)
Lemma current_elec_exceeds_target :
  current_elec 1 survey = Some (Returns after_phase_A)
  /\ 0 < col_sum Calibrated_pop (gdf survey)
  /\ 0 < Elec_rate (specs survey) /\ Elec_rate (specs survey) < 1
  /\ electrified_pop (gdf after_phase_A) == 110
  /\ Elec_rate (specs survey) * col_sum Calibrated_pop (gdf survey) == 20
  /\ ~ electrified_pop (gdf after_phase_A)
       <= Elec_rate (specs survey) * col_sum Calibrated_pop (gdf survey).
Proof.
  split; [vm_compute; reflexivity|].
  repeat split; try reflexivity.
  vm_compute. intro H. apply H. reflexivity.
Qed.

(** ** Facts on a pass of Phase B *)

Lemma final_elec_body_gdf (lo factor : Q) (st : phaseB) :
  B_gdf (final_elec_body lo factor st)
  = map (pass_row lo (B_i st) factor) (B_gdf st).
Proof.
  unfold final_elec_body, loc_set. cbn [B_gdf]. rewrite !map_map. reflexivity.
Qed.

Lemma Qdiv_le_compat (x y f : Q) : 0 < f -> x <= y -> x / f <= y / f.
Proof.
  intros Hf H. unfold Qdiv. apply Qmult_le_compat_r; [exact H|].
  apply Qinv_le_0_compat. lra.
Qed.

Lemma loc_sum_none (mask : row -> bool) (col : row -> Q) (g : list row) :
  Forall (fun r => mask r = false) g -> loc_sum mask col g = 0.
Proof.
  induction 1 as [|r g Hr F IH]; simpl; [reflexivity|]. now rewrite Hr.
Qed.

(** ** Both phases aim at the same target *)

Lemma final_elec_body_pop (lo factor : Q) (st : phaseB) :
  map Calibrated_pop (B_gdf (final_elec_body lo factor st))
  = map Calibrated_pop (B_gdf st).
Proof.
  unfold final_elec_body. cbn [B_gdf].
  rewrite !loc_set_keeps; reflexivity.
Qed.

(** The state the loop of Phase B returns: its guard fails, [elec_pop]
    is the electrified population of the marked cells, and the
    populations are those it started from. *)
Lemma final_elec_while_result (fuel : nat) (total_pop elec_rate lo factor : Q)
    (st st' : phaseB) :
  final_elec_while fuel total_pop elec_rate lo factor st = Some st' ->
  loc_sum is_electrified Elec_pop_calib (B_gdf st) = B_elec_pop st ->
  final_elec_guard total_pop elec_rate st' = false
  /\ loc_sum is_electrified Elec_pop_calib (B_gdf st') = B_elec_pop st'
  /\ map Calibrated_pop (B_gdf st') = map Calibrated_pop (B_gdf st).
Proof.
  revert st. induction fuel as [|fuel IH]; intros st H I; simpl in H;
    destruct (final_elec_guard total_pop elec_rate st) eqn:G;
    try discriminate; try (injection H as <-; auto).
  destruct (IH _ H eq_refl) as (G' & I' & P').
  rewrite final_elec_body_pop in P'. auto.
Qed.

Lemma final_elec_init_sum (s : OnSSTOVE) :
  loc_sum is_electrified Elec_pop_calib (B_gdf (final_elec_init s))
  = B_elec_pop (final_elec_init s).
Proof.
  unfold final_elec_init. cbn [B_gdf B_elec_pop].
  induction (gdf s) as [|r g IH]; [reflexivity|].
  cbn [map loc_sum]. rewrite IH. reflexivity.
Qed.

Lemma final_elec_finish_sum (g : list row) :
  loc_sum is_electrified Elec_pop_calib (final_elec_finish g)
  = loc_sum is_electrified Elec_pop_calib g.
Proof.
  unfold final_elec_finish, loc_set.
  induction g as [|r g IH]; [reflexivity|]. cbn [map loc_sum].
  rewrite IH. destruct (Current_elec r =? 0)%Z eqn:E; [|reflexivity].
  apply Z.eqb_eq in E. unfold is_electrified.
  cbn [Current_elec set_Elec_pop_calib]. rewrite E. reflexivity.
Qed.

Lemma current_elec_session (fuel : nat) (s s' : OnSSTOVE) :
  current_elec fuel s = Some (Returns s') ->
  specs s' = specs s
  /\ map Calibrated_pop (gdf s') = map Calibrated_pop (gdf s)
  /\ col_sum Calibrated_pop (gdf s) * Elec_rate (specs s)
     < electrified_pop (gdf s').
Proof.
  intro H.
  destruct (normalize_for_electricity_Returns s) as (s1 & N & Hsp & Hmap).
  unfold current_elec in H. rewrite N in H. rewrite Hsp in H.
  rewrite (col_sum_map Calibrated_pop _ (gdf s)) in H
    by (rewrite current_elec_init_pop; exact Hmap).
  destruct (current_elec_while fuel _ _ _) as [st|] eqn:W; [|discriminate].
  injection H as <-. cbn [gdf specs set_gdf set_self_i].
  destruct (current_elec_while_iter _ _ _ _ W) as (n & -> & G & _).
  split; [exact Hsp|]. split.
  - rewrite current_elec_iter_keeps by reflexivity.
    rewrite current_elec_init_pop. exact Hmap.
  - rewrite current_elec_iter_electrified.
    unfold current_elec_guard in G. apply Qltb_lt. unfold Qltb. now rewrite G.
Qed.

Lemma final_elec_session (fuel : nat) (s s' : OnSSTOVE) :
  final_elec fuel s = Some s' ->
  specs s' = specs s
  /\ map Calibrated_pop (gdf s') = map Calibrated_pop (gdf s)
  /\ loc_sum is_electrified Elec_pop_calib (gdf s')
     <= col_sum Calibrated_pop (gdf s) * Elec_rate (specs s).
Proof.
  unfold final_elec. intro H.
  destruct (final_elec_while fuel _ _ _ _ _) as [st|] eqn:W; [|discriminate].
  injection H as <-. cbn [gdf specs set_gdf].
  destruct (final_elec_while_result _ _ _ _ _ _ W (final_elec_init_sum s))
    as (G & I & P).
  assert (P0 : map Calibrated_pop (B_gdf (final_elec_init s))
               = map Calibrated_pop (gdf s)).
  { unfold final_elec_init. cbn [B_gdf]. rewrite map_map. reflexivity. }
  split; [reflexivity|]. split.
  - unfold final_elec_finish. rewrite loc_set_keeps by reflexivity.
    rewrite P. exact P0.
  - rewrite final_elec_finish_sum, I.
    unfold final_elec_guard in G. apply Qltb_ge in G.
    rewrite (col_sum_map Calibrated_pop _ (gdf s) P0) in G. exact G.
Qed.

(** C10.  In every run of [current_elec] followed by [final_elec], the
    scenario and the populations stay as they were, Phase A returns with
    the marked population strictly above [Elec_rate] times the total
    population, and Phase B returns with the electrified population of the
    marked cells at or below that same product: both stop against the one
    value [specs["Elec_rate"]]. *)
Theorem phases_share_target
    (s : OnSSTOVE) (fuelA fuelB : nat) (s1 s2 : OnSSTOVE) :
  current_elec fuelA s = Some (Returns s1) ->
  final_elec fuelB s1 = Some s2 ->
  specs s1 = specs s /\ specs s2 = specs s
  /\ col_sum Calibrated_pop (gdf s1) = col_sum Calibrated_pop (gdf s)
  /\ col_sum Calibrated_pop (gdf s2) = col_sum Calibrated_pop (gdf s)
  /\ col_sum Calibrated_pop (gdf s) * Elec_rate (specs s)
     < electrified_pop (gdf s1)
  /\ loc_sum is_electrified Elec_pop_calib (gdf s2)
     <= col_sum Calibrated_pop (gdf s) * Elec_rate (specs s).
Proof.
  intros HA HB.
  destruct (current_elec_session _ _ HA) as (SA & PA & UA).
  destruct (final_elec_session _ _ HB) as (SB & PB & LB).
  rewrite SA in *.
  assert (E1 : col_sum Calibrated_pop (gdf s1) = col_sum Calibrated_pop (gdf s))
    by (apply col_sum_map; exact PA).
  rewrite E1 in LB.
  repeat split; try assumption.
  apply col_sum_map. congruence.
Qed.

Lemma phases_share_target_witness :
  exists s2,
    final_elec 3 after_phase_A = Some s2
    /\ col_sum Calibrated_pop (gdf survey) * Elec_rate (specs survey)
       < electrified_pop (gdf after_phase_A)
    /\ loc_sum is_electrified Elec_pop_calib (gdf s2)
       <= col_sum Calibrated_pop (gdf survey) * Elec_rate (specs survey).
Proof.
  destruct (final_elec 3 after_phase_A) as [s2|] eqn:HB;
    [|vm_compute in HB; discriminate HB].
  assert (HA : current_elec 1 survey = Some (Returns after_phase_A))
    by (vm_compute; reflexivity).
  destruct (@phases_share_target survey 1%nat 3%nat _ _ HA HB)
    as (_ & _ & _ & _ & U & L).
  exists s2. repeat split; assumption.
Defined.

(** ** Urban classifier *)

(** The loop stops within 501 passes, whatever the table. *)
Lemma calibrate_urban_while_terminates (fuel : nat)
    (cell pop_tot urban_current : Q) (st : urban) :
  (U_i st <= 500)%Z ->
  (501 - U_i st <= Z.of_nat fuel)%Z ->
  exists st',
    calibrate_urban_while fuel cell pop_tot urban_current st = Some st'
    /\ (U_i st' <= 501)%Z.
Proof.
  revert st. induction fuel as [|fuel IH]; intros st Hi Hf.
  - lia.
  - cbn [calibrate_urban_while].
    destruct (calibrate_urban_guard urban_current st).
    + destruct (500 <? U_i (calibrate_urban_body cell pop_tot urban_current st))%Z
        eqn:B.
      * eexists. split; [reflexivity|].
        unfold calibrate_urban_body. cbn [U_i]. lia.
      * apply Z.ltb_ge in B. apply IH; [exact B|].
        unfold calibrate_urban_body in *. cbn [U_i] in *. lia.
    + eexists. split; [reflexivity | lia].
Qed.

Lemma calibrate_urban_terminates (s : OnSSTOVE) :
  exists st, calibrate_urban_run 501 s = Some st /\ (U_i st <= 501)%Z.
Proof.
  unfold calibrate_urban_run.
  apply calibrate_urban_while_terminates; cbn [U_i calibrate_urban_init]; lia.
Qed.

(** C9, at the failing input.  On the hamlet the modelled share is 0 or
    1 on every pass, never within 0.01 of the target 0.5; 500 passes do
    not end the loop, and it stops after pass 501 with [i = 501]. *)
Theorem calibrate_urban_runs_501_passes :
  calibrate_urban_run 500 hamlet = None
  /\ exists st, calibrate_urban_run 501 hamlet = Some st
                /\ U_i st = 501%Z
                /\ calibrate_urban_guard (Urban_start (specs hamlet)) st = true.
Proof.
  split; [vm_compute; reflexivity|].
  eexists. split; [vm_compute; reflexivity|].
  split; vm_compute; reflexivity.
Qed.

(** The classifier of [raster.py] has the same counter and the same
    break: one cluster of 100 people on 1 km2 with target 0.5 takes 501
    passes. *)
Lemma raster_calibrate_urban_runs_501_passes :
  raster.calibrate_urban 500 [raster.mkCluster 100 1 0] (1 # 2) = None
  /\ exists st,
       raster.calibrate_urban 501 [raster.mkCluster 100 1 0] (1 # 2) = Some st
       /\ raster.i st = 501%Z.
Proof.
  split; [vm_compute; reflexivity|].
  eexists. split; vm_compute; reflexivity.
Qed.

(** ** Households *)

(** X13.  What [number_of_households] does to a cell, by its [IsUrban]
    code: below 20 it gets [Calibrated_pop / Rural_HHsize], above 20 it
    gets [Calibrated_pop / Urban_HHsize], and at 20 it keeps the entry it
    had; the population and the code are left as they are. *)
Lemma number_of_households_by_code (s : OnSSTOVE) (k : nat) (r : row) :
  ~ Rural_HHsize (specs s) == 0 ->
  ~ Urban_HHsize (specs s) == 0 ->
  nth_error (gdf s) k = Some r ->
  exists r',
    nth_error (gdf (number_of_households s)) k = Some r'
    /\ Calibrated_pop r' = Calibrated_pop r
    /\ IsUrban r' = IsUrban r
    /\ ((IsUrban r < 20)%Z ->
        Households r' = Some (Calibrated_pop r / Rural_HHsize (specs s)))
    /\ ((20 < IsUrban r)%Z ->
        Households r' = Some (Calibrated_pop r / Urban_HHsize (specs s)))
    /\ (IsUrban r = 20%Z -> Households r' = Households r).
Proof.
  intros _ _ H. unfold number_of_households. cbn [gdf set_gdf].
  eexists. split.
  - erewrite nth_error_loc_set; [reflexivity|].
    erewrite nth_error_loc_set; [reflexivity | exact H].
  - destruct (IsUrban r <? 20)%Z eqn:L; cbn [IsUrban set_Households].
    + apply Z.ltb_lt in L.
      destruct (20 <? IsUrban r)%Z eqn:U; [apply Z.ltb_lt in U; lia|].
      repeat split; intros; try lia; reflexivity.
    + apply Z.ltb_ge in L.
      destruct (20 <? IsUrban r)%Z eqn:U.
      * apply Z.ltb_lt in U. repeat split; intros; try lia; reflexivity.
      * apply Z.ltb_ge in U. repeat split; intros; try lia; reflexivity.
Qed.

(** The classifier writes the codes 0, 1 and 2 only. *)
Lemma classify_codes (cell factor : Q) (g : list row) :
  Forall (fun r => IsUrban r = 0%Z \/ IsUrban r = 1%Z \/ IsUrban r = 2%Z)
         (classify cell factor g).
Proof.
  unfold classify, loc_set. rewrite !map_map. apply Forall_map.
  apply Forall_forall. intros r _. cbv beta.
  destruct (is_peri_urban cell factor (set_IsUrban 0 r));
    match goal with
    | |- context [is_urban cell factor ?x] =>
        destruct (is_urban cell factor x)
    end; cbn; auto.
Qed.

(** Whatever the table and the factor, every cell the classifier has
    classified gets the rural household size. *)
Lemma classified_cells_get_rural_size (s : OnSSTOVE) (cell factor : Q)
    (k : nat) (r : row) :
  nth_error (classify cell factor (gdf s)) k = Some r ->
  exists r',
    nth_error
      (gdf (number_of_households (set_gdf (classify cell factor (gdf s)) s)))
      k = Some r'
    /\ Households r' = Some (Calibrated_pop r / Rural_HHsize (specs s)).
Proof.
  intro H. unfold number_of_households. cbn [gdf set_gdf specs].
  pose proof (classify_codes cell factor (gdf s)) as C.
  apply nth_error_In in H as Hin.
  pose proof (proj1 (Forall_forall _ _) C r Hin) as Hr. cbv beta in Hr.
  eexists. split.
  - erewrite nth_error_loc_set; [reflexivity|].
    erewrite nth_error_loc_set; [reflexivity | exact H].
  - destruct Hr as [E | [E | E]]; rewrite E;
      cbn [Z.ltb Z.compare Pos.compare Pos.compare_cont IsUrban
           set_Households];
      rewrite E; reflexivity.
Qed.

(** C6, at the failing input.  On the town the classifier stops after
    one pass with the town classified urban (code 2) and the village
    rural (code 0); [number_of_households] then gives the town
    60000 / 5 = 12000 households, by the rural household size, and not
    60000 / 4 = 15000. *)
Theorem urban_cell_gets_rural_size :
  exists s1 r h,
    calibrate_urban_manual 501 town = Some s1
    /\ nth_error (gdf (number_of_households s1)) 0 = Some r
    /\ Calibrated_pop r == 60000
    /\ IsUrban r = 2%Z
    /\ Households r = Some h
    /\ h == Calibrated_pop r / Rural_HHsize (specs town)
    /\ h == 12000
    /\ ~ h == Calibrated_pop r / Urban_HHsize (specs town).
Proof.
  eexists. eexists. eexists.
  split; [vm_compute; reflexivity|].
  split; [vm_compute; reflexivity|].
  repeat split; try reflexivity.
  vm_compute. discriminate.
Qed.

(** A cell whose code is exactly 20 is given no household count. *)
Lemma code_20_gets_no_households :
  map Households
    (gdf (number_of_households
            (set_gdf [set_IsUrban 20 (cell 1000 NaN)] town)))
  = [None].
Proof. reflexivity. Qed.

(** * Further properties of the code *)

(** ** The composite score *)

Lemma weigh_unit (sp : Specs) (e p n : fnum) :
  0 <= infra_weight sp -> 0 <= Min_Elec_Pop sp -> 0 <= Min_Night_Lights sp ->
  0 < infra_weight sp + Min_Elec_Pop sp + Min_Night_Lights sp ->
  in_unit_interval e -> in_unit_interval p -> in_unit_interval n ->
  in_unit_interval (weigh sp e p n).
Proof.
  intros Wi Wp Wn W He Hp Hn.
  destruct e as [a| | |], p as [b| | |], n as [c| | |]; try contradiction.
  unfold weigh. cbn [fmul fadd fdiv].
  assert (Z : Qeq_bool (infra_weight sp + Min_Elec_Pop sp + Min_Night_Lights sp) 0
              = false) by (apply Qeq_bool_false; lra).
  rewrite Z. cbn [in_unit_interval] in *.
  destruct He as [A0 A1], Hp as [B0 B1], Hn as [C0 C1]. split.
  - apply Qle_shift_div_l; [exact W|]. nra.
  - apply Qle_shift_div_r; [exact W|]. nra.
Qed.

Lemma assign_combined_weight_unit (sp : Specs) (g : list row)
    (e p n : list fnum) :
  0 <= infra_weight sp -> 0 <= Min_Elec_Pop sp -> 0 <= Min_Night_Lights sp ->
  0 < infra_weight sp + Min_Elec_Pop sp + Min_Night_Lights sp ->
  Forall in_unit_interval e -> Forall in_unit_interval p ->
  Forall in_unit_interval n ->
  Forall in_unit_interval
    (map combined_weight (assign_combined_weight sp g e p n)).
Proof.
  intros Wi Wp Wn W He. revert g p n.
  induction He as [|x e Hx He IH]; intros [|r g] p n Hp Hn;
    try (constructor; fail).
  destruct Hp as [|y p Hy Hp]; [constructor|].
  destruct Hn as [|z n Hz Hn]; [constructor|].
  cbn [assign_combined_weight map combined_weight set_combined_weight].
  constructor; [apply weigh_unit; assumption | apply IH; assumption].
Qed.

(** The column [normalized] returns, as a map over the column it reads. *)
Lemma normalized_column (g : list row) (column : row -> Q) (inverse : bool)
    (out : list fnum) :
  normalized g column inverse = Returns out ->
  out = map (fun x =>
               if inverse
               then fdiv (fsub (series_max (map column g)) (Fin x))
                         (fsub (series_max (map column g))
                               (series_min (map column g)))
               else fdiv (fsub (Fin x) (series_min (map column g)))
                         (fsub (series_max (map column g))
                               (series_min (map column g))))
            (map column g).
Proof.
  unfold normalized. destruct inverse; intro H; injection H as <-; reflexivity.
Qed.

Lemma normalized_unit (g : list row) (column : row -> Q) (inverse : bool)
    (out : list fnum) :
  zero_range (map column g) = false ->
  normalized g column inverse = Returns out ->
  Forall in_unit_interval out.
Proof.
  intros Hz H. rewrite (normalized_column _ _ _ H).
  apply Forall_map, Forall_forall. intros x Hx.
  destruct (normalized_entry _ x Hz Hx)
    as (d & Ed & v & Ev & D0 & D1 & V0 & V1 & _).
  destruct inverse; [rewrite Ev | rewrite Ed]; split; assumption.
Qed.

Lemma composite_scores_length (s : OnSSTOVE) :
  List.length (composite_scores s) = List.length (gdf s).
Proof.
  unfold composite_scores.
  destruct (normalize_for_electricity_Returns s) as (s1 & -> & _ & E).
  apply (f_equal (@List.length Q)) in E. rewrite !length_map in *. exact E.
Qed.

(** X1.  When each of the three columns the score is made of (distance to
    the grid, night lights, population) has a maximum above its minimum,
    the three weights are not negative and their sum is positive, then
    [normalize_for_electricity] gives every cell a finite score between 0
    and 1, one score per row. *)
Theorem composite_scores_unit_interval (s : OnSSTOVE) :
  zero_range (map (select_Elec_dist s) (gdf s)) = false ->
  zero_range (map Night_lights (gdf s)) = false ->
  zero_range (map Calibrated_pop (gdf s)) = false ->
  0 <= infra_weight (specs s) -> 0 <= Min_Elec_Pop (specs s) ->
  0 <= Min_Night_Lights (specs s) ->
  0 < infra_weight (specs s) + Min_Elec_Pop (specs s)
      + Min_Night_Lights (specs s) ->
  List.length (composite_scores s) = List.length (gdf s)
  /\ Forall in_unit_interval (composite_scores s).
Proof.
  intros Ze Zn Zp Wi Wp Wn W. split; [apply composite_scores_length|].
  unfold composite_scores, normalize_for_electricity.
  set (g := map (fun r => set_Elec_dist (select_Elec_dist s r) r) (gdf s)).
  assert (Ee : map Elec_dist g = map (select_Elec_dist s) (gdf s))
    by (unfold g; rewrite map_map; reflexivity).
  assert (En : map Night_lights g = map Night_lights (gdf s))
    by (unfold g; rewrite map_map; reflexivity).
  assert (Ep : map Calibrated_pop g = map Calibrated_pop (gdf s))
    by (unfold g; rewrite map_map; reflexivity).
  rewrite <- Ee in Ze. rewrite <- En in Zn. rewrite <- Ep in Zp.
  destruct (normalized g Elec_dist true) as [e|x] eqn:He; [|discriminate He].
  destruct (normalized g Night_lights false) as [n|x] eqn:Hn;
    [|discriminate Hn].
  destruct (normalized g Calibrated_pop false) as [p|x] eqn:Hp;
    [|discriminate Hp].
  cbn [bind gdf set_gdf].
  apply assign_combined_weight_unit; try assumption.
  - exact (normalized_unit _ _ _ Ze He).
  - exact (normalized_unit _ _ _ Zp Hp).
  - exact (normalized_unit _ _ _ Zn Hn).
Qed.

Lemma composite_scores_unit_interval_witness :
  List.length (composite_scores survey) = List.length (gdf survey)
  /\ Forall in_unit_interval (composite_scores survey).
Proof.
  apply (composite_scores_unit_interval survey);
    try reflexivity; vm_compute; discriminate.
Defined.

(** ** Searches that never return *)

Lemma normalized_all_nan (g : list row) (column : row -> Q) (inverse : bool)
    (out : list fnum) :
  zero_range (map column g) = true ->
  normalized g column inverse = Returns out ->
  Forall (fun w => w = NaN) out.
Proof.
  intros Hz H. rewrite (normalized_column _ _ _ H).
  apply Forall_map, Forall_forall. intros x Hx.
  destruct (degenerate_entry _ x Hz Hx) as (D & V).
  destruct inverse; assumption.
Qed.

(** NaN in one of the three terms makes the score NaN, whatever the
    weights. *)
Lemma weigh_nan (sp : Specs) (e p n : fnum) :
  e = NaN \/ p = NaN \/ n = NaN -> weigh sp e p n = NaN.
Proof.
  unfold weigh. intros [-> | [-> | ->]].
  - reflexivity.
  - destruct e as [a| | |]; cbn [fmul]; try reflexivity;
      try (unfold inf_times; destruct (Qeq_bool _ 0); [reflexivity|];
           destruct (Bool.eqb _ _); reflexivity).
  - cbn [fmul].
    destruct (fadd (fmul e (Fin (infra_weight sp)))
                   (fmul p (Fin (Min_Elec_Pop sp)))); reflexivity.
Qed.

Lemma assign_combined_weight_nan (sp : Specs) (g : list row)
    (e p n : list fnum) :
  Forall (fun w => w = NaN) e \/ Forall (fun w => w = NaN) p
  \/ Forall (fun w => w = NaN) n ->
  Forall (fun w => w = NaN)
    (map combined_weight (assign_combined_weight sp g e p n)).
Proof.
  revert e p n. induction g as [|r g IH]; intros [|x e] [|y p] [|z n] H;
    try (constructor; fail).
  cbn [assign_combined_weight map combined_weight set_combined_weight].
  constructor.
  - apply weigh_nan.
    destruct H as [H | [H | H]]; inversion H; subst; auto.
  - apply IH.
    destruct H as [H | [H | H]]; inversion H; subst; auto.
Qed.

Lemma composite_scores_nan (s : OnSSTOVE) :
  zero_range (map (select_Elec_dist s) (gdf s)) = true
  \/ zero_range (map Night_lights (gdf s)) = true
  \/ zero_range (map Calibrated_pop (gdf s)) = true ->
  composite_scores s = map (fun _ => NaN) (gdf s).
Proof.
  intro Z. pose proof (composite_scores_length s) as L.
  assert (F : Forall (fun w => w = NaN) (composite_scores s)).
  { unfold composite_scores, normalize_for_electricity.
    set (g := map (fun r => set_Elec_dist (select_Elec_dist s r) r) (gdf s)).
    assert (Ee : map Elec_dist g = map (select_Elec_dist s) (gdf s))
      by (unfold g; rewrite map_map; reflexivity).
    assert (En : map Night_lights g = map Night_lights (gdf s))
      by (unfold g; rewrite map_map; reflexivity).
    assert (Ep : map Calibrated_pop g = map Calibrated_pop (gdf s))
      by (unfold g; rewrite map_map; reflexivity).
    rewrite <- Ee, <- En, <- Ep in Z.
    destruct (normalized g Elec_dist true) as [e|x] eqn:He; [|discriminate He].
    destruct (normalized g Night_lights false) as [n|x] eqn:Hn;
      [|discriminate Hn].
    destruct (normalized g Calibrated_pop false) as [p|x] eqn:Hp;
      [|discriminate Hp].
    cbn [bind gdf set_gdf].
    apply assign_combined_weight_nan.
    destruct Z as [Z | [Z | Z]].
    - left. exact (normalized_all_nan _ _ _ Z He).
    - right. right. exact (normalized_all_nan _ _ _ Z Hn).
    - right. left. exact (normalized_all_nan _ _ _ Z Hp). }
  revert L F. generalize (composite_scores s). generalize (gdf s).
  induction l as [|r g IH]; intros [|w ws] L F; try discriminate;
    [reflexivity|].
  inversion F; subst. cbn [map]. f_equal.
  apply IH; [now injection L | assumption].
Qed.

(** The loop makes every pass whose guard holds: when the guard holds at
    every pass count, no amount of fuel brings a result. *)
Lemma current_elec_while_diverges (total_pop elec_rate : Q) (fuel : nat)
    (st : phaseA) :
  (forall n, current_elec_guard total_pop elec_rate (current_elec_iter n st)
             = true) ->
  current_elec_while fuel total_pop elec_rate st = None.
Proof.
  revert st. induction fuel as [|fuel IH]; intros st H;
    cbn [current_elec_while].
  - pose proof (H O) as G. cbn [current_elec_iter] in G. rewrite G.
    reflexivity.
  - pose proof (H O) as G. cbn [current_elec_iter] in G. rewrite G.
    apply IH. intro n. exact (H (S n)).
Qed.

Lemma current_elec_diverges (s : OnSSTOVE) :
  (forall n,
      A_elec_pop (current_elec_after n s)
      <= col_sum Calibrated_pop (gdf s) * Elec_rate (specs s)) ->
  forall fuel, current_elec fuel s = None.
Proof.
  intros H fuel.
  destruct (normalize_for_electricity_Returns s) as (s1 & N & Hsp & Hmap).
  unfold current_elec. unfold current_elec_after in H. rewrite N in *.
  rewrite Hsp.
  rewrite (col_sum_map Calibrated_pop _ (gdf s))
    by (rewrite current_elec_init_pop; exact Hmap).
  rewrite current_elec_while_diverges; [reflexivity|].
  intro n. unfold current_elec_guard. apply Qle_bool_iff. apply H.
Qed.

Lemma loc_sum_le_col_sum (mask : row -> bool) (col : row -> Q) (g : list row) :
  Forall (fun r => 0 <= col r) g ->
  0 <= loc_sum mask col g /\ loc_sum mask col g <= col_sum col g.
Proof.
  unfold col_sum. induction 1 as [|r g Hr F IH]; simpl; [lra|].
  destruct (mask r); lra.
Qed.

Lemma current_elec_after_pop (n : nat) (s : OnSSTOVE) :
  map Calibrated_pop (A_gdf (current_elec_after n s))
  = map Calibrated_pop (gdf s).
Proof.
  unfold current_elec_after.
  destruct (normalize_for_electricity_Returns s) as (s1 & -> & _ & Hmap).
  rewrite current_elec_iter_keeps by reflexivity.
  rewrite current_elec_init_pop. exact Hmap.
Qed.

Lemma current_elec_after_S (n : nat) (s : OnSSTOVE) :
  current_elec_after (S n) s = current_elec_body (current_elec_after n s).
Proof.
  unfold current_elec_after.
  destruct (normalize_for_electricity_Returns s) as (s1 & -> & _).
  apply current_elec_iter_S.
Qed.

Lemma current_elec_after_0 (s : OnSSTOVE) :
  A_elec_pop (current_elec_after 0 s) = 0.
Proof.
  unfold current_elec_after.
  destruct (normalize_for_electricity_Returns s) as (s1 & -> & _).
  reflexivity.
Qed.

Lemma current_elec_after_scores (n : nat) (s : OnSSTOVE) :
  map combined_weight (A_gdf (current_elec_after n s)) = composite_scores s.
Proof.
  unfold current_elec_after, composite_scores.
  destruct (normalize_for_electricity_Returns s) as (s1 & -> & _).
  rewrite current_elec_iter_keeps by reflexivity.
  unfold current_elec_init. cbn [A_gdf]. rewrite map_map. reflexivity.
Qed.

(** X2.  When one of the three columns of the score is constant over the
    table (its maximum equals its minimum), every composite score is NaN,
    whatever the weights, also a weight of zero; no threshold then
    selects a cell, the electrified population stays 0, and
    [current_elec] never returns when the target [total_pop * Elec_rate]
    is not negative. *)
Theorem degenerate_column_blocks_current_elec (s : OnSSTOVE) :
  zero_range (map (select_Elec_dist s) (gdf s)) = true
  \/ zero_range (map Night_lights (gdf s)) = true
  \/ zero_range (map Calibrated_pop (gdf s)) = true ->
  composite_scores s = map (fun _ => NaN) (gdf s)
  /\ (0 <= col_sum Calibrated_pop (gdf s) * Elec_rate (specs s) ->
      forall fuel, current_elec fuel s = None).
Proof.
  intro Z. split; [exact (composite_scores_nan s Z)|].
  intro T. apply current_elec_diverges. intro n.
  destruct n as [|n].
  - rewrite current_elec_after_0. exact T.
  - rewrite current_elec_after_S. unfold current_elec_body. cbn [A_elec_pop].
    rewrite loc_sum_none; [exact T|].
    apply (proj1 (Forall_map combined_weight
                    (fun w => fge w (Fin (A_i (current_elec_after n s)))
                              = false) _)).
    rewrite current_elec_after_scores.
    rewrite (composite_scores_nan s Z).
    apply Forall_map. apply Forall_forall. intros r _. reflexivity.
Qed.

Lemma degenerate_column_blocks_current_elec_witness :
  composite_scores (unlit (1 # 2)) = [NaN; NaN]
  /\ (0 <= col_sum Calibrated_pop (gdf (unlit (1 # 2)))
           * Elec_rate (specs (unlit (1 # 2))) ->
      forall fuel, current_elec fuel (unlit (1 # 2)) = None).
Proof.
  apply (degenerate_column_blocks_current_elec (unlit (1 # 2))).
  right. left. reflexivity.
Defined.

(** X3.  On a table whose populations are not negative, when the target
    [total_pop * Elec_rate] is at least the total population (a rate of 1
    or more; any rate on an empty table or one without people),
    [current_elec] never returns: the population it has marked never
    exceeds the target, so the guard of its loop holds on every pass. *)
Theorem current_elec_never_exceeds_full_target (s : OnSSTOVE) :
  Forall (fun r => 0 <= Calibrated_pop r) (gdf s) ->
  col_sum Calibrated_pop (gdf s)
    <= col_sum Calibrated_pop (gdf s) * Elec_rate (specs s) ->
  forall fuel, current_elec fuel s = None.
Proof.
  intros Hpop Hrate. apply current_elec_diverges. intro n.
  destruct (@loc_sum_le_col_sum (fun _ => true) Calibrated_pop _ Hpop)
    as [T _]. fold (col_sum Calibrated_pop (gdf s)) in T.
  destruct n as [|n].
  - rewrite current_elec_after_0. lra.
  - rewrite current_elec_after_S. unfold current_elec_body. cbn [A_elec_pop].
    assert (F : Forall (fun r => 0 <= Calibrated_pop r)
                  (A_gdf (current_elec_after n s))).
    { apply (proj1 (Forall_map Calibrated_pop (fun p => 0 <= p) _)).
      rewrite current_elec_after_pop. apply Forall_map. exact Hpop. }
    destruct (@loc_sum_le_col_sum
                (fun r => fge (combined_weight r)
                              (Fin (A_i (current_elec_after n s))))
                Calibrated_pop _ F)
      as [_ U].
    rewrite (col_sum_map Calibrated_pop _ (gdf s)) in U
      by apply current_elec_after_pop.
    lra.
Qed.

Lemma current_elec_never_exceeds_full_target_witness :
  current_elec 1000 (session (gdf survey) 1) = None.
Proof.
  apply (@current_elec_never_exceeds_full_target (session (gdf survey) 1)).
  - repeat constructor; vm_compute; discriminate.
  - vm_compute. discriminate.
Defined.

(** ** The marks of Phase A *)

Lemma fge_Qeq (w : fnum) (a b : Q) :
  a == b -> fge w (Fin a) = fge w (Fin b).
Proof.
  intro E. unfold fge, fle. destruct w as [q| | |]; try reflexivity.
  destruct (Qle_bool a q) eqn:A, (Qle_bool b q) eqn:B; try reflexivity.
  - apply Qle_bool_iff in A. apply not_true_iff_false in B. exfalso. apply B.
    apply Qle_bool_iff. lra.
  - apply Qle_bool_iff in B. apply not_true_iff_false in A. exfalso. apply A.
    apply Qle_bool_iff. lra.
Qed.

(** A pass turns marks that are 0 or justified by the threshold of the
    pass before into the marks of its own threshold. *)
Lemma current_elec_body_marks (st : phaseA) :
  Forall (fun r => Current_elec r = 0%Z
                   \/ fge (combined_weight r) (Fin (A_i st + step)) = true)
         (A_gdf st) ->
  Forall (fun r => Current_elec r
                   = mark_at (A_i (current_elec_body st) + step) r)
         (A_gdf (current_elec_body st)).
Proof.
  unfold current_elec_body, loc_set, mark_at. cbn [A_gdf A_i]. intro F.
  apply Forall_map. eapply Forall_impl; [|exact F]. intros r Hr. cbv beta in *.
  assert (E : fge (combined_weight r) (Fin (A_i st - step + step))
              = fge (combined_weight r) (Fin (A_i st)))
    by (apply fge_Qeq; ring).
  destruct (fge (combined_weight r) (Fin (A_i st))) eqn:M.
  - cbn [combined_weight set_Current_elec Current_elec]. rewrite E.
    reflexivity.
  - rewrite E. destruct Hr as [Z | U]; [exact Z|].
    pose proof step_pos as P.
    assert (C : fge (combined_weight r) (Fin (A_i st)) = true)
      by (apply (fge_lower _ U); lra).
    congruence.
Qed.

Lemma current_elec_iter_marks (n : nat) (s : OnSSTOVE) :
  Forall (fun r => Current_elec r = 0%Z
                   \/ fge (combined_weight r)
                          (Fin (A_i (current_elec_iter n (current_elec_init s))
                                + step)) = true)
         (A_gdf (current_elec_iter n (current_elec_init s))).
Proof.
  induction n as [|n IH].
  - unfold current_elec_init. cbn [current_elec_iter A_gdf].
    apply Forall_map. apply Forall_forall. intros r _. left. reflexivity.
  - rewrite current_elec_iter_S.
    eapply Forall_impl; [|apply current_elec_body_marks; exact IH].
    intros r Hr. cbv beta in *. rewrite Hr. unfold mark_at.
    destruct (fge _ _); auto.
Qed.

(** X4.  When [current_elec] returns on a target that is not negative,
    it has made at least one pass, the threshold it stores in [self.i] is
    [1 - n * 0.0001] for the number [n >= 1] of passes, the scores are
    those of [normalize_for_electricity], and [Current_elec] is 1 exactly
    on the cells whose score is at or above [self.i + 0.0001], the
    threshold of the last pass, and 0 on every other cell. *)
Theorem current_elec_marks_by_threshold (fuel : nat) (s s' : OnSSTOVE) :
  current_elec fuel s = Some (Returns s') ->
  0 <= col_sum Calibrated_pop (gdf s) * Elec_rate (specs s) ->
  map combined_weight (gdf s') = composite_scores s
  /\ (exists n, self_i s' == 1 - nat_Q (S n) * step)
  /\ Forall (fun r => Current_elec r = mark_at (self_i s' + step) r) (gdf s').
Proof.
  intros H T.
  destruct (normalize_for_electricity_Returns s) as (s1 & N & Hsp & Hmap).
  unfold current_elec in H. unfold composite_scores. rewrite N in *.
  rewrite Hsp in H.
  rewrite (col_sum_map Calibrated_pop _ (gdf s)) in H
    by (rewrite current_elec_init_pop; exact Hmap).
  destruct (current_elec_while fuel _ _ _) as [st|] eqn:W; [|discriminate].
  injection H as <-. cbn [gdf self_i set_gdf set_self_i].
  destruct (current_elec_while_iter _ _ _ _ W) as (n & -> & G & P).
  split.
  { rewrite current_elec_iter_keeps by reflexivity.
    unfold current_elec_init. cbn [A_gdf]. rewrite map_map. reflexivity. }
  destruct P as [-> | (m & -> & Gm)].
  - exfalso. unfold current_elec_guard in G. cbn in G.
    apply not_true_iff_false in G. apply G. apply Qle_bool_iff. exact T.
  - split.
    + exists m. rewrite A_i_iter. reflexivity.
    + rewrite current_elec_iter_S. apply current_elec_body_marks.
      apply current_elec_iter_marks.
Qed.

Lemma current_elec_marks_by_threshold_witness :
  map combined_weight (gdf after_phase_A) = composite_scores survey
  /\ (exists n, self_i after_phase_A == 1 - nat_Q (S n) * step)
  /\ Forall (fun r => Current_elec r = mark_at (self_i after_phase_A + step) r)
       (gdf after_phase_A).
Proof.
  apply (@current_elec_marks_by_threshold 1 survey after_phase_A).
  - vm_compute. reflexivity.
  - vm_compute. discriminate.
Defined.

(** ** What Phase B leaves alone *)

Lemma trimmed_refl (r : row) : trimmed r r.
Proof.
  exists (Elec_pop_calib r), (Current_elec r). split; [|now left].
  destruct r; reflexivity.
Qed.

Lemma trimmed_trans (a b c : row) : trimmed a b -> trimmed b c -> trimmed a c.
Proof.
  intros (e1 & c1 & -> & H1) (e2 & c2 & -> & H2).
  exists e2, c2. split; [reflexivity|].
  cbn [Current_elec set_Current_elec] in H2.
  destruct H2 as [-> | ->]; auto.
Qed.

Lemma trimmed_Elec (v : Q) (r : row) : trimmed r (set_Elec_pop_calib v r).
Proof.
  exists v, (Current_elec r). split; [|now left]. reflexivity.
Qed.

Lemma trimmed_clear (r : row) : trimmed r (set_Current_elec 0 r).
Proof.
  exists (Elec_pop_calib r), 0%Z. split; [|now right].
  destruct r; reflexivity.
Qed.

Lemma pass_row_trimmed (lo hi factor : Q) (r : row) :
  trimmed r (pass_row lo hi factor r).
Proof.
  unfold pass_row. cbv zeta.
  set (r1 := if in_band lo hi r then _ else r).
  assert (T1 : trimmed r r1)
    by (unfold r1; destruct (in_band lo hi r);
        [apply trimmed_Elec | apply trimmed_refl]).
  set (r2 := if Qltb (Elec_pop_calib r1) 0 then _ else r1).
  assert (T2 : trimmed r1 r2)
    by (unfold r2; destruct (Qltb (Elec_pop_calib r1) 0);
        [apply trimmed_Elec | apply trimmed_refl]).
  assert (T3 : trimmed r2 (if Qeq_bool (Elec_pop_calib r2) 0
                           then set_Current_elec 0 r2 else r2))
    by (destruct (Qeq_bool (Elec_pop_calib r2) 0);
        [apply trimmed_clear | apply trimmed_refl]).
  exact (trimmed_trans (trimmed_trans T1 T2) T3).
Qed.

Lemma Forall2_trimmed_map (f : row -> row) (g : list row) :
  (forall r, trimmed r (f r)) -> Forall2 trimmed g (map f g).
Proof.
  intro H. induction g as [|r g IH]; simpl; constructor; auto.
Qed.

Lemma Forall2_trimmed_trans (a b c : list row) :
  Forall2 trimmed a b -> Forall2 trimmed b c -> Forall2 trimmed a c.
Proof.
  intro H. revert c. induction H as [|x y a b Hxy Hab IH]; intros c Hc;
    inversion Hc; subst; constructor.
  - eapply trimmed_trans; eassumption.
  - apply IH. assumption.
Qed.

Lemma final_elec_while_trimmed (fuel : nat) (total_pop elec_rate lo factor : Q)
    (st st' : phaseB) :
  final_elec_while fuel total_pop elec_rate lo factor st = Some st' ->
  Forall2 trimmed (B_gdf st) (B_gdf st').
Proof.
  assert (R : forall g, Forall2 trimmed g g).
  { intro g. rewrite <- (map_id g) at 2.
    apply Forall2_trimmed_map. apply trimmed_refl. }
  revert st. induction fuel as [|fuel IH]; intros st H; simpl in H;
    destruct (final_elec_guard total_pop elec_rate st) eqn:G;
    try discriminate; try (injection H as <-; apply R).
  apply IH in H. refine (Forall2_trimmed_trans _ H).
  rewrite final_elec_body_gdf. apply Forall2_trimmed_map.
  apply pass_row_trimmed.
Qed.

(** X5.  [final_elec] only trims: in the table it returns, row by row,
    every column but [Elec_pop_calib] and [Current_elec] is as it was,
    [Current_elec] is as it was or 0 (no cell is newly marked), a cell
    with [Current_elec = 0] has [Elec_pop_calib = 0], and the threshold
    [self.i] and the scenario are unchanged. *)
Theorem final_elec_only_trims (fuel : nat) (s s' : OnSSTOVE) :
  final_elec fuel s = Some s' ->
  Forall2 trimmed (gdf s) (gdf s')
  /\ Forall (fun r => Current_elec r = 0%Z -> Elec_pop_calib r = 0) (gdf s')
  /\ self_i s' = self_i s /\ specs s' = specs s.
Proof.
  unfold final_elec. intro H.
  destruct (final_elec_while fuel _ _ _ _ _) as [st|] eqn:W; [|discriminate].
  injection H as <-. cbn [gdf specs self_i set_gdf].
  split; [|split; [|split; reflexivity]].
  - apply final_elec_while_trimmed in W.
    eapply Forall2_trimmed_trans;
      [|eapply Forall2_trimmed_trans; [exact W|]].
    + unfold final_elec_init. cbn [B_gdf]. apply Forall2_trimmed_map.
      intro r. apply trimmed_Elec.
    + unfold final_elec_finish, loc_set. apply Forall2_trimmed_map.
      intro r. destruct (Current_elec r =? 0)%Z;
        [apply trimmed_Elec | apply trimmed_refl].
  - unfold final_elec_finish, loc_set. apply Forall_map.
    apply Forall_forall. intros r _.
    destruct (Current_elec r =? 0)%Z eqn:E.
    + intros _. reflexivity.
    + apply Z.eqb_neq in E. intro C. contradiction.
Qed.

Lemma final_elec_only_trims_witness :
  exists s',
    final_elec 3 after_phase_A = Some s'
    /\ Forall2 trimmed (gdf after_phase_A) (gdf s')
    /\ Forall (fun r => Current_elec r = 0%Z -> Elec_pop_calib r = 0) (gdf s')
    /\ self_i s' = self_i after_phase_A /\ specs s' = specs after_phase_A.
Proof.
  destruct (final_elec 3 after_phase_A) as [s'|] eqn:H;
    [|vm_compute in H; discriminate H].
  exists s'. split; [reflexivity|].
  exact (@final_elec_only_trims 3 after_phase_A s' H).
Defined.

(** ** Phase B, in double precision *)

Lemma binary64_loc_sum_map (rnd : Q -> Q) (mask : row -> bool)
    (col col' : row -> Q) (f : row -> row) (g : list row) :
  (forall r, mask (f r) = mask r) -> (forall r, col (f r) = col' r) ->
  binary64.loc_sum rnd mask col (map f g) = binary64.loc_sum rnd mask col' g.
Proof.
  intros Hm Hc. unfold binary64.loc_sum. generalize 0.
  induction g as [|r g IH]; intro acc; [reflexivity|].
  cbn [map filter]. rewrite Hm. destruct (mask r); [|apply IH].
  cbn [fold_left]. rewrite Hc. apply IH.
Qed.

Lemma loc_set_same (mask : row -> bool) (upd : row -> row) (g : list row) :
  Forall (fun r => mask r = true -> upd r = r) g -> loc_set mask upd g = g.
Proof.
  induction 1 as [|r g Hr F IH]; [reflexivity|].
  unfold loc_set in *. cbn [map]. rewrite IH. f_equal.
  destruct (mask r); [now apply Hr | reflexivity].
Qed.

Lemma binary64_final_elec_while_stalls (rnd : Q -> Q) (fuel : nat)
    (total_pop elec_rate lo factor : Q) (st : phaseB) :
  binary64.final_elec_guard rnd total_pop elec_rate st = true ->
  binary64.final_elec_body rnd lo factor st = st ->
  binary64.final_elec_while rnd fuel total_pop elec_rate lo factor st = None.
Proof.
  intros G B. induction fuel as [|fuel IH]; cbn [binary64.final_elec_while];
    rewrite G; [reflexivity|]. rewrite B. exact IH.
Qed.

(** X29.  In double precision.  When the marked population is within the
    target, [final_elec] returns without a pass: [Elec_pop_calib] becomes
    the population on the marked cells and 0 on the others.  When it is
    above the target, the populations are positive, a marked cell lies
    in the band [[self.i, self.i + 0.0001]], and the subtraction of
    [factor] rounds back to the population on every cell of that band,
    [final_elec] never returns: a pass leaves the table, [i] and
    [elec_pop] as they were. *)
Theorem final_elec_returns_or_stalls (rnd : Q -> Q) (s : OnSSTOVE) :
  let target :=
    rnd (binary64.col_sum rnd Calibrated_pop (gdf s) * Elec_rate (specs s)) in
  let elec_pop := binary64.loc_sum rnd is_electrified Calibrated_pop (gdf s) in
  let i := rnd (self_i s + binary64.step rnd) in
  let factor := binary64.final_elec_factor rnd s in
  (elec_pop <= target ->
   forall fuel,
     binary64.final_elec rnd fuel s
     = Some (set_gdf
               (map (fun r => set_Elec_pop_calib
                                (if (Current_elec r =? 0)%Z then 0
                                 else Calibrated_pop r) r) (gdf s)) s))
  /\ (target < elec_pop ->
      Forall (fun r => 0 < Calibrated_pop r) (gdf s) ->
      Forall (fun r => in_band (self_i s) i r = true ->
                       rnd (Calibrated_pop r - factor) = Calibrated_pop r)
             (gdf s) ->
      Exists (fun r => is_electrified r = true
                       /\ in_band (self_i s) i r = true) (gdf s) ->
      forall fuel, binary64.final_elec rnd fuel s = None).
Proof.
  cbv zeta.
  assert (Et : binary64.col_sum rnd Calibrated_pop
                 (B_gdf (binary64.final_elec_init rnd s))
               = binary64.col_sum rnd Calibrated_pop (gdf s)).
  { unfold binary64.final_elec_init, binary64.col_sum. cbn [B_gdf].
    apply binary64_loc_sum_map; reflexivity. }
  assert (Ee : B_elec_pop (binary64.final_elec_init rnd s)
               = binary64.loc_sum rnd is_electrified Calibrated_pop (gdf s)).
  { unfold binary64.final_elec_init. cbn [B_elec_pop].
    apply binary64_loc_sum_map; reflexivity. }
  split.
  - intros Le fuel. unfold binary64.final_elec. cbv zeta. rewrite Et.
    assert (G : binary64.final_elec_guard rnd
                  (binary64.col_sum rnd Calibrated_pop (gdf s))
                  (Elec_rate (specs s)) (binary64.final_elec_init rnd s)
                = false).
    { unfold binary64.final_elec_guard. apply Qltb_ge. rewrite Ee. exact Le. }
    assert (W : binary64.final_elec_while rnd fuel
                  (binary64.col_sum rnd Calibrated_pop (gdf s))
                  (Elec_rate (specs s)) (self_i s)
                  (binary64.final_elec_factor rnd s)
                  (binary64.final_elec_init rnd s)
                = Some (binary64.final_elec_init rnd s))
      by (destruct fuel; cbn [binary64.final_elec_while]; rewrite G;
          reflexivity).
    rewrite W. f_equal. f_equal.
    unfold final_elec_finish, binary64.final_elec_init, loc_set.
    cbn [B_gdf]. rewrite map_map. apply map_ext. intro r.
    cbn [Current_elec set_Elec_pop_calib].
    destruct (Current_elec r =? 0)%Z; reflexivity.
  - intros Gt Hpos Habs Hin fuel. unfold binary64.final_elec. cbv zeta.
    rewrite Et.
    rewrite binary64_final_elec_while_stalls; [reflexivity| |].
    + unfold binary64.final_elec_guard. apply Qltb_lt. rewrite Ee. exact Gt.
    + unfold binary64.final_elec_body. cbv zeta.
      set (g0 := B_gdf (binary64.final_elec_init rnd s)).
      assert (Eg : g0 = map (fun r => set_Elec_pop_calib (Calibrated_pop r) r)
                          (gdf s)) by reflexivity.
      assert (Ei : B_i (binary64.final_elec_init rnd s)
                   = rnd (self_i s + binary64.step rnd)) by reflexivity.
      rewrite Ei.
      assert (E1 : loc_set (in_band (self_i s) (rnd (self_i s + binary64.step rnd)))
                     (fun r => set_Elec_pop_calib
                                 (rnd (Elec_pop_calib r
                                       - binary64.final_elec_factor rnd s)) r)
                     g0 = g0).
      { apply loc_set_same. rewrite Eg. apply Forall_map.
        eapply Forall_impl; [|exact Habs]. intros r Hr B.
        cbn [Elec_pop_calib set_Elec_pop_calib]. unfold set_Elec_pop_calib.
        cbn. f_equal. apply Hr. exact B. }
      rewrite E1.
      assert (E2 : loc_set (fun r => Qltb (Elec_pop_calib r) 0)
                     (set_Elec_pop_calib 0) g0 = g0).
      { apply loc_set_same. rewrite Eg. apply Forall_map.
        eapply Forall_impl; [|exact Hpos]. intros r Hr B.
        cbv beta in Hr, B. cbn [Elec_pop_calib set_Elec_pop_calib] in B.
        apply Qltb_lt in B. lra. }
      rewrite E2.
      assert (E3 : loc_set (fun r => Qeq_bool (Elec_pop_calib r) 0)
                     (set_Current_elec 0) g0 = g0).
      { apply loc_set_same. rewrite Eg. apply Forall_map.
        eapply Forall_impl; [|exact Hpos]. intros r Hr B.
        cbv beta in Hr, B. cbn [Elec_pop_calib set_Elec_pop_calib] in B.
        apply Qeq_bool_iff in B. lra. }
      rewrite E3.
      assert (E4 : binary64.loc_sum rnd is_electrified Elec_pop_calib g0
                   = B_elec_pop (binary64.final_elec_init rnd s)).
      { rewrite Ee, Eg. apply binary64_loc_sum_map; reflexivity. }
      rewrite E4.
      assert (E5 : filter (fun r => is_electrified r
                                    && in_band (self_i s)
                                         (rnd (self_i s + binary64.step rnd)) r)
                     g0 <> []).
      { rewrite Eg. clear - Hin.
        induction Hin as [r g [M B] | r g Hin IH]; cbn [map filter].
        - unfold is_electrified, in_band in *.
          cbn [Current_elec combined_weight set_Elec_pop_calib].
          rewrite M, B. discriminate.
        - destruct (_ && _); [discriminate | exact IH]. }
      destruct (filter _ g0) as [|x l]; [contradiction|].
      cbn [List.length Nat.eqb]. reflexivity.
Qed.

Lemma final_elec_returns_or_stalls_witness :
  (exists s', binary64.final_elec round64 1000 survey = Some s')
  /\ binary64.final_elec round64 1000 stalled = None.
Proof.
  split.
  - eexists. apply (proj1 (@final_elec_returns_or_stalls round64 survey)).
    vm_compute. discriminate.
  - apply (proj2 (@final_elec_returns_or_stalls round64 stalled)).
    + vm_compute. reflexivity.
    + repeat constructor.
    + repeat (apply Forall_cons;
              [intro E; vm_compute in E |- *;
               first [reflexivity | discriminate E] |]).
      apply Forall_nil.
    + apply Exists_cons_hd. split; vm_compute; reflexivity.
Defined.

(** ** The allocator on the whole table *)

Lemma col_sum_cons (col : row -> Q) (r : row) (g : list row) :
  col_sum col (r :: g) = col r + col_sum col g.
Proof. reflexivity. Qed.

Lemma col_sum_app (col : row -> Q) (a b : list row) :
  col_sum col (a ++ b) == col_sum col a + col_sum col b.
Proof.
  induction a as [|r a IH].
  - cbn [app]. unfold col_sum at 2. cbn [loc_sum]. ring.
  - cbn [app]. rewrite !col_sum_cons, IH. ring.
Qed.

Lemma assign_max_benefit_keeps (g g' : list row) :
  Forall2 (fun r r' => assign_max_benefit r = Returns r') g g' ->
  map Calibrated_pop g' = map Calibrated_pop g
  /\ map Elec_pop_calib g' = map Elec_pop_calib g.
Proof.
  induction 1 as [|r r' g g' Hr F [IH1 IH2]]; [split; reflexivity|].
  destruct (assign_max_benefit_Returns _ Hr) as (t & v & _ & ->).
  cbn [map]. rewrite IH1, IH2. split; reflexivity.
Qed.

Lemma binary64_split_sums (rnd : Q -> Q) (u : Q) (g dff : list row) :
  accurate u rnd -> 0 <= u -> u <= 1 # 2 ->
  Forall (fun r => current_elect r = true -> 0 <= Elec_pop_calib r) g ->
  Forall2 (fun r b => binary64.second_row rnd r = Returns b)
    (filter current_elect g) dff ->
  Qabs (col_sum Calibrated_pop (loc_set current_elect (binary64.grid_row rnd) g)
        + col_sum Calibrated_pop dff - col_sum Calibrated_pop g)
  <= 4 * u * loc_sum current_elect Calibrated_pop g
  /\ Qabs (col_sum Elec_pop_calib
             (loc_set current_elect (binary64.grid_row rnd) g)
           + col_sum Elec_pop_calib dff - col_sum Elec_pop_calib g)
     <= 4 * u * loc_sum current_elect Elec_pop_calib g.
Proof.
  intros A U0 U2 Hn. revert dff. induction Hn as [|r g Hr Hn IH]; intros dff F.
  - cbn [filter] in F. inversion F; subst.
    unfold col_sum. cbn [loc_set map loc_sum].
    split; apply Qabs_Qle_condition; split; lra.
  - cbn [filter] in F. unfold loc_set in *. cbn [map loc_sum].
    destruct (current_elect r) eqn:C.
    + inversion F as [|? b ? dff' Hb F']; subst.
      destruct (IH _ F') as [P E].
      assert (EP : Elec_pop_calib r < Calibrated_pop r).
      { unfold current_elect in C. apply andb_true_iff in C.
        destruct C as [C _]. apply andb_true_iff in C. destruct C as [_ C].
        now apply Qltb_lt. }
      destruct (@binary64_second_row_shares rnd u r b A U0 U2 (Hr eq_refl) EP Hb)
        as (Pb & Eb & _).
      rewrite !col_sum_cons.
      apply Qabs_Qle_condition in P. apply Qabs_Qle_condition in E.
      apply Qabs_Qle_condition in Pb. apply Qabs_Qle_condition in Eb.
      split; apply Qabs_Qle_condition; split; lra.
    + destruct (IH _ F) as [P E]. rewrite !col_sum_cons.
      apply Qabs_Qle_condition in P. apply Qabs_Qle_condition in E.
      split; apply Qabs_Qle_condition; split; lra.
Qed.

Lemma assign_max_benefit_split_sum (col : row -> Q) (g g' : list row) :
  (forall t v r, col (set_maximum_net_benefit v (set_max_benefit_tech t r))
                 = col r) ->
  Forall2 (fun r r' => assign_max_benefit r = Returns r') g g' ->
  loc_sum current_elect col g' = loc_sum is_split col g.
Proof.
  intro K. induction 1 as [|r r' g g' Hr F IH]; [reflexivity|].
  cbn [loc_sum]. rewrite IH, (current_elect_assigned _ Hr).
  destruct (assign_max_benefit_Returns _ Hr) as (t & v & _ & ->).
  rewrite K. reflexivity.
Qed.

(** X6.  On a table whose split cells have no negative electrified
    population, the table [maximum_net_benefit] returns has one row more
    for each split cell and none fewer.  Its total population and its
    total electrified population are those of the table it was given up
    to the rounding of the products: when each operation has a relative
    error of at most [u], each total moves by at most [4 * u] times the
    total of the split cells. *)
Theorem maximum_net_benefit_conserves_totals
    (rnd : Q -> Q) (u : Q) (s s' : OnSSTOVE) :
  accurate u rnd -> 0 <= u -> u <= 1 # 2 ->
  binary64.maximum_net_benefit rnd s = Returns s' ->
  Forall (fun r => is_split r = true -> 0 <= Elec_pop_calib r) (gdf s) ->
  List.length (gdf s')
    = (List.length (gdf s) + List.length (filter is_split (gdf s)))%nat
  /\ Qabs (col_sum Calibrated_pop (gdf s') - col_sum Calibrated_pop (gdf s))
     <= 4 * u * loc_sum is_split Calibrated_pop (gdf s)
  /\ Qabs (col_sum Elec_pop_calib (gdf s') - col_sum Elec_pop_calib (gdf s))
     <= 4 * u * loc_sum is_split Elec_pop_calib (gdf s).
Proof.
  intros A U0 U2 H Hn.
  destruct (binary64_maximum_net_benefit_rows _ _ H) as (g & dff & Fg & Fd & ->).
  destruct (assign_max_benefit_keeps Fg) as [Kp Ke].
  assert (Hn' : Forall (fun r => current_elect r = true -> 0 <= Elec_pop_calib r) g).
  { apply Forall_forall. intros r' Hr' C.
    destruct (Forall2_In_r _ Fg Hr') as (r & Hr & Ha).
    rewrite (current_elect_assigned _ Ha) in C.
    destruct (assign_max_benefit_Returns _ Ha) as (t & v & _ & ->).
    exact (proj1 (Forall_forall _ _) Hn r Hr C). }
  destruct (binary64_split_sums A U0 U2 Hn' Fd) as [P E].
  rewrite (@assign_max_benefit_split_sum Calibrated_pop _ _
             (fun _ _ _ => eq_refl) Fg) in P.
  rewrite (@assign_max_benefit_split_sum Elec_pop_calib _ _
             (fun _ _ _ => eq_refl) Fg) in E.
  rewrite (col_sum_map Calibrated_pop _ _ Kp) in P.
  rewrite (col_sum_map Elec_pop_calib _ _ Ke) in E.
  split; [|split].
  - rewrite length_app. unfold loc_set. rewrite length_map.
    rewrite <- (Forall2_length Fg). f_equal.
    rewrite <- (Forall2_length Fd).
    symmetry.
    apply (@Forall2_length _ _ (fun r r' => assign_max_benefit r = Returns r')).
    apply Forall2_filter; [|exact Fg].
    intros a c Hac. symmetry. apply current_elect_assigned. exact Hac.
  - rewrite col_sum_app. exact P.
  - rewrite col_sum_app. exact E.
Qed.

Lemma maximum_net_benefit_conserves_totals_witness :
  exists s',
    binary64.maximum_net_benefit round64
      (session [third_served; surveyed 10 0 1] (1 # 2)) = Returns s'
    /\ List.length (gdf s') = 3%nat
    /\ Qabs (col_sum Calibrated_pop (gdf s') - 25) <= 4 * u64 * 15
    /\ Qabs (col_sum Elec_pop_calib (gdf s') - 5) <= 4 * u64 * 5.
Proof.
  destruct (binary64.maximum_net_benefit round64
              (session [third_served; surveyed 10 0 1] (1 # 2)))
    as [s'|e] eqn:E; [|vm_compute in E; discriminate E].
  exists s'. split; [reflexivity|].
  destruct (@maximum_net_benefit_conserves_totals round64 u64
              (session [third_served; surveyed 10 0 1] (1 # 2)) s'
              round64_accurate)
    as (L & P & Q); try exact E; try (vm_compute; discriminate).
  - repeat constructor; intros _; vm_compute; discriminate.
  - split; [exact L|]. split; [exact P | exact Q].
Defined.

(** [idxmax] returns the first column that holds the maximum. *)
Lemma idxmax_first (cols : list (string * Q)) (t : string) (v : Q) :
  idxmax cols = Some (t, v) ->
  exists pre post,
    cols = pre ++ (t, v) :: post
    /\ Forall (fun c => snd c < v) pre
    /\ Forall (fun c => snd c <= v) post.
Proof.
  revert t v. induction cols as [|[t0 v0] rest IH]; intros t v H;
    [discriminate|].
  cbn [idxmax] in H.
  destruct (idxmax rest) as [[t1 v1]|] eqn:E.
  - destruct (IH _ _ eq_refl) as (pre & post & -> & Fpre & Fpost).
    destruct (Qltb v0 v1) eqn:L; injection H as <- <-.
    + apply Qltb_lt in L. exists ((t0, v0) :: pre), post.
      split; [reflexivity|]. split; [constructor; assumption | assumption].
    + apply Qltb_ge in L. exists [], (pre ++ (t1, v1) :: post).
      split; [reflexivity|]. split; [constructor|].
      apply Forall_app. split.
      * eapply Forall_impl; [|exact Fpre]. intros c Hc. cbv beta in *. lra.
      * constructor; [exact L|].
        eapply Forall_impl; [|exact Fpost]. intros c Hc. cbv beta in *. lra.
  - injection H as <- <-. destruct rest as [|[t1 v1] rest].
    + exists [], []. repeat split; constructor.
    + cbn [idxmax] in E. destruct (idxmax rest) as [[t2 v2]|];
        [destruct (Qltb v1 v2)|]; discriminate.
Qed.

(** X7.  A cell that [maximum_net_benefit] does not split keeps its row
    at its position; the only columns written are [max_benefit_tech] and
    [maximum_net_benefit], which get the name and the value of the first
    net-benefit column, in column order, that holds the largest value of
    the row: every column before it is strictly smaller, every column
    after it is at most equal. *)
Theorem maximum_net_benefit_unsplit_row
    (s s' : OnSSTOVE) (k : nat) (r : row) :
  maximum_net_benefit s = Returns s' ->
  nth_error (gdf s) k = Some r ->
  is_split r = false ->
  exists t v pre post,
    nth_error (gdf s') k
    = Some (set_maximum_net_benefit v (set_max_benefit_tech t r))
    /\ net_benefit r = pre ++ (t, v) :: post
    /\ Forall (fun c => snd c < v) pre
    /\ Forall (fun c => snd c <= v) post.
Proof.
  intros H Hk Hs.
  destruct (maximum_net_benefit_rows _ H) as (g & dff & Fg & Fd & E).
  destruct (Forall2_nth_error k Fg Hk) as (r' & Hk' & Hr').
  assert (Hc : current_elect r' = false)
    by (rewrite (current_elect_assigned _ Hr'); exact Hs).
  destruct (assign_max_benefit_Returns _ Hr') as (t & v & I & ->).
  destruct (idxmax_first _ I) as (pre & post & N & Fpre & Fpost).
  exists t, v, pre, post. split; [|auto].
  rewrite E. rewrite nth_error_app1.
  - rewrite (nth_error_loc_set _ _ _ _ Hk'), Hc. reflexivity.
  - unfold loc_set. rewrite length_map. apply nth_error_Some. congruence.
Qed.

Lemma maximum_net_benefit_unsplit_row_witness :
  exists s' t v pre post,
    maximum_net_benefit unserved = Returns s'
    /\ nth_error (gdf s') 1
       = Some (set_maximum_net_benefit v
                 (set_max_benefit_tech t (surveyed 10 0 1)))
    /\ net_benefit (surveyed 10 0 1) = pre ++ (t, v) :: post
    /\ Forall (fun c => snd c < v) pre
    /\ Forall (fun c => snd c <= v) post.
Proof.
  destruct (maximum_net_benefit unserved) as [s'|e] eqn:E; [|discriminate E].
  destruct (@maximum_net_benefit_unsplit_row unserved s' 1 (surveyed 10 0 1)
              E eq_refl eq_refl)
    as (t & v & pre & post & P).
  exists s', t, v, pre, post. split; [reflexivity | exact P].
Defined.

Lemma idxmax_None (cols : list (string * Q)) :
  idxmax cols = None <-> cols = [].
Proof.
  split; [|intros ->; reflexivity].
  destruct cols as [|[t v] rest]; [reflexivity|].
  cbn [idxmax]. destruct (idxmax rest) as [[t' v']|];
    [destruct (Qltb v v')|]; discriminate.
Qed.

Lemma traverse_total {A B : Type} (f : A -> outcome B) (l : list A) :
  Forall (fun a => exists b, f a = Returns b) l ->
  exists bs, traverse f l = Returns bs.
Proof.
  induction 1 as [|a l (b & Hb) F (bs & IH)]; [exists []; reflexivity|].
  exists (b :: bs). cbn [traverse]. rewrite Hb. cbn [bind]. rewrite IH.
  reflexivity.
Qed.

(** X8.  On a table that has rows, all with the same net-benefit
    columns, [maximum_net_benefit] returns exactly when every row has a
    net-benefit column and every cell to split has one besides the grid;
    on every other such table it raises, and what it raises is
    [ValueError]. *)
Theorem maximum_net_benefit_returns_iff (s : OnSSTOVE) (cols : list string) :
  gdf s <> [] ->
  Forall (fun r => map fst (net_benefit r) = cols) (gdf s) ->
  ((exists s', maximum_net_benefit s = Returns s')
   <-> Forall has_benefit_columns (gdf s))
  /\ (forall e, maximum_net_benefit s = Raises e -> e = ValueError).
Proof.
  intros Hne _.
  assert (S : forall g, Forall2 (fun r r' => assign_max_benefit r = Returns r')
                          (gdf s) g -> str_replace g = Returns g).
  { intros g F. destruct g as [|r g]; [|reflexivity].
    inversion F as [E|]. symmetry in E. contradiction. }
  split; [split|].
  - intros (s' & H).
    destruct (maximum_net_benefit_rows _ H) as (g & dff & Fg & Fd & E).
    apply Forall_forall. intros r Hr.
    destruct (In_nth_error _ _ Hr) as (k & Hk).
    destruct (Forall2_nth_error k Fg Hk) as (r' & Hk' & Hr').
    destruct (assign_max_benefit_Returns _ Hr') as (t & v & I & ->).
    split.
    + intro N. rewrite N in I. discriminate I.
    + intros Hs N.
      pose proof (current_elect_assigned _ Hr') as C. rewrite Hs in C.
      pose proof (nth_error_filter_rank current_elect g k Hk' C) as Hf.
      destruct (Forall2_nth_error _ Fd Hf) as (b & _ & Hb).
      unfold second_row in Hb. cbn [net_benefit set_maximum_net_benefit
                                    set_max_benefit_tech] in Hb.
      rewrite N in Hb. discriminate Hb.
  - intro F. unfold maximum_net_benefit.
    destruct (@traverse_total _ _ assign_max_benefit (gdf s)) as (g & Eg).
    { eapply Forall_impl; [|exact F]. intros r [N _].
      unfold assign_max_benefit.
      destruct (idxmax (net_benefit r)) as [[t v]|] eqn:I; [eauto|].
      apply idxmax_None in I. contradiction. }
    rewrite Eg. cbn [bind].
    rewrite (S g (traverse_Returns _ _ Eg)). cbn [bind].
    destruct (Nat.ltb 0 (List.length (filter current_elect g))); [|eauto].
    destruct (@traverse_total _ _ second_row (filter current_elect g))
      as (dff & Ed).
    { apply Forall_forall. intros r' Hr'. apply filter_In in Hr'.
      destruct Hr' as [Hin C].
      destruct (Forall2_In_r _ (traverse_Returns _ _ Eg) Hin) as (r & Hr & Ha).
      rewrite (current_elect_assigned _ Ha) in C.
      eapply Forall_forall in F; [|exact Hr]. destruct F as [_ N].
      destruct (assign_max_benefit_Returns _ Ha) as (t & v & _ & ->).
      unfold second_row. cbn [net_benefit set_maximum_net_benefit
                              set_max_benefit_tech].
      destruct (idxmax (remove_col "Electricity" (net_benefit r)))
        as [[t2 v2]|] eqn:I; [eauto|].
      apply idxmax_None in I. exfalso. exact (N C I). }
    rewrite Ed. cbn [bind]. eauto.
  - intros e H. unfold maximum_net_benefit in H.
    assert (A : forall l e, traverse assign_max_benefit l = Raises e
                            -> e = ValueError).
    { induction l as [|r l IH]; intros e0 H0; [discriminate|].
      cbn [traverse] in H0. unfold assign_max_benefit at 1 in H0.
      destruct (idxmax (net_benefit r)) as [[t v]|];
        [|cbn in H0; congruence].
      cbn [bind] in H0.
      destruct (traverse assign_max_benefit l) eqn:T; [discriminate|].
      cbn in H0. injection H0 as <-. apply IH. reflexivity. }
    assert (B : forall l e, traverse second_row l = Raises e
                            -> e = ValueError).
    { induction l as [|r l IH]; intros e0 H0; [discriminate|].
      cbn [traverse] in H0. unfold second_row at 1 in H0.
      destruct (idxmax (remove_col "Electricity" (net_benefit r)))
        as [[t v]|]; [|cbn in H0; congruence].
      cbn [bind] in H0.
      destruct (traverse second_row l) eqn:T; [discriminate|].
      cbn in H0. injection H0 as <-. apply IH. reflexivity. }
    destruct (traverse assign_max_benefit (gdf s)) as [g|e0] eqn:Eg.
    + cbn [bind] in H.
      rewrite (S g (traverse_Returns _ _ Eg)) in H. cbn [bind] in H.
      destruct (Nat.ltb 0 (List.length (filter current_elect g)));
        [|discriminate].
      destruct (traverse second_row (filter current_elect g)) as [d|e1] eqn:Ed;
        [discriminate|].
      cbn in H. injection H as <-. eapply B; eassumption.
    + cbn in H. injection H as <-. eapply A; eassumption.
Qed.

Lemma maximum_net_benefit_returns_iff_witness :
  (exists s', maximum_net_benefit unserved = Returns s')
  /\ Forall has_benefit_columns (gdf unserved).
Proof.
  destruct (@maximum_net_benefit_returns_iff unserved
              ["Electricity"%string; "LPG"%string]) as [[R _] _].
  - discriminate.
  - repeat constructor.
  - assert (E : exists s', maximum_net_benefit unserved = Returns s')
      by (eexists; vm_compute; reflexivity).
    split; [exact E | exact (R E)].
Defined.

(** X9.  For a split cell with a positive electrified population, the
    row [maximum_net_benefit] leaves at the cell's position keeps the
    grid, has the cell's electrified population as its population, and an
    electrified population strictly below that; so the row is again a
    cell to split, and calling [maximum_net_benefit] on its own result
    does not leave the table as it is. *)
Theorem maximum_net_benefit_splits_again
    (s s' : OnSSTOVE) (k : nat) (r : row) :
  maximum_net_benefit s = Returns s' ->
  nth_error (gdf s) k = Some r ->
  is_split r = true ->
  0 < Elec_pop_calib r ->
  exists a,
    nth_error (gdf s') k = Some a
    /\ max_benefit_tech a = "Electricity"%string
    /\ Calibrated_pop a == Elec_pop_calib r
    /\ Elec_pop_calib a < Calibrated_pop a
    /\ is_split a = true.
Proof.
  intros H Hk Hs Hpos.
  destruct (maximum_net_benefit_split _ _ H Hk Hs)
    as (r' & b & Ha & _ & Hg & _).
  destruct (assign_max_benefit_Returns _ Ha) as (t & v & I & ->).
  exists (grid_row (set_maximum_net_benefit v (set_max_benefit_tech t r))).
  split; [exact Hg|].
  unfold is_split in Hs. apply andb_true_iff in Hs. destruct Hs as [Hs Hc].
  apply andb_true_iff in Hs. destruct Hs as [Hm Hl]. apply Qltb_lt in Hl.
  assert (P : 0 < Calibrated_pop r) by lra.
  assert (Et : t = "Electricity"%string).
  { unfold chooses_grid in Hc. rewrite I in Hc. now apply String.eqb_eq. }
  assert (F0 : 0 < Elec_pop_calib r / Calibrated_pop r)
    by (apply Qlt_shift_div_l; [exact P | lra]).
  assert (Lt : Elec_pop_calib r * (Elec_pop_calib r / Calibrated_pop r)
               < Calibrated_pop r * (Elec_pop_calib r / Calibrated_pop r))
    by (apply Qmult_lt_compat_r; assumption).
  split; [exact Et|]. split; [|split].
  - unfold grid_row, elect_fraction. simpl. field. lra.
  - exact Lt.
  - unfold is_split, grid_row, elect_fraction, chooses_grid. simpl.
    rewrite Hm. unfold chooses_grid in Hc. rewrite Hc.
    apply Qltb_lt in Lt. rewrite Lt. reflexivity.
Qed.

Lemma maximum_net_benefit_splits_again_witness :
  exists s' a,
    maximum_net_benefit (session [partly_served] (1 # 2)) = Returns s'
    /\ nth_error (gdf s') 0 = Some a
    /\ max_benefit_tech a = "Electricity"%string
    /\ Calibrated_pop a == 40
    /\ Elec_pop_calib a < Calibrated_pop a
    /\ is_split a = true.
Proof.
  destruct (maximum_net_benefit (session [partly_served] (1 # 2)))
    as [s'|e] eqn:E; [|discriminate E].
  destruct (@maximum_net_benefit_splits_again
              (session [partly_served] (1 # 2)) s' 0 partly_served
              E eq_refl eq_refl)
    as (a & P); [reflexivity|].
  exists s', a. split; [reflexivity | exact P].
Defined.

(** ** The urban classifier on every table *)

Lemma calibrate_urban_while_more_fuel (fuel fuel' : nat)
    (cell pop_tot urban_current : Q) (st st' : urban) :
  calibrate_urban_while fuel cell pop_tot urban_current st = Some st' ->
  (fuel <= fuel')%nat ->
  calibrate_urban_while fuel' cell pop_tot urban_current st = Some st'.
Proof.
  revert fuel' st. induction fuel as [|fuel IH]; intros fuel' st H L.
  - cbn [calibrate_urban_while] in H.
    destruct (calibrate_urban_guard urban_current st) eqn:G; [discriminate|].
    destruct fuel'; cbn [calibrate_urban_while]; rewrite G; exact H.
  - destruct fuel' as [|fuel']; [lia|].
    cbn [calibrate_urban_while] in *.
    destruct (calibrate_urban_guard urban_current st); [|exact H].
    destruct (500 <? U_i (calibrate_urban_body cell pop_tot urban_current st))%Z;
      [exact H|].
    apply IH; [exact H | lia].
Qed.

Lemma classify_pop (cell factor : Q) (g : list row) :
  map Calibrated_pop (classify cell factor g) = map Calibrated_pop g.
Proof.
  unfold classify. rewrite !loc_set_keeps by reflexivity.
  rewrite map_map. reflexivity.
Qed.

Lemma calibrate_urban_while_pop (fuel : nat) (cell pop_tot urban_current : Q)
    (st st' : urban) :
  calibrate_urban_while fuel cell pop_tot urban_current st = Some st' ->
  map Calibrated_pop (U_gdf st') = map Calibrated_pop (U_gdf st).
Proof.
  revert st. induction fuel as [|fuel IH]; intros st H;
    cbn [calibrate_urban_while] in H;
    destruct (calibrate_urban_guard urban_current st);
    try discriminate; try (injection H as <-; reflexivity).
  destruct (500 <? U_i (calibrate_urban_body cell pop_tot urban_current st))%Z.
  - injection H as <-. unfold calibrate_urban_body. cbn [U_gdf].
    apply classify_pop.
  - rewrite (IH _ H). unfold calibrate_urban_body. cbn [U_gdf].
    apply classify_pop.
Qed.

Lemma calibrate_urban_while_stopped (fuel : nat)
    (cell pop_tot urban_current : Q) (st : urban) :
  calibrate_urban_guard urban_current st = false ->
  calibrate_urban_while fuel cell pop_tot urban_current st = Some st.
Proof.
  intro G. destruct fuel; cbn [calibrate_urban_while]; rewrite G; reflexivity.
Qed.

(** X10.  [calibrate_urban_manual] returns on every table and every
    scenario: 501 passes of its loop always suffice and more fuel gives
    the same table; the result has the scenario and the populations it
    was given, and when the target share is within 0.01 of 2, the value
    [urban_modelled] starts from, no pass is made and the table is
    returned as it was. *)
Theorem calibrate_urban_manual_returns (s : OnSSTOVE) (fuel : nat) :
  (501 <= fuel)%nat ->
  exists s',
    calibrate_urban_manual fuel s = Some s'
    /\ calibrate_urban_manual 501 s = Some s'
    /\ specs s' = specs s
    /\ map Calibrated_pop (gdf s') = map Calibrated_pop (gdf s)
    /\ (calibrate_urban_guard (Urban_start (specs s)) (calibrate_urban_init s)
        = false -> gdf s' = gdf s).
Proof.
  intro L. remember 501%nat as n eqn:En.
  assert (Hn : (501 <= Z.of_nat n)%Z) by (subst n; lia).
  unfold calibrate_urban_manual, calibrate_urban_run.
  destruct (@calibrate_urban_while_terminates n (cell_size s)
              (Population_start_year (specs s)) (Urban_start (specs s))
              (calibrate_urban_init s)) as (st & W & _);
    [cbn [U_i calibrate_urban_init]; lia ..|].
  rewrite (calibrate_urban_while_more_fuel _ _ _ _ W L), W.
  eexists. split; [reflexivity|]. split; [reflexivity|].
  cbn [gdf specs set_gdf]. split; [reflexivity|]. split.
  - apply (calibrate_urban_while_pop _ _ _ _ _ W).
  - intro G. rewrite (calibrate_urban_while_stopped _ _ _ _ _ G) in W.
    injection W as <-. reflexivity.
Qed.

Lemma calibrate_urban_manual_returns_witness :
  exists s',
    calibrate_urban_manual 600 town = Some s'
    /\ calibrate_urban_manual 501 town = Some s'
    /\ specs s' = specs town
    /\ map Calibrated_pop (gdf s') = map Calibrated_pop (gdf town)
    /\ (calibrate_urban_guard (Urban_start (specs town))
          (calibrate_urban_init town) = false -> gdf s' = gdf town).
Proof.
  apply (@calibrate_urban_manual_returns town 600). lia.
Defined.

Lemma cell_area_nonneg (cell : Q) : 0 <= cell ^ 2 / 1000000.
Proof.
  assert (S : 0 <= cell ^ 2) by (simpl; nra).
  apply Qle_shift_div_l; lra.
Qed.

Lemma density_monotone (cell t : Q) (a b : row) :
  Calibrated_pop a <= Calibrated_pop b ->
  flt (Fin t) (density cell a) = true ->
  flt (Fin t) (density cell b) = true.
Proof.
  intros L. unfold density. cbn [fdiv].
  pose proof (cell_area_nonneg cell) as A.
  destruct (Qeq_bool (cell ^ 2 / 1000000) 0) eqn:Z.
  - destruct (Qeq_bool (Calibrated_pop a) 0) eqn:Za; [discriminate|].
    destruct (Qltb 0 (Calibrated_pop a)) eqn:Pa; [|discriminate].
    intros _. apply Qltb_lt in Pa.
    assert (Zb : Qeq_bool (Calibrated_pop b) 0 = false)
      by (apply Qeq_bool_false; lra).
    assert (Pb : Qltb 0 (Calibrated_pop b) = true) by (apply Qltb_lt; lra).
    rewrite Zb, Pb. reflexivity.
  - apply Qeq_bool_false in Z.
    assert (P : 0 < cell ^ 2 / 1000000).
    { destruct (Qlt_le_dec 0 (cell ^ 2 / 1000000)); [assumption|].
      exfalso. apply Z. lra. }
    cbn [flt]. intro H. apply Qltb_lt in H. apply Qltb_lt.
    eapply Qlt_le_trans; [exact H|].
    apply Qdiv_le_compat; assumption.
Qed.

Lemma is_urban_monotone (cell factor : Q) (a b : row) :
  Calibrated_pop a <= Calibrated_pop b ->
  is_urban cell factor a = true -> is_urban cell factor b = true.
Proof.
  intros L H. unfold is_urban in *. apply andb_true_iff in H.
  destruct H as [H1 H2]. apply andb_true_iff. split.
  - apply Qltb_lt in H1. apply Qltb_lt. lra.
  - exact (@density_monotone cell _ a b L H2).
Qed.

Lemma is_peri_urban_monotone (cell factor : Q) (a b : row) :
  Calibrated_pop a <= Calibrated_pop b ->
  is_peri_urban cell factor a = true -> is_peri_urban cell factor b = true.
Proof.
  intros L H. unfold is_peri_urban in *. apply andb_true_iff in H.
  destruct H as [H1 H2]. apply andb_true_iff. split.
  - apply Qltb_lt in H1. apply Qltb_lt. lra.
  - exact (@density_monotone cell _ a b L H2).
Qed.

Lemma urban_code_monotone (cell factor : Q) (a b : row) :
  Calibrated_pop a <= Calibrated_pop b ->
  (urban_code cell factor a <= urban_code cell factor b)%Z.
Proof.
  intro L. unfold urban_code.
  destruct (is_urban cell factor a) eqn:Ua.
  - rewrite (@is_urban_monotone cell factor a b L Ua). lia.
  - destruct (is_peri_urban cell factor a) eqn:Pa.
    + rewrite (@is_peri_urban_monotone cell factor a b L Pa).
      destruct (is_urban cell factor b); lia.
    + destruct (is_urban cell factor b); [lia|].
      destruct (is_peri_urban cell factor b); lia.
Qed.

(** The code the three assignments of a pass leave on a cell. *)
Lemma classify_urban_code (cell factor : Q) (g : list row) :
  Forall (fun r => IsUrban r = urban_code cell factor r)
         (classify cell factor g).
Proof.
  unfold classify, loc_set. rewrite !map_map. apply Forall_map.
  apply Forall_forall. intros r _. cbv beta. unfold urban_code.
  change (is_peri_urban cell factor (set_IsUrban 0 r))
    with (is_peri_urban cell factor r).
  destruct (is_peri_urban cell factor r) eqn:P.
  - change (is_urban cell factor (set_IsUrban 1 (set_IsUrban 0 r)))
      with (is_urban cell factor r).
    destruct (is_urban cell factor r) eqn:U.
    + change (is_urban cell factor
                (set_IsUrban 2 (set_IsUrban 1 (set_IsUrban 0 r))))
        with (is_urban cell factor r).
      rewrite U. reflexivity.
    + change (is_urban cell factor (set_IsUrban 1 (set_IsUrban 0 r)))
        with (is_urban cell factor r).
      rewrite U.
      change (is_peri_urban cell factor (set_IsUrban 1 (set_IsUrban 0 r)))
        with (is_peri_urban cell factor r).
      rewrite P. reflexivity.
  - change (is_urban cell factor (set_IsUrban 0 r))
      with (is_urban cell factor r).
    destruct (is_urban cell factor r) eqn:U.
    + change (is_urban cell factor (set_IsUrban 2 (set_IsUrban 0 r)))
        with (is_urban cell factor r).
      rewrite U. reflexivity.
    + change (is_urban cell factor (set_IsUrban 0 r))
        with (is_urban cell factor r).
      rewrite U.
      change (is_peri_urban cell factor (set_IsUrban 0 r))
        with (is_peri_urban cell factor r).
      rewrite P. reflexivity.
Qed.

Lemma calibrate_urban_while_classified (fuel : nat)
    (cell pop_tot urban_current : Q) (st st' : urban) :
  calibrate_urban_while fuel cell pop_tot urban_current st = Some st' ->
  classified cell st \/ calibrate_urban_guard urban_current st = true ->
  classified cell st'.
Proof.
  revert st. induction fuel as [|fuel IH]; intros st H C;
    cbn [calibrate_urban_while] in H;
    destruct (calibrate_urban_guard urban_current st) eqn:G;
    try discriminate;
    try (injection H as <-; destruct C as [C | C]; [exact C | discriminate C]).
  assert (B : classified cell
                (calibrate_urban_body cell pop_tot urban_current st))
    by (exists (U_factor st), (U_gdf st); reflexivity).
  destruct (500 <? U_i (calibrate_urban_body cell pop_tot urban_current st))%Z.
  - injection H as <-. exact B.
  - apply (IH _ H). left. exact B.
Qed.

(** X11.  When [calibrate_urban_manual] makes a pass (the target share
    is not within 0.01 of 2), the table it returns holds only the codes
    0, 1 and 2 in [IsUrban], and the code is monotone in the population:
    of two cells, the one with at least as many people has a code at
    least as high. *)
Theorem calibrate_urban_manual_monotone (fuel : nat) (s s' : OnSSTOVE) :
  calibrate_urban_manual fuel s = Some s' ->
  calibrate_urban_guard (Urban_start (specs s)) (calibrate_urban_init s)
  = true ->
  Forall (fun r => IsUrban r = 0%Z \/ IsUrban r = 1%Z \/ IsUrban r = 2%Z)
    (gdf s')
  /\ forall a b, In a (gdf s') -> In b (gdf s') ->
                 Calibrated_pop a <= Calibrated_pop b ->
                 (IsUrban a <= IsUrban b)%Z.
Proof.
  unfold calibrate_urban_manual, calibrate_urban_run. intros H G.
  destruct (calibrate_urban_while fuel _ _ _ _) as [st|] eqn:W; [|discriminate].
  injection H as <-. cbn [gdf set_gdf].
  destruct (@calibrate_urban_while_classified _ _ _ _ _ _ W (or_intror G))
    as (f & g & ->).
  split; [apply classify_codes|].
  intros a b Ha Hb L.
  pose proof (classify_urban_code (cell_size s) f g) as C.
  rewrite (proj1 (Forall_forall _ _) C a Ha),
          (proj1 (Forall_forall _ _) C b Hb).
  apply urban_code_monotone. exact L.
Qed.

Lemma calibrate_urban_manual_monotone_witness :
  exists s',
    calibrate_urban_manual 501 town = Some s'
    /\ Forall (fun r => IsUrban r = 0%Z \/ IsUrban r = 1%Z \/ IsUrban r = 2%Z)
         (gdf s')
    /\ forall a b, In a (gdf s') -> In b (gdf s') ->
                   Calibrated_pop a <= Calibrated_pop b ->
                   (IsUrban a <= IsUrban b)%Z.
Proof.
  destruct (calibrate_urban_manual 501 town) as [s'|] eqn:H;
    [|vm_compute in H; discriminate H].
  exists s'. split; [reflexivity|].
  apply (@calibrate_urban_manual_monotone 501 town s' H).
  vm_compute. reflexivity.
Defined.

(** ** The classifier of [raster.py] on every list of clusters *)

Lemma raster_while_terminates (fuel : nat) (pop_tot urban_current : Q)
    (st : raster.search) :
  (raster.i st <= 500)%Z ->
  (501 - raster.i st <= Z.of_nat fuel)%Z ->
  exists st',
    raster.while fuel pop_tot urban_current st = Some st'
    /\ (raster.i st' <= 501)%Z.
Proof.
  revert st. induction fuel as [|fuel IH]; intros st Hi Hf.
  - lia.
  - cbn [raster.while].
    destruct (raster.guard urban_current st).
    + destruct (500 <? raster.i (raster.body pop_tot urban_current st))%Z eqn:B.
      * eexists. split; [reflexivity|].
        unfold raster.body. cbn [raster.i]. lia.
      * apply Z.ltb_ge in B. apply IH; [exact B|].
        unfold raster.body in *. cbn [raster.i] in *. lia.
    + eexists. split; [reflexivity | lia].
Qed.

Lemma raster_while_more_fuel (fuel fuel' : nat) (pop_tot urban_current : Q)
    (st st' : raster.search) :
  raster.while fuel pop_tot urban_current st = Some st' ->
  (fuel <= fuel')%nat ->
  raster.while fuel' pop_tot urban_current st = Some st'.
Proof.
  revert fuel' st. induction fuel as [|fuel IH]; intros fuel' st H L.
  - cbn [raster.while] in H.
    destruct (raster.guard urban_current st) eqn:G; [discriminate|].
    destruct fuel'; cbn [raster.while]; rewrite G; exact H.
  - destruct fuel' as [|fuel']; [lia|].
    cbn [raster.while] in *.
    destruct (raster.guard urban_current st); [|exact H].
    destruct (500 <? raster.i (raster.body pop_tot urban_current st))%Z;
      [exact H|].
    apply IH; [exact H | lia].
Qed.

Lemma raster_classify_classified (f : Q) (cs : list raster.cluster) :
  Forall2 raster_classified cs (raster.classify f cs).
Proof.
  unfold raster.classify. rewrite !map_map.
  induction cs as [|c cs IH]; cbn [map]; constructor; [|exact IH].
  unfold raster_classified.
  destruct (raster.over (5000 * f) (300 * f) (raster.set_IsUrban 0 c));
    match goal with
    | |- context [raster.over (50000 * f) (1500 * f) ?x] =>
        destruct (raster.over (50000 * f) (1500 * f) x)
    end; cbn; auto.
Qed.

Lemma raster_classified_again (a b c : raster.cluster) :
  raster_classified a b -> raster_classified b c -> raster_classified a c.
Proof.
  intros (P1 & A1 & _) (P2 & A2 & C). repeat split; congruence.
Qed.

Lemma Forall2_raster_classified_again (a b c : list raster.cluster) :
  Forall2 raster_classified a b -> Forall2 raster_classified b c ->
  Forall2 raster_classified a c.
Proof.
  intro H. revert c. induction H as [|x y a b Hxy Hab IH]; intros c Hc;
    inversion Hc; subst; constructor.
  - eapply raster_classified_again; eassumption.
  - apply IH. assumption.
Qed.

Lemma raster_while_classified (fuel : nat) (pop_tot urban_current : Q)
    (cs : list raster.cluster) (st st' : raster.search) :
  raster.while fuel pop_tot urban_current st = Some st' ->
  (Forall2 raster_classified cs (raster.clusters st)
   \/ (raster.clusters st = cs /\ raster.guard urban_current st = true)) ->
  Forall2 raster_classified cs (raster.clusters st').
Proof.
  revert st. induction fuel as [|fuel IH]; intros st H C;
    cbn [raster.while] in H;
    destruct (raster.guard urban_current st) eqn:G;
    try discriminate;
    try (injection H as <-; destruct C as [C | [_ C]];
         [exact C | discriminate C]).
  assert (B : Forall2 raster_classified cs
                (raster.clusters (raster.body pop_tot urban_current st))).
  { unfold raster.body. cbn [raster.clusters].
    destruct C as [C | [<- _]].
    - eapply Forall2_raster_classified_again; [exact C|].
      apply raster_classify_classified.
    - apply raster_classify_classified. }
  destruct (500 <? raster.i (raster.body pop_tot urban_current st))%Z.
  - injection H as <-. exact B.
  - apply (IH _ H). left. exact B.
Qed.

Lemma raster_while_stopped (fuel : nat) (pop_tot urban_current : Q)
    (st : raster.search) :
  raster.guard urban_current st = false ->
  raster.while fuel pop_tot urban_current st = Some st.
Proof.
  intro G. destruct fuel; cbn [raster.while]; rewrite G; reflexivity.
Qed.

(** X12.  The loop of [calibrate_urban] of [raster.py] ends on every
    list of clusters and every target, after at most 501 passes, and
    more fuel gives the same result; when it makes a pass, every cluster
    keeps its population and its area and gets one of the codes 0, 1, 2;
    when the target is within 0.01 of 2 it makes no pass and leaves the
    clusters as they are. *)
Theorem raster_calibrate_urban_returns (cs : list raster.cluster)
    (urban_current : Q) (fuel : nat) :
  (501 <= fuel)%nat ->
  exists st,
    raster.calibrate_urban fuel cs urban_current = Some st
    /\ raster.calibrate_urban 501 cs urban_current = Some st
    /\ (raster.i st <= 501)%Z
    /\ (raster.guard urban_current (raster.mkSearch cs (Fin 2) 1 0) = true ->
        Forall2 raster_classified cs (raster.clusters st))
    /\ (raster.guard urban_current (raster.mkSearch cs (Fin 2) 1 0) = false ->
        raster.clusters st = cs).
Proof.
  intro L. remember 501%nat as n eqn:En.
  assert (Hn : (501 <= Z.of_nat n)%Z) by (subst n; lia).
  unfold raster.calibrate_urban.
  destruct (@raster_while_terminates n
              (raster.population_where (fun _ => true) cs) urban_current
              (raster.mkSearch cs (Fin 2) 1 0)) as (st & W & I);
    [cbn [raster.i]; lia ..|].
  rewrite (raster_while_more_fuel _ _ _ W L), W.
  exists st. split; [reflexivity|]. split; [reflexivity|].
  split; [exact I|]. split.
  - intro G. apply (@raster_while_classified _ _ _ cs _ _ W). right. auto.
  - intro G. rewrite (raster_while_stopped _ _ _ _ G) in W.
    injection W as <-. reflexivity.
Qed.

Lemma raster_calibrate_urban_returns_witness :
  exists st,
    raster.calibrate_urban 502 [raster.mkCluster 100 1 0] (1 # 2) = Some st
    /\ raster.calibrate_urban 501 [raster.mkCluster 100 1 0] (1 # 2) = Some st
    /\ (raster.i st <= 501)%Z
    /\ (raster.guard (1 # 2) (raster.mkSearch [raster.mkCluster 100 1 0]
                                (Fin 2) 1 0) = true ->
        Forall2 raster_classified [raster.mkCluster 100 1 0]
          (raster.clusters st))
    /\ (raster.guard (1 # 2) (raster.mkSearch [raster.mkCluster 100 1 0]
                                (Fin 2) 1 0) = false ->
        raster.clusters st = [raster.mkCluster 100 1 0]).
Proof.
  apply (@raster_calibrate_urban_returns [raster.mkCluster 100 1 0] (1 # 2) 502).
  lia.
Defined.

(** ** The two classifiers compared *)

Lemma flt_lower (t t' : Q) (x : fnum) :
  t' <= t -> flt (Fin t) x = true -> flt (Fin t') x = true.
Proof.
  intros L. destruct x as [q| | |]; cbn [flt]; auto.
  intro H. apply Qltb_lt in H. apply Qltb_lt. lra.
Qed.

Lemma urban_code_pop (cell f : Q) (a r : row) :
  Calibrated_pop a = Calibrated_pop r ->
  urban_code cell f a = urban_code cell f r.
Proof.
  intro E. unfold urban_code, is_urban, is_peri_urban, density.
  rewrite E. reflexivity.
Qed.

Lemma raster_code_cluster (f : Q) (a c : raster.cluster) :
  raster.Population a = raster.Population c ->
  raster.Area a = raster.Area c ->
  raster_code f a = raster_code f c.
Proof.
  intros P A. unfold raster_code, raster.over. rewrite P, A. reflexivity.
Qed.

Lemma raster_classify_code (f : Q) (cs : list raster.cluster) :
  Forall2 (fun c b => raster.IsUrban b = raster_code f c)
    cs (raster.classify f cs).
Proof.
  unfold raster.classify. rewrite !map_map.
  rewrite <- (map_id cs) at 1. apply Forall2_map_same. intros c _.
  unfold raster_code.
  change (raster.over (5000 * f) (300 * f) (raster.set_IsUrban 0 c))
    with (raster.over (5000 * f) (300 * f) c).
  destruct (raster.over (5000 * f) (300 * f) c) eqn:P.
  - change (raster.over (50000 * f) (1500 * f)
              (raster.set_IsUrban 1 (raster.set_IsUrban 0 c)))
      with (raster.over (50000 * f) (1500 * f) c).
    destruct (raster.over (50000 * f) (1500 * f) c); reflexivity.
  - change (raster.over (50000 * f) (1500 * f) (raster.set_IsUrban 0 c))
      with (raster.over (50000 * f) (1500 * f) c).
    destruct (raster.over (50000 * f) (1500 * f) c); reflexivity.
Qed.

(** X30.  The two urban classifiers are not the same function: for a
    cell and a cluster of the same population and the same area, and a
    factor that is not negative, one pass of [calibrate_urban_manual] and
    one pass of [calibrate_urban] of [raster.py] write the same code,
    except when the density is above [300 * factor] and not above
    [350 * factor] on a place of more than [5000 * factor] people that is
    not urban: there [raster.py] writes 1 and [calibrate_urban_manual]
    writes 0. *)
Theorem classifiers_differ_on_density_band
    (cell f : Q) (r : row) (c : raster.cluster) :
  0 <= f ->
  raster.Population c = Calibrated_pop r ->
  raster.Area c = cell ^ 2 / 1000000 ->
  exists a b,
    classify cell f [r] = [a] /\ raster.classify f [c] = [b]
    /\ (raster.IsUrban b = IsUrban a
        \/ (IsUrban a = 0%Z /\ raster.IsUrban b = 1%Z
            /\ Qltb (5000 * f) (Calibrated_pop r) = true
            /\ flt (Fin (300 * f)) (density cell r) = true
            /\ flt (Fin (350 * f)) (density cell r) = false)).
Proof.
  intros F P A.
  pose proof (classify_urban_code cell f [r]) as C.
  pose proof (classify_pop cell f [r]) as Cp.
  pose proof (raster_classify_code f [c]) as R.
  destruct (classify cell f [r]) as [|a [|? ?]] eqn:Ea; try discriminate Cp.
  destruct (raster.classify f [c]) as [|b [|? ?]] eqn:Eb;
    try (inversion R; fail);
    try (inversion R as [|? ? ? ? ? R']; inversion R'; fail).
  exists a, b. split; [reflexivity|]. split; [reflexivity|].
  inversion C as [|? ? Ha _]; subst. injection Cp as Cp.
  inversion R as [|? ? ? ? Hb _]; subst.
  rewrite Ha, Hb, (urban_code_pop cell f _ _ Cp). clear Ha Hb Ea Eb C R Cp.
  unfold urban_code, raster_code, is_urban, is_peri_urban, raster.over.
  rewrite P, A. fold (density cell r).
  destruct (Qltb (5000 * f) (Calibrated_pop r)) eqn:P5; cbn [andb].
  - destruct (Qltb (50000 * f) (Calibrated_pop r) &&
              flt (Fin (1500 * f)) (density cell r)) eqn:U; [now left|].
    destruct (flt (Fin (300 * f)) (density cell r)) eqn:D3.
    + destruct (flt (Fin (350 * f)) (density cell r)) eqn:D35;
        [now left | right; auto].
    + assert (D35 : flt (Fin (350 * f)) (density cell r) = false).
      { destruct (flt (Fin (350 * f)) (density cell r)) eqn:D; [|reflexivity].
        rewrite (@flt_lower (350 * f) (300 * f) _) in D3;
          [discriminate | nra | exact D]. }
      rewrite D35. now left.
  - assert (P50 : Qltb (50000 * f) (Calibrated_pop r) = false).
    { apply Qltb_ge. apply Qltb_ge in P5. nra. }
    rewrite P50. cbn [andb]. now left.
Qed.

Lemma classifiers_differ_on_density_band_witness :
  exists a b,
    classify 4000 1 [cell 5200 NaN] = [a]
    /\ raster.classify 1 [raster.mkCluster 5200 (4000 ^ 2 / 1000000) 0] = [b]
    /\ IsUrban a = 0%Z /\ raster.IsUrban b = 1%Z.
Proof.
  destruct (@classifiers_differ_on_density_band 4000 1 (cell 5200 NaN)
              (raster.mkCluster 5200 (4000 ^ 2 / 1000000) 0))
    as (a & b & Ea & Eb & _);
    [vm_compute; discriminate | reflexivity | reflexivity |].
  exists a, b. split; [exact Ea|]. split; [exact Eb|].
  vm_compute in Ea. injection Ea as <-.
  vm_compute in Eb. injection Eb as <-.
  split; reflexivity.
Defined.

(** ** Households, again *)

Lemma number_of_households_by_code_witness :
  exists r',
    nth_error (gdf (number_of_households town)) 0 = Some r'
    /\ Calibrated_pop r' = 60000
    /\ IsUrban r' = 0%Z
    /\ ((0 < 20)%Z -> Households r' = Some (60000 / 5))
    /\ ((20 < 0)%Z -> Households r' = Some (60000 / 4))
    /\ (0%Z = 20%Z -> Households r' = Households (cell 60000 NaN)).
Proof.
  apply (@number_of_households_by_code town 0 (cell 60000 NaN)).
  - vm_compute. discriminate.
  - vm_compute. discriminate.
  - reflexivity.
Defined.

(** X14.  [number_of_households] reads [IsUrban] and [Calibrated_pop]
    and writes [Households] only: it leaves the populations, the codes
    and the electrified populations as they are, and calling it a second
    time changes nothing. *)
Theorem number_of_households_idempotent (s : OnSSTOVE) :
  number_of_households (number_of_households s) = number_of_households s
  /\ map Calibrated_pop (gdf (number_of_households s))
     = map Calibrated_pop (gdf s)
  /\ map IsUrban (gdf (number_of_households s)) = map IsUrban (gdf s)
  /\ map Elec_pop_calib (gdf (number_of_households s))
     = map Elec_pop_calib (gdf s).
Proof.
  split; [|split; [|split]].
  - unfold number_of_households. cbn [gdf specs set_gdf]. unfold set_gdf.
    cbn [gdf specs columns cell_size self_i]. f_equal.
    unfold loc_set. rewrite !map_map. apply map_ext. intro r.
    destruct (IsUrban r <? 20)%Z eqn:A; cbn [IsUrban set_Households];
      destruct (20 <? IsUrban r)%Z eqn:B; cbn [IsUrban set_Households];
      rewrite ?A, ?B; cbn [IsUrban set_Households Calibrated_pop];
      rewrite ?A, ?B; reflexivity.
  - unfold number_of_households. cbn [gdf set_gdf].
    rewrite !loc_set_keeps by reflexivity. reflexivity.
  - unfold number_of_households. cbn [gdf set_gdf].
    rewrite !loc_set_keeps by reflexivity. reflexivity.
  - unfold number_of_households. cbn [gdf set_gdf].
    rewrite !loc_set_keeps by reflexivity. reflexivity.
Qed.

(** ** The normaliser of [raster.py] *)

(** X15.  [normalize] of [raster.py] raises [ValueError] on a band
    whose cells all hold the nodata value, at or below the limit, and on
    a band without cells: the extrema are taken over no cell.  On a band
    with a cell that is above the limit or differs from the nodata value
    it returns one value per cell, none of them negative; a cell that is
    NaN or above the limit comes out as 1; and a cell that holds the
    nodata value, at or below the limit, is not divided: it keeps its
    value, or becomes NaN when that value is negative. *)
Theorem raster_normalize_cells (band : list fnum) (nodata limit : fnum) :
  (Forall (fun c => flt limit c = false /\ feq c nodata = true) band ->
   raster.normalize band nodata limit = Raises ValueError)
  /\ (Exists (fun c => flt limit c = true \/ feq c nodata = false) band ->
      exists out,
        raster.normalize band nodata limit = Returns out
        /\ List.length out = List.length band
        /\ forall k x,
             nth_error band k = Some x ->
             exists y,
               nth_error out k = Some y
               /\ flt y (Fin 0) = false
               /\ (x = NaN \/ flt limit x = true -> y = Fin 1)
               /\ (feq x nodata = true -> flt limit x = false ->
                   y = if flt x (Fin 0) then NaN else x)).
Proof.
  unfold raster.normalize. cbv zeta. split.
  - intro F.
    assert (E : filter (fun x => negb (feq x nodata))
                  (map (fun x => if flt limit x then NaN else x) band) = []).
    { induction F as [|c band [L N] F IH]; [reflexivity|].
      cbn [map filter]. rewrite L, N. exact IH. }
    rewrite E. reflexivity.
  - intro X.
    destruct (filter (fun x => negb (feq x nodata))
                (map (fun x => if flt limit x then NaN else x) band))
      as [|d data] eqn:E.
    + exfalso. induction X as [c band [L | N] | c band X IH];
        cbn [map filter] in E.
      * rewrite L in E. discriminate E.
      * destruct (flt limit c); [discriminate E|]. rewrite N in E.
        discriminate E.
      * destruct (negb (feq (if flt limit c then NaN else c) nodata));
          [discriminate E | exact (IH E)].
    + cbn [raster.nan_extremum bind]. eexists. split; [reflexivity|].
      split; [now rewrite !length_map|].
      intros k x H. rewrite !nth_error_map, H. cbn [option_map].
      eexists. split; [reflexivity|]. split; [|split].
      * match goal with
        | |- flt (if flt ?z (Fin 0) then NaN else ?z) (Fin 0) = false =>
            destruct (flt z (Fin 0)) eqn:Ez; [reflexivity | exact Ez]
        end.
      * intros [-> | L].
        -- destruct limit; reflexivity.
        -- rewrite L. reflexivity.
      * intros N L. rewrite L, N. cbn [negb].
        destruct x as [q| | |]; try reflexivity.
        destruct nodata; discriminate N.
Qed.

Lemma raster_normalize_cells_witness :
  raster.normalize [Fin (-9999); Fin (-9999)] (Fin (-9999)) (Fin 15)
  = Raises ValueError
  /\ exists out y,
       raster.normalize [Fin 5; Fin 10; Fin 20] (Fin (-9999)) (Fin 15)
       = Returns out
       /\ nth_error out 2 = Some y
       /\ y = Fin 1.
Proof.
  split.
  - apply (proj1 (@raster_normalize_cells [Fin (-9999); Fin (-9999)]
                    (Fin (-9999)) (Fin 15))).
    repeat constructor.
  - destruct (proj2 (@raster_normalize_cells [Fin 5; Fin 10; Fin 20]
                       (Fin (-9999)) (Fin 15)))
      as (out & E & _ & H).
    + apply Exists_cons_hd. right. reflexivity.
    + destruct (H 2%nat (Fin 20) eq_refl) as (y & Hy & _ & One & _).
      exists out, y. split; [exact E|]. split; [exact Hy|].
      apply One. right. reflexivity.
Defined.

Lemma nan_extremum_fold_min (l : list Q) (a : Q) :
  exists m,
    fold_left (fun acc x =>
                 match x, acc with
                 | NaN, _ => acc
                 | _, NaN => x
                 | _, _ => if fle x acc then x else acc
                 end) (map Fin l) (Fin a) = Fin m
    /\ In m (a :: l) /\ forall x, In x (a :: l) -> m <= x.
Proof.
  revert a. induction l as [|q l IH]; intro a.
  - exists a. cbn. split; [reflexivity|]. split; [now left|].
    intros x [<- | []]. apply Qle_refl.
  - cbn [map fold_left fle].
    destruct (Qle_bool q a) eqn:E.
    + apply Qle_bool_iff in E.
      destruct (IH q) as (m & F & I & L). exists m. split; [exact F|]. split.
      * destruct I as [<- | I]; [right; now left | right; now right].
      * intros x [<- | [<- | Hx]].
        -- eapply Qle_trans; [apply L; now left | exact E].
        -- apply L. now left.
        -- apply L. now right.
    + assert (E' : a < q).
      { apply Qnot_le_lt. intro C. apply Qle_bool_iff in C. congruence. }
      destruct (IH a) as (m & F & I & L). exists m. split; [exact F|]. split.
      * destruct I as [<- | I]; [now left | right; now right].
      * intros x [<- | [<- | Hx]].
        -- apply L. now left.
        -- eapply Qle_trans; [apply L; now left | lra].
        -- apply L. now right.
Qed.

Lemma nan_extremum_fold_max (l : list Q) (a : Q) :
  exists m,
    fold_left (fun acc x =>
                 match x, acc with
                 | NaN, _ => acc
                 | _, NaN => x
                 | _, _ => if fge x acc then x else acc
                 end) (map Fin l) (Fin a) = Fin m
    /\ In m (a :: l) /\ forall x, In x (a :: l) -> x <= m.
Proof.
  revert a. induction l as [|q l IH]; intro a.
  - exists a. cbn. split; [reflexivity|]. split; [now left|].
    intros x [<- | []]. apply Qle_refl.
  - cbn [map fold_left].
    change (fge (Fin q) (Fin a)) with (Qle_bool a q).
    destruct (Qle_bool a q) eqn:E.
    + apply Qle_bool_iff in E.
      destruct (IH q) as (m & F & I & L). exists m. split; [exact F|]. split.
      * destruct I as [<- | I]; [right; now left | right; now right].
      * intros x [<- | [<- | Hx]].
        -- eapply Qle_trans; [exact E | apply L; now left].
        -- apply L. now left.
        -- apply L. now right.
    + assert (E' : q < a).
      { apply Qnot_le_lt. intro C. apply Qle_bool_iff in C. congruence. }
      destruct (IH a) as (m & F & I & L). exists m. split; [exact F|]. split.
      * destruct I as [<- | I]; [now left | right; now right].
      * intros x [<- | [<- | Hx]].
        -- apply L. now left.
        -- eapply Qle_trans; [|apply L; now left]. lra.
        -- apply L. now right.
Qed.

(** [np.nanmin] and [np.nanmax] of a band of finite values. *)
Lemma nan_extremum_finite (xs : list Q) :
  xs <> [] ->
  exists mn mx,
    raster.nan_extremum fle (map Fin xs) = Returns (Fin mn)
    /\ raster.nan_extremum fge (map Fin xs) = Returns (Fin mx)
    /\ In mn xs /\ In mx xs
    /\ forall x, In x xs -> mn <= x /\ x <= mx.
Proof.
  destruct xs as [|a l]; [congruence|]. intros _.
  unfold raster.nan_extremum, raster.nan_reduce. cbn [map fold_left].
  destruct (nan_extremum_fold_min l a) as (mn & Fn & In_n & Ln).
  destruct (nan_extremum_fold_max l a) as (mx & Fx & In_x & Lx).
  exists mn, mx. rewrite Fn, Fx. repeat split; auto.
Qed.

Lemma map_id_in {A : Type} (f : A -> A) (l : list A) :
  (forall x, In x l -> f x = x) -> map f l = l.
Proof.
  intro H. rewrite <- (map_id l) at 2. apply map_ext_in. exact H.
Qed.

Lemma filter_all {A : Type} (p : A -> bool) (l : list A) :
  (forall x, In x l -> p x = true) -> filter p l = l.
Proof.
  induction l as [|a l IH]; intro H; cbn [filter]; [reflexivity|].
  rewrite (H a (or_introl eq_refl)). f_equal. apply IH.
  intros x Hx. apply H. now right.
Qed.

(** A band of finite values, none of them the nodata value and none
    above the limit, goes through the first two steps unchanged. *)
Lemma raster_normalize_plain (xs : list Q) (nodata limit : fnum) (mn mx : fnum) :
  Forall (fun x => flt limit (Fin x) = false /\ feq (Fin x) nodata = false) xs ->
  raster.nan_extremum fle (map Fin xs) = Returns mn ->
  raster.nan_extremum fge (map Fin xs) = Returns mx ->
  raster.normalize (map Fin xs) nodata limit
  = Returns (map (fun x =>
                    let y := fdiv (Fin x) (fsub mx mn) in
                    let z := match y with NaN => Fin 1 | _ => y end in
                    if flt z (Fin 0) then NaN else z) xs).
Proof.
  intros F Hmn Hmx. unfold raster.normalize. cbv zeta.
  assert (C : map (fun x => if flt limit x then NaN else x) (map Fin xs)
              = map Fin xs).
  { apply map_id_in. intros x Hx. apply in_map_iff in Hx.
    destruct Hx as (q & <- & Hq).
    destruct (proj1 (Forall_forall _ _) F q Hq) as [L _]. rewrite L.
    reflexivity. }
  rewrite C.
  assert (D : filter (fun x => negb (feq x nodata)) (map Fin xs) = map Fin xs).
  { apply filter_all. intros x Hx. apply in_map_iff in Hx.
    destruct Hx as (q & <- & Hq).
    destruct (proj1 (Forall_forall _ _) F q Hq) as [_ N]. rewrite N.
    reflexivity. }
  rewrite D, Hmn, Hmx. cbn [bind]. f_equal.
  rewrite !map_map. apply map_ext_in. intros q Hq.
  destruct (proj1 (Forall_forall _ _) F q Hq) as [_ N]. rewrite N.
  reflexivity.
Qed.

(** X16.  On a band of finite values that are not negative, none of
    them the nodata value or above the limit, with minimum [mn] below
    its maximum [mx], [normalize] of [raster.py] returns [x / (mx - mn)]
    for the cell [x]: it divides by the range without subtracting the
    minimum, so the results lie between [mn / (mx - mn)] and
    [mn / (mx - mn) + 1], that is in [0,1] only when the minimum is 0. *)
Theorem raster_normalize_divides_by_range (xs : list Q) (nodata limit : fnum)
    (mn mx : Q) :
  Forall (fun x => flt limit (Fin x) = false /\ feq (Fin x) nodata = false) xs ->
  Forall (fun x => 0 <= x) xs ->
  In mn xs -> In mx xs -> (forall x, In x xs -> mn <= x /\ x <= mx) ->
  mn < mx ->
  exists out,
    raster.normalize (map Fin xs) nodata limit = Returns out
    /\ Forall2 (fun x y => exists q, y = Fin q /\ q == x / (mx - mn)
                                     /\ mn / (mx - mn) <= q
                                     /\ q <= mn / (mx - mn) + 1)
         xs out.
Proof.
  intros F P Hmn Hmx B R.
  destruct (@nan_extremum_finite xs) as (mn' & mx' & Nn & Nx & In_n & In_x & B').
  { intro E. rewrite E in Hmn. destruct Hmn. }
  rewrite (@raster_normalize_plain xs nodata limit _ _ F Nn Nx).
  eexists. split; [reflexivity|].
  assert (En : mn' == mn).
  { apply Qle_antisym; [apply (B' mn Hmn) | apply (B mn' In_n)]. }
  assert (Ex : mx' == mx).
  { apply Qle_antisym; [apply (B mx' In_x) | apply (B' mx Hmx)]. }
  cbn [fsub fneg fadd].
  assert (Z : Qeq_bool (mx' + - mn') 0 = false) by (apply Qeq_bool_false; lra).
  rewrite <- (map_id xs) at 1. apply Forall2_map_same.
  intros x Hx. cbv zeta. cbn [fdiv]. rewrite Z.
  pose proof (proj1 (Forall_forall _ _) P x Hx) as X0. cbv beta in X0.
  destruct (B x Hx) as [Lx Ux].
  assert (D : 0 < mx - mn) by lra.
  assert (E : x / (mx' + - mn') == x / (mx - mn)).
  { assert (E1 : mx' + - mn' == mx - mn) by lra. rewrite E1. reflexivity. }
  assert (Q0 : 0 <= x / (mx' + - mn')).
  { rewrite E. apply Qle_shift_div_l; [exact D | lra]. }
  assert (N : flt (Fin (x / (mx' + - mn'))) (Fin 0) = false)
    by (apply Qltb_ge; exact Q0).
  rewrite N. eexists. split; [reflexivity|]. split; [exact E|].
  rewrite E. split.
  - apply Qle_shift_div_l; [exact D|].
    assert (T : mn / (mx - mn) * (mx - mn) == mn) by (field; lra). lra.
  - apply Qle_shift_div_r; [exact D|].
    assert (T : (mn / (mx - mn) + 1) * (mx - mn) == mn + (mx - mn))
      by (field; lra). lra.
Qed.

Lemma raster_normalize_divides_by_range_witness :
  exists out,
    raster.normalize (map Fin [5; 10; 7]) (Fin (-9999)) PInf = Returns out
    /\ Forall2 (fun x y => exists q, y = Fin q /\ q == x / (10 - 5)
                                     /\ 5 / (10 - 5) <= q
                                     /\ q <= 5 / (10 - 5) + 1)
         [5; 10; 7] out.
Proof.
  apply (@raster_normalize_divides_by_range [5; 10; 7] (Fin (-9999)) PInf 5 10).
  - repeat constructor.
  - repeat constructor; vm_compute; discriminate.
  - cbn. auto.
  - cbn. auto.
  - intros x [<- | [<- | [<- | []]]]; split; vm_compute; discriminate.
  - reflexivity.
Defined.

(** ** Population calibration *)

Lemma fsum_scaled (c : Q) (l : list Q) :
  exists q, fsum (map (fun p => fmul (Fin p) (Fin c)) l) = Fin q
            /\ q == series_sum l * c.
Proof.
  induction l as [|p l (q & E & H)].
  - exists 0. split; [reflexivity|]. cbn. ring.
  - exists (p * c + q). unfold fsum in *. cbn [map fold_right]. rewrite E.
    split; [reflexivity|]. unfold series_sum in *. cbn [fold_right].
    rewrite H. ring.
Qed.

(** X17.  When the raw populations do not add up to zero,
    [calibrate_current_pop] gives every cell a finite population, in the
    proportion [Population_start_year / total] to its raw population, and
    the calibrated populations add up to [Population_start_year]. *)
Theorem calibrate_current_pop_total (sp : Specs) (Pop : list Q) :
  ~ series_sum Pop == 0 ->
  (exists total,
      fsum (calibrate_current_pop sp Pop) = Fin total
      /\ total == Population_start_year sp)
  /\ Forall2 (fun p c => exists q,
                  c = Fin q
                  /\ q * series_sum Pop == p * Population_start_year sp)
       Pop (calibrate_current_pop sp Pop).
Proof.
  intro T. unfold calibrate_current_pop, calibration_factor. cbn [fdiv].
  assert (Z : Qeq_bool (series_sum Pop) 0 = false)
    by (apply Qeq_bool_false; exact T).
  rewrite Z. split.
  - destruct (fsum_scaled (Population_start_year sp / series_sum Pop) Pop)
      as (q & E & H).
    exists q. split; [exact E|]. rewrite H. field. exact T.
  - rewrite <- (map_id Pop) at 1. apply Forall2_map_same.
    intros p _. eexists. split; [reflexivity|]. field. exact T.
Qed.

Lemma calibrate_current_pop_total_witness :
  (exists total,
      fsum (calibrate_current_pop (scenario (1 # 2)) [30; 10; 10]) = Fin total
      /\ total == 100)
  /\ Forall2 (fun p c => exists q, c = Fin q /\ q * 50 == p * 100)
       [30; 10; 10] (calibrate_current_pop (scenario (1 # 2)) [30; 10; 10]).
Proof.
  apply (@calibrate_current_pop_total (scenario (1 # 2)) [30; 10; 10]).
  vm_compute. discriminate.
Defined.

(** X18.  When the raw populations add up to zero,
    [calibrate_current_pop] raises nothing and returns a column without a
    single finite value: a cell whose raw population is zero gets NaN,
    any other cell an infinity or NaN. *)
Theorem calibrate_current_pop_zero_total (sp : Specs) (Pop : list Q) :
  series_sum Pop == 0 ->
  Forall2 (fun p c => ~ is_finite c /\ (p == 0 -> c = NaN))
    Pop (calibrate_current_pop sp Pop).
Proof.
  intro T. unfold calibrate_current_pop, calibration_factor. cbn [fdiv].
  assert (Z : Qeq_bool (series_sum Pop) 0 = true)
    by (apply Qeq_bool_iff; exact T).
  rewrite Z. rewrite <- (map_id Pop) at 1. apply Forall2_map_same.
  intros p _.
  destruct (Qeq_bool (Population_start_year sp) 0); [cbn; auto|].
  destruct (Qltb 0 (Population_start_year sp)); cbn [fmul];
    unfold inf_times; destruct (Qeq_bool p 0) eqn:E;
    try (split; [cbn; auto | reflexivity]);
    (split; [destruct (Bool.eqb _ _); cbn; auto|]);
    intro C; apply Qeq_bool_iff in C; congruence.
Qed.

Lemma calibrate_current_pop_zero_total_witness :
  Forall2 (fun p c => ~ is_finite c /\ (p == 0 -> c = NaN))
    [0; 0] (calibrate_current_pop (scenario (1 # 2)) [0; 0]).
Proof.
  apply (@calibrate_current_pop_zero_total (scenario (1 # 2)) [0; 0]).
  reflexivity.
Defined.

(** ** Value of time *)

(** X19.  On a column of finite wealth values with minimum [mn] below
    its maximum [mx], and a wage that is not negative,
    [get_value_of_time] gives the cell of wealth [w] the value
    [((w - mn) / (mx - mn) * 0.3 + 0.2) * wage / 30 / 24], which lies
    between 0.2 and 0.5 times [wage / 30 / 24]. *)
Theorem value_of_time_range (ws : list Q) (wage mn mx : Q) :
  In mn ws -> In mx ws -> (forall x, In x ws -> mn <= x /\ x <= mx) ->
  mn < mx -> 0 <= wage ->
  exists out,
    get_value_of_time (map Fin ws) wage = Returns out
    /\ Forall2 (fun w v => exists q,
                    v = Fin q
                    /\ q == ((w - mn) / (mx - mn) * (3 # 10) + (2 # 10))
                            * wage / 30 / 24
                    /\ (2 # 10) * wage / 30 / 24 <= q
                    /\ q <= (5 # 10) * wage / 30 / 24)
         ws out.
Proof.
  intros Hmn Hmx B R W. unfold get_value_of_time.
  destruct (@nan_extremum_finite ws) as (mn' & mx' & -> & -> & In_n & In_x & B').
  { intro E. rewrite E in Hmn. destruct Hmn. }
  cbn [bind]. eexists. split; [reflexivity|]. cbv zeta.
  assert (En : mn' == mn).
  { apply Qle_antisym; [apply (B' mn Hmn) | apply (B mn' In_n)]. }
  assert (Ex : mx' == mx).
  { apply Qle_antisym; [apply (B mx' In_x) | apply (B' mx Hmx)]. }
  rewrite map_map. rewrite <- (map_id ws) at 1. apply Forall2_map_same.
  intros w Hw. cbn [fsub fneg fadd fdiv fmul].
  assert (Z : Qeq_bool (mx' + - mn') 0 = false) by (apply Qeq_bool_false; lra).
  rewrite Z. cbn [fmul fadd fdiv].
  change (Qeq_bool 30 0) with false. change (Qeq_bool 24 0) with false.
  cbv iota.
  destruct (B w Hw) as [Lw Uw].
  assert (D : 0 < mx - mn) by lra.
  assert (E : (w + - mn') / (mx' + - mn') == (w - mn) / (mx - mn)).
  { assert (E1 : mx' + - mn' == mx - mn) by lra.
    assert (E2 : w + - mn' == w - mn) by lra.
    rewrite E1, E2. reflexivity. }
  assert (N0 : 0 <= (w - mn) / (mx - mn))
    by (apply Qle_shift_div_l; [exact D | lra]).
  assert (N1 : (w - mn) / (mx - mn) <= 1)
    by (apply Qle_shift_div_r; [exact D | lra]).
  eexists. split; [reflexivity|]. split.
  - rewrite E. assert (T : (5 # 10) - (2 # 10) == 3 # 10) by reflexivity.
    rewrite T. reflexivity.
  - rewrite E. set (t := (w - mn) / (mx - mn)) in *.
    assert (T : (5 # 10) - (2 # 10) == 3 # 10) by reflexivity. rewrite T.
    split.
    + apply Qle_shift_div_l; [reflexivity|].
      apply Qle_shift_div_l; [reflexivity|].
      assert (X : (2 # 10) * wage / 30 / 24 * 24 * 30 == (2 # 10) * wage)
        by field. rewrite X. nra.
    + apply Qle_shift_div_r; [reflexivity|].
      apply Qle_shift_div_r; [reflexivity|].
      assert (X : (5 # 10) * wage / 30 / 24 * 24 * 30 == (5 # 10) * wage)
        by field. rewrite X. nra.
Qed.

Lemma value_of_time_range_witness :
  exists out,
    get_value_of_time (map Fin [-1; 1; 3]) 720 = Returns out
    /\ Forall2 (fun w v => exists q,
                    v = Fin q
                    /\ q == ((w - -1) / (3 - -1) * (3 # 10) + (2 # 10))
                            * 720 / 30 / 24
                    /\ (2 # 10) * 720 / 30 / 24 <= q
                    /\ q <= (5 # 10) * 720 / 30 / 24)
         [-1; 1; 3] out.
Proof.
  apply (@value_of_time_range [-1; 1; 3] 720 (-1) 3).
  - cbn. auto.
  - cbn. auto.
  - intros x [<- | [<- | [<- | []]]]; split; vm_compute; discriminate.
  - reflexivity.
  - vm_compute. discriminate.
Defined.

(** X20.  On a column without rows [get_value_of_time] raises
    [ValueError].  On a column that has rows, all with the same finite
    wealth, it raises nothing and returns NaN for every cell. *)
Theorem value_of_time_degenerate (ws : list Q) (wage c : Q) :
  get_value_of_time [] wage = Raises ValueError
  /\ (ws <> [] -> Forall (fun w => w == c) ws ->
      get_value_of_time (map Fin ws) wage = Returns (map (fun _ => NaN) ws)).
Proof.
  split; [reflexivity|]. intros Hne F.
  unfold get_value_of_time.
  destruct (@nan_extremum_finite ws)
    as (mn & mx & -> & -> & In_n & In_x & B); [exact Hne|].
  cbn [bind]. f_equal. cbv zeta.
  rewrite map_map. apply map_ext_in. intros w Hw.
  pose proof (proj1 (Forall_forall _ _) F w Hw) as Ew.
  pose proof (proj1 (Forall_forall _ _) F mn In_n) as En.
  pose proof (proj1 (Forall_forall _ _) F mx In_x) as Ex.
  cbv beta in Ew, En, Ex.
  cbn [fsub fneg fadd fdiv].
  assert (Z : Qeq_bool (mx + - mn) 0 = true) by (apply Qeq_bool_iff; lra).
  assert (Z' : Qeq_bool (w + - mn) 0 = true) by (apply Qeq_bool_iff; lra).
  rewrite Z, Z'. reflexivity.
Qed.

Lemma value_of_time_degenerate_witness :
  get_value_of_time (map Fin [2; 2; 2]) 720 = Returns [NaN; NaN; NaN].
Proof.
  apply (proj2 (@value_of_time_degenerate [2; 2; 2] 720 2)).
  - discriminate.
  - repeat constructor.
Defined.

(** ** Weighted index *)

Lemma sum_weights_fold (ws : list Q) (w0 : Q) :
  fold_left Qplus ws w0 == w0 + sum_weights ws.
Proof.
  unfold sum_weights. revert w0. induction ws as [|w ws IH]; intro w0.
  - cbn. ring.
  - cbn [fold_left]. rewrite (IH (w0 + w)), (IH (0 + w)). ring.
Qed.

Lemma sum_weights_cons (w : Q) (ws : list Q) :
  sum_weights (w :: ws) == w + sum_weights ws.
Proof.
  unfold sum_weights at 1. cbn [fold_left]. rewrite sum_weights_fold. ring.
Qed.

(** Adding finite layers of one length to a finite array. *)
Lemma add_finite_layers (n : nat) (qss : list (list Q)) (ws : list Q)
    (acc : list Q) :
  List.length acc = n ->
  Forall (fun qs => List.length qs = n) qss ->
  List.length ws = List.length qss ->
  exists res,
    fold_left add_array
      (map (fun rw => scale (snd rw) (fst rw))
           (combine (map (map Fin) qss) ws))
      (Array (map Fin acc)) = Array (map Fin res)
    /\ List.length res = n
    /\ forall k lo hi w0 a,
         Forall (fun w => 0 <= w) ws ->
         Forall (fun qs => exists x, nth_error qs k = Some x
                                     /\ lo <= x /\ x <= hi) qss ->
         nth_error acc k = Some a -> between lo hi w0 a ->
         exists r, nth_error res k = Some r
                   /\ between lo hi (w0 + sum_weights ws) r.
Proof.
  intros La Lq. revert ws acc La.
  induction Lq as [|qs qss Lqs Lq IH]; intros ws acc La Lw.
  - destruct ws; [|discriminate]. exists acc. cbn. split; [reflexivity|].
    split; [exact La|]. intros k lo hi w0 a _ _ Ha [B1 B2].
    exists a. split; [exact Ha|]. unfold between. split; lra.
  - destruct ws as [|w ws]; [discriminate|]. injection Lw as Lw.
    cbn [map combine fold_left add_array fst snd].
    set (acc' := map (fun aq => fst aq + w * snd aq) (combine acc qs)).
    assert (E : map (fun xy => fadd (fst xy) (snd xy))
                  (combine (map Fin acc) (scale w (map Fin qs)))
                = map Fin acc').
    { unfold acc', scale. rewrite !map_map.
      clear -La Lqs. revert qs n La Lqs.
      induction acc as [|a acc IHa]; intros [|q qs] n La Lqs; cbn;
        try reflexivity.
      f_equal. destruct n; [discriminate|].
      apply (IHa qs n); [now injection La | now injection Lqs]. }
    rewrite E.
    assert (La' : List.length acc' = n).
    { unfold acc'. rewrite length_map, length_combine. lia. }
    destruct (IH ws acc' La' Lw) as (res & F & Lr & H).
    exists res. split; [exact F|]. split; [exact Lr|].
    intros k lo hi w0 a Pw Fq Ha [B1 B2].
    inversion Pw as [|? ? Pw0 Pws]; subst.
    inversion Fq as [|? ? (x & Hx & X1 & X2) Fqs]; subst.
    assert (Ha' : nth_error acc' k = Some (a + w * x)).
    { unfold acc'. rewrite nth_error_map.
      assert (C : nth_error (combine acc qs) k = Some (a, x)).
      { clear -Ha Hx. revert k qs Ha Hx.
        induction acc as [|a0 acc IHa]; intros [|k] [|q qs] Ha Hx; cbn in *;
          try discriminate.
        - congruence.
        - apply IHa; assumption. }
      rewrite C. reflexivity. }
    destruct (H k lo hi (w0 + w) (a + w * x) Pws Fqs Ha') as (r & Hr & R1 & R2).
    { unfold between. split; nra. }
    exists r. split; [exact Hr|].
    pose proof (sum_weights_cons w ws) as S.
    unfold between in *. rewrite S. split; lra.
Qed.

(** X21.  [index] of [raster.py], on finite layers of one shape with as
    many weights as layers, no negative weight and a positive weight sum,
    returns an array of that shape in which every cell is a weighted mean
    of the layers' cells: it lies between any two bounds that hold at
    that cell in every layer, so an index of layers in [0,1] is in
    [0,1] and an index of equal layers is that layer. *)
Theorem index_between_layers (n : nat) (qs : list Q) (qss : list (list Q))
    (w : Q) (ws : list Q) :
  Forall (fun l => List.length l = n) (qs :: qss) ->
  List.length ws = List.length qss ->
  Forall (fun x => 0 <= x) (w :: ws) ->
  0 < sum_weights (w :: ws) ->
  exists a,
    index (map (map Fin) (qs :: qss)) (w :: ws) = Grid (map Fin a)
    /\ List.length a = n
    /\ forall k lo hi,
         Forall (fun l => exists x, nth_error l k = Some x
                                    /\ lo <= x /\ x <= hi) (qs :: qss) ->
         exists y, nth_error a k = Some y /\ lo <= y /\ y <= hi.
Proof.
  intros Lq Lw Pw W.
  inversion Lq as [|? ? Lqs Lqss]; subst.
  inversion Pw as [|? ? Pw0 Pws]; subst.
  unfold index, sum_arrays. cbv zeta.
  cbn [map combine fold_left add_array fst snd].
  set (acc := map (fun x => 0 + w * x) qs).
  assert (E : map (fadd (Fin 0)) (scale w (map Fin qs)) = map Fin acc).
  { unfold acc, scale. rewrite !map_map. reflexivity. }
  rewrite E.
  assert (La : List.length acc = List.length qs)
    by (unfold acc; apply length_map).
  destruct (@add_finite_layers (List.length qs) qss ws acc La Lqss Lw)
    as (res & F & Lr & H).
  assert (Z : Qeq_bool (sum_weights (w :: ws)) 0 = false)
    by (apply Qeq_bool_false; lra).
  exists (map (fun x => x / sum_weights (w :: ws)) res).
  split; [|split].
  - rewrite F. cbn [divide]. f_equal. rewrite !map_map. apply map_ext.
    intro x. cbn [fdiv]. rewrite Z. reflexivity.
  - rewrite length_map. exact Lr.
  - intros k lo hi Fk. inversion Fk as [|? ? (x & Hx & X1 & X2) Fks]; subst.
    destruct (H k lo hi w (0 + w * x) Pws Fks) as (r & Hr & R1 & R2).
    + unfold acc. rewrite nth_error_map, Hx. reflexivity.
    + unfold between. split; nra.
    + exists (r / sum_weights (w :: ws)). split.
      * rewrite nth_error_map, Hr. reflexivity.
      * pose proof (sum_weights_cons w ws) as S. split.
        -- apply Qle_shift_div_l; [exact W|]. rewrite S. exact R1.
        -- apply Qle_shift_div_r; [exact W|]. rewrite S. exact R2.
Qed.

Lemma index_between_layers_witness :
  exists a,
    index (map (map Fin) [[0; 1]; [1; 1]]) [1; 3] = Grid (map Fin a)
    /\ List.length a = 2%nat
    /\ forall k lo hi,
         Forall (fun l => exists x, nth_error l k = Some x
                                    /\ lo <= x /\ x <= hi) [[0; 1]; [1; 1]] ->
         exists y, nth_error a k = Some y /\ lo <= y /\ y <= hi.
Proof.
  apply (@index_between_layers 2 [0; 1] [[1; 1]] 1 [3]).
  - repeat constructor.
  - reflexivity.
  - repeat constructor; vm_compute; discriminate.
  - reflexivity.
Defined.

(** X22.  [index] of [raster.py] on lists of unequal length: the
    rasters beyond the last weight are ignored, and the weights beyond
    the last raster still count in the divisor, so that one finite layer
    with the weights [w :: more] comes out multiplied by
    [w / sum (w :: more)]. *)
Theorem index_unequal_lengths :
  (forall (rasters more : list (list fnum)) (weights : list Q),
      List.length rasters = List.length weights ->
      index (rasters ++ more) weights = index rasters weights)
  /\ (forall (xs : list Q) (w : Q) (more : list Q),
         ~ sum_weights (w :: more) == 0 ->
         exists a,
           index [map Fin xs] (w :: more) = Grid (map Fin a)
           /\ Forall2 (fun x q => q * sum_weights (w :: more) == w * x) xs a).
Proof.
  split.
  - intros rasters more weights L. unfold index. cbv zeta.
    replace (combine (rasters ++ more) weights) with (combine rasters weights);
      [reflexivity|].
    revert weights L. induction rasters as [|r rs IH]; intros [|w ws] L;
      try discriminate.
    + destruct more; reflexivity.
    + cbn [app combine]. f_equal. apply IH. now injection L.
  - intros xs w more W. unfold index, sum_arrays. cbv zeta.
    cbn [map combine fold_left add_array fst snd divide].
    exists (map (fun x => (0 + w * x) / sum_weights (w :: more)) xs). split.
    + f_equal. unfold scale. rewrite !map_map. apply map_ext. intro x.
      cbn [fmul fadd fdiv]. apply Qeq_bool_false in W. rewrite W. reflexivity.
    + rewrite <- (map_id xs) at 1. apply Forall2_map_same.
      intros x _. field. exact W.
Qed.

Lemma index_unequal_lengths_witness :
  index ([[Fin 1; Fin 2]] ++ [[Fin 5; Fin 7]]) [3] = index [[Fin 1; Fin 2]] [3]
  /\ exists a,
       index [map Fin [4; 8]] [1; 3] = Grid (map Fin a)
       /\ Forall2 (fun x q => q * sum_weights [1; 3] == 1 * x) [4; 8] a.
Proof.
  split.
  - apply (proj1 index_unequal_lengths [[Fin 1; Fin 2]] [[Fin 5; Fin 7]] [3]).
    reflexivity.
  - apply (proj2 index_unequal_lengths [4; 8] 1 [3]).
    vm_compute. discriminate.
Defined.

(** X23.  [DataProcessor.index] is [index] of [raster.py] on the
    normalised rasters and the weights of its layers, taken in the order
    of the dict; on a dict without layers it raises
    [ZeroDivisionError]. *)
Theorem DataProcessor_index_is_index (layers : dict DataProcessor.layer) :
  DataProcessor.index layers
  = index (map (fun nl => DataProcessor.normalized_layer (snd nl)) layers)
          (map (fun nl => DataProcessor.weight (snd nl)) layers)
  /\ DataProcessor.index [] = ZeroDivisionError.
Proof.
  split; [|reflexivity].
  unfold DataProcessor.index, index. cbv zeta. f_equal. f_equal.
  induction layers as [|[name l] layers IH]; [reflexivity|].
  cbn [map combine fst snd]. f_equal. exact IH.
Qed.

(** ** Layer selection *)

Lemma dict_get_set_same {V : Type} (k : string) (v : V) (d : dict V) :
  dict_get k (dict_set k v d) = Some v.
Proof.
  induction d as [|[k' v'] d IH]; cbn [dict_set dict_get].
  - rewrite String.eqb_refl. reflexivity.
  - destruct (String.eqb k' k) eqn:E; cbn [dict_get]; rewrite E;
      [reflexivity | exact IH].
Qed.

Lemma dict_get_set_other {V : Type} (k k0 : string) (v : V) (d : dict V) :
  k0 <> k -> dict_get k0 (dict_set k v d) = dict_get k0 d.
Proof.
  intro N. induction d as [|[k' v'] d IH]; cbn [dict_set dict_get].
  - destruct (String.eqb k k0) eqn:E; [|reflexivity].
    apply String.eqb_eq in E. congruence.
  - destruct (String.eqb k' k) eqn:E; cbn [dict_get].
    + destruct (String.eqb k' k0) eqn:E0; [|reflexivity].
      apply String.eqb_eq in E, E0. congruence.
    + rewrite IH. reflexivity.
Qed.

Section LayersFacts.

Variable L : Type.
Variable self_layers : dict (dict L).

(** What the comprehension leaves under its category: the dict of the
    last name. *)
Lemma comprehend_names_last (category : string) (names : list string)
    (layers d : dict (dict L)) :
  comprehend_names self_layers category names layers = Found d ->
  (forall c, c <> category -> dict_get c d = dict_get c layers)
  /\ match names with
     | [] => d = layers
     | _ :: _ =>
         exists l,
           layer_of self_layers category (last names ""%string) = Found l
           /\ dict_get category d = Some [(last names ""%string, l)]
     end.
Proof.
  revert layers. induction names as [|n names IH]; intros layers H.
  - cbn in H. injection H as <-. auto.
  - cbn [comprehend_names] in H.
    destruct (layer_of self_layers category n) as [l|] eqn:El; [|discriminate].
    destruct (IH _ H) as [Fr La]. split.
    + intros c Nc. rewrite (Fr c Nc). apply dict_get_set_other. exact Nc.
    + destruct names as [|n' names].
      * subst d. exists l. cbn [last]. split; [exact El|].
        apply dict_get_set_same.
      * exact La.
Qed.

Lemma comprehend_spec (items : dict (list string)) (layers d : dict (dict L)) :
  NoDup (map fst items) ->
  comprehend self_layers items layers = Found d ->
  (forall c, ~ In c (map fst items) -> dict_get c d = dict_get c layers)
  /\ forall category names,
       In (category, names) items ->
       match names with
       | [] => dict_get category d = dict_get category layers
       | _ :: _ =>
           exists l,
             layer_of self_layers category (last names ""%string) = Found l
             /\ dict_get category d = Some [(last names ""%string, l)]
       end.
Proof.
  revert layers. induction items as [|[c0 ns0] items IH]; intros layers ND H.
  - cbn in H. injection H as <-. split; [reflexivity | intros ? ? []].
  - cbn [comprehend] in H. cbn [map fst] in ND.
    inversion ND as [|? ? Nin ND']; subst.
    destruct (comprehend_names self_layers c0 ns0 layers) as [layers'|] eqn:E;
      [|discriminate].
    destruct (comprehend_names_last _ _ _ E) as [Fr La].
    destruct (IH _ ND' H) as [Fr' Sp]. split.
    + intros c Nc. cbn [map fst In] in Nc.
      rewrite Fr' by tauto. apply Fr. intro C. apply Nc. left. congruence.
    + intros category names [Eq | Hin].
      * injection Eq as <- <-. rewrite (Fr' c0 Nin).
        destruct ns0; [rewrite La; reflexivity | exact La].
      * assert (Nc : category <> c0).
        { intro C. subst. apply Nin.
          apply (in_map fst) in Hin. exact Hin. }
        pose proof (Sp _ _ Hin) as S.
        destruct names; [rewrite S; apply Fr; exact Nc | exact S].
Qed.

(** X24.  When [OnSSTOVE.get_layers] returns on a selection, it holds
    for each selected category only the last of the names asked for: the
    dict under the category has that one layer, whatever the number of
    names, and a category asked for with no name is absent from the
    result. *)
Theorem get_layers_keeps_last_name (items : dict (list string))
    (d : dict (dict L)) :
  NoDup (map fst items) ->
  get_layers self_layers (only items) = Found d ->
  forall category names,
    In (category, names) items ->
    match names with
    | [] => dict_get category d = None
    | _ :: _ =>
        exists l,
          layer_of self_layers category (last names ""%string) = Found l
          /\ dict_get category d = Some [(last names ""%string, l)]
    end.
Proof.
  intros ND H category names Hin. cbn [get_layers] in H.
  destruct (comprehend_spec _ _ ND H) as [_ Sp].
  pose proof (Sp _ _ Hin) as S. destruct names; exact S.
Qed.

(** The inner loop of [DataProcessor.get_layers]. *)
Lemma copy_names_spec (category : string) (names : list string)
    (inner d : dict L) :
  copy_names self_layers category names inner = Found d ->
  (forall n, ~ In n names -> dict_get n d = dict_get n inner)
  /\ forall n, In n names ->
               exists l, layer_of self_layers category n = Found l
                         /\ dict_get n d = Some l.
Proof.
  revert inner. induction names as [|n0 names IH]; intros inner H.
  - cbn in H. injection H as <-. split; [reflexivity | intros ? []].
  - cbn [copy_names] in H.
    destruct (layer_of self_layers category n0) as [l0|] eqn:El; [|discriminate].
    destruct (IH _ H) as [Fr Sp]. split.
    + intros n Nn. cbn [In] in Nn. rewrite Fr by tauto.
      apply dict_get_set_other. intro C. apply Nn. left. congruence.
    + intros n [<- | Hn].
      * destruct (in_dec string_dec n0 names) as [I | NI].
        -- destruct (Sp _ I) as (l & E1 & E2). exists l. auto.
        -- exists l0. split; [exact El|]. rewrite (Fr _ NI).
           apply dict_get_set_same.
      * apply Sp. exact Hn.
Qed.

Lemma copy_categories_spec (items : dict (list string))
    (layers d : dict (dict L)) :
  NoDup (map fst items) ->
  copy_categories self_layers items layers = Found d ->
  (forall c, ~ In c (map fst items) -> dict_get c d = dict_get c layers)
  /\ forall category names,
       In (category, names) items ->
       exists inner,
         copy_names self_layers category names [] = Found inner
         /\ dict_get category d = Some inner.
Proof.
  revert layers. induction items as [|[c0 ns0] items IH]; intros layers ND H.
  - cbn in H. injection H as <-. split; [reflexivity | intros ? ? []].
  - cbn [copy_categories] in H. cbn [map fst] in ND.
    inversion ND as [|? ? Nin ND']; subst.
    destruct (copy_names self_layers c0 ns0 []) as [inner|] eqn:E;
      [|discriminate].
    destruct (IH _ ND' H) as [Fr Sp]. split.
    + intros c Nc. cbn [map fst In] in Nc.
      rewrite Fr by tauto. apply dict_get_set_other.
      intro C. apply Nc. left. congruence.
    + intros category names [Eq | Hin].
      * injection Eq as <- <-. exists inner. split; [exact E|].
        rewrite (Fr c0 Nin). apply dict_get_set_same.
      * apply Sp. exact Hin.
Qed.

(** X25.  When [DataProcessor.get_layers] returns on a selection, the
    result has a dict for every selected category, also one asked for
    with no name, and that dict holds every name asked for, with the
    layer [self.layers] has under it, and no other name. *)
Theorem DataProcessor_get_layers_keeps_all_names (items : dict (list string))
    (d : dict (dict L)) :
  NoDup (map fst items) ->
  DataProcessor.get_layers self_layers (only items) = Found d ->
  forall category names,
    In (category, names) items ->
    exists inner,
      dict_get category d = Some inner
      /\ (forall n, In n names ->
                    exists l, layer_of self_layers category n = Found l
                              /\ dict_get n inner = Some l)
      /\ (forall n, ~ In n names -> dict_get n inner = None).
Proof.
  intros ND H category names Hin. cbn [DataProcessor.get_layers] in H.
  destruct (copy_categories_spec _ _ ND H) as [_ Sp].
  destruct (Sp _ _ Hin) as (inner & E & G).
  destruct (copy_names_spec _ _ _ E) as [Fr S].
  exists inner. split; [exact G|]. split; [exact S|].
  intros n Nn. rewrite (Fr n Nn). reflexivity.
Qed.

(** X26.  On ['all'], and on a selection that names exactly one layer in
    each category, [OnSSTOVE.get_layers] and [DataProcessor.get_layers]
    give the same result, a [KeyError] included.  On a selection on
    which both return, their results differ as soon as a category names
    no layer, or names a layer other than the last one: under that
    category, the category or some name is in the result of
    [DataProcessor.get_layers] and not in that of [OnSSTOVE.get_layers]. *)
Theorem get_layers_agree_on_single_names :
  (forall layers,
      match layers with
      | all => True
      | only items => Forall (fun cn => List.length (snd cn) = 1%nat) items
      end ->
      get_layers self_layers layers
      = DataProcessor.get_layers self_layers layers)
  /\ (forall items d d' category names,
         NoDup (map fst items) ->
         get_layers self_layers (only items) = Found d ->
         DataProcessor.get_layers self_layers (only items) = Found d' ->
         In (category, names) items ->
         names = [] \/ (exists n, In n names /\ n <> last names ""%string) ->
         d <> d'
         /\ exists n l,
              dict_get2 category n d' = Some l
              /\ match l with
                 | Some _ => dict_get2 category n d = Some None
                 | None => dict_get2 category n d = None
                 end).
Proof.
  split.
  - intros [|items]; [reflexivity|].
    cbn [get_layers DataProcessor.get_layers].
    generalize (@nil (string * dict L)).
    induction items as [|[c ns] items IH]; intros acc F; [reflexivity|].
    inversion F as [|? ? Hc Fi]; subst. cbn [snd] in Hc.
    destruct ns as [|n [|n' ns]]; try discriminate.
    cbn [comprehend copy_categories comprehend_names copy_names].
    destruct (layer_of self_layers c n) as [l|]; [|reflexivity].
    cbn [dict_set]. apply IH. exact Fi.
  - intros items d d' category names ND H H' Hin Hn.
    cbn [get_layers] in H. cbn [DataProcessor.get_layers] in H'.
    destruct (comprehend_spec _ _ ND H) as [_ Sp].
    destruct (copy_categories_spec _ _ ND H') as [_ Sp'].
    pose proof (Sp _ _ Hin) as S.
    destruct (Sp' _ _ Hin) as (inner & Ec & G).
    assert (D : exists n l,
               dict_get2 category n d' = Some l
               /\ match l with
                  | Some _ => dict_get2 category n d = Some None
                  | None => dict_get2 category n d = None
                  end).
    { destruct names as [|n0 names].
      - cbn [dict_get] in S. cbn [copy_names] in Ec. injection Ec as <-.
        exists ""%string, None. unfold dict_get2. rewrite G, S.
        split; reflexivity.
      - destruct Hn as [C | (n & In_n & Nn)]; [discriminate C|].
        destruct S as (l & _ & S).
        remember (last (n0 :: names) ""%string) as z eqn:Ez. clear Ez.
        destruct (copy_names_spec _ _ _ Ec) as [_ Sn].
        destruct (Sn n In_n) as (l' & _ & Gn).
        exists n, (Some l'). unfold dict_get2. rewrite G, S, Gn.
        split; [reflexivity|]. cbn [dict_get].
        destruct (String.eqb z n) eqn:B; [|reflexivity].
        apply String.eqb_eq in B. congruence. }
    split; [|exact D].
    intro E. subst d'. destruct D as (n & [l|] & E1 & E2); congruence.
Qed.

End LayersFacts.

Lemma get_layers_keeps_last_name_witness :
  exists d l,
    get_layers project_layers
      (only [("demand"%string, ["population"%string; "roads"%string]);
             ("supply"%string, [])]) = Found d
    /\ layer_of project_layers "demand" "roads" = Found l
    /\ dict_get "demand" d = Some [("roads"%string, l)]
    /\ dict_get "supply" d = None.
Proof.
  destruct (get_layers project_layers
              (only [("demand"%string, ["population"%string; "roads"%string]);
                     ("supply"%string, [])])) as [d|] eqn:H;
    [|discriminate H].
  assert (ND : NoDup (map fst [("demand"%string,
                                ["population"%string; "roads"%string]);
                               ("supply"%string, @nil string)])).
  { repeat constructor; cbn; intuition discriminate. }
  destruct (@get_layers_keeps_last_name nat project_layers _ d ND H
              "demand"%string ["population"%string; "roads"%string])
    as (l & E1 & E2); [now left|].
  exists d, l. split; [reflexivity|]. split; [exact E1|]. split; [exact E2|].
  apply (@get_layers_keeps_last_name nat project_layers _ d ND H
           "supply"%string []).
  right. now left.
Defined.

Lemma DataProcessor_get_layers_keeps_all_names_witness :
  exists d inner,
    DataProcessor.get_layers project_layers
      (only [("demand"%string, ["population"%string; "roads"%string])])
    = Found d
    /\ dict_get "demand" d = Some inner
    /\ (forall n, In n ["population"%string; "roads"%string] ->
                  exists l, layer_of project_layers "demand" n = Found l
                            /\ dict_get n inner = Some l)
    /\ (forall n, ~ In n ["population"%string; "roads"%string] ->
                  dict_get n inner = None).
Proof.
  destruct (DataProcessor.get_layers project_layers
              (only [("demand"%string,
                      ["population"%string; "roads"%string])]))
    as [d|] eqn:H; [|discriminate H].
  assert (ND : NoDup (map fst [("demand"%string,
                                ["population"%string; "roads"%string])])).
  { repeat constructor; cbn; intuition discriminate. }
  destruct (@DataProcessor_get_layers_keeps_all_names nat project_layers _ d
              ND H "demand"%string ["population"%string; "roads"%string])
    as (inner & P); [now left|].
  exists d, inner. split; [reflexivity | exact P].
Defined.

Lemma get_layers_agree_on_single_names_witness :
  get_layers project_layers
    (only [("demand"%string, ["roads"%string]);
           ("supply"%string, ["lpg"%string])])
  = DataProcessor.get_layers project_layers
      (only [("demand"%string, ["roads"%string]);
             ("supply"%string, ["lpg"%string])])
  /\ get_layers project_layers
       (only [("demand"%string, ["population"%string; "roads"%string])])
     <> DataProcessor.get_layers project_layers
          (only [("demand"%string, ["population"%string; "roads"%string])]).
Proof.
  split.
  - apply (proj1 (@get_layers_agree_on_single_names nat project_layers)
             (only [("demand"%string, ["roads"%string]);
                    ("supply"%string, ["lpg"%string])])).
    repeat constructor.
  - destruct (get_layers project_layers
                (only [("demand"%string,
                        ["population"%string; "roads"%string])]))
      as [d|] eqn:H; [|discriminate H].
    destruct (DataProcessor.get_layers project_layers
                (only [("demand"%string,
                        ["population"%string; "roads"%string])]))
      as [d'|] eqn:H'; [|discriminate H'].
    intro E. injection E as E. revert E.
    apply (proj2 (@get_layers_agree_on_single_names nat project_layers)
             [("demand"%string, ["population"%string; "roads"%string])]
             d d' "demand"%string ["population"%string; "roads"%string]).
    + repeat constructor; cbn; intuition discriminate.
    + exact H.
    + exact H'.
    + now left.
    + right. exists "population"%string. split; [now left | discriminate].
Defined.

(** ** Scenario file *)

Section ConfigFacts.

Variable int : string -> option Z.
Variable float : string -> option fnum.

Lemma read_rows_spec (rows : list config_row) (config d : dict value)
    (p : string) :
  read_rows int float rows config = Returns d ->
  match deciding_row p rows with
  | None => dict_get p d = dict_get p config
  | Some r => exists v, convert int float r = Returns v /\ dict_get p d = Some v
  end.
Proof.
  revert config. induction rows as [|r rows IH]; intros config H.
  - cbn in H. injection H as <-. reflexivity.
  - cbn [read_rows] in H. cbn [deciding_row].
    destruct (String.eqb (Value r) "") eqn:E.
    + pose proof (IH _ H) as S. destruct (deciding_row p rows); exact S.
    + destruct (convert int float r) as [v|e] eqn:C; [|discriminate].
      cbn [bind] in H. pose proof (IH _ H) as S.
      destruct (deciding_row p rows); [exact S|].
      cbn [negb andb]. destruct (String.eqb (Param r) p) eqn:P.
      * apply String.eqb_eq in P. subst p. exists v. split; [exact C|].
        rewrite S. apply dict_get_set_same.
      * rewrite S. apply dict_get_set_other. intro N.
        subst p. rewrite String.eqb_refl in P. discriminate.
Qed.

(** X27.  When [read_scenario_data] returns, the dict it stores in
    [self.specs] gives each parameter the converted value of the last row
    of the file that names the parameter and has a value; a row with an
    empty value is skipped, whatever its data type, and a parameter that
    no row gives a value is not in the dict. *)
Theorem read_scenario_data_last_row_decides (rows : list config_row)
    (config : dict value) (p : string) :
  read_scenario_data int float rows = Returns config ->
  match deciding_row p rows with
  | None => dict_get p config = None
  | Some r =>
      exists v, convert int float r = Returns v /\ dict_get p config = Some v
  end.
Proof.
  intro H. exact (read_rows_spec _ _ p H).
Qed.

Lemma read_rows_raises (rows : list config_row) (config : dict value)
    (e : exception) :
  read_rows int float rows config = Raises e <->
  e = ValueError
  /\ exists r, In r rows /\ Value r <> ""%string
               /\ convert int float r = Raises ValueError.
Proof.
  assert (CV : forall r e0, convert int float r = Raises e0 -> e0 = ValueError).
  { intros r e0. unfold convert.
    destruct (String.eqb (data_type r) "int");
      [destruct (int (Value r)); congruence|].
    destruct (String.eqb (data_type r) "float");
      [destruct (float (Value r)); congruence|].
    destruct (String.eqb (data_type r) "string"); congruence. }
  revert config. induction rows as [|r rows IH]; intro config.
  - cbn. split; [discriminate | intros (_ & ? & [] & _)].
  - cbn [read_rows]. destruct (String.eqb (Value r) "") eqn:E.
    + rewrite IH. split.
      * intros (-> & r0 & I & N & C). split; [reflexivity|].
        exists r0. split; [now right | auto].
      * intros (-> & r0 & [<- | I] & N & C).
        -- apply String.eqb_eq in E. contradiction.
        -- split; [reflexivity|]. exists r0. auto.
    + assert (N : Value r <> ""%string).
      { intro C. rewrite C in E. discriminate. }
      destruct (convert int float r) as [v|e0] eqn:C; cbn [bind].
      * rewrite IH. split.
        -- intros (-> & r0 & I & N0 & C0). split; [reflexivity|].
           exists r0. split; [now right | auto].
        -- intros (-> & r0 & [<- | I] & N0 & C0); [congruence|].
           split; [reflexivity|]. exists r0. auto.
      * pose proof (CV _ _ C) as ->. split.
        -- intro H. injection H as <-. split; [reflexivity|].
           exists r. split; [now left | auto].
        -- intros (-> & _). reflexivity.
Qed.

(** X28.  [read_scenario_data] raises exactly when some row with a
    value cannot be converted, wherever it stands in the file, and what
    it raises is [ValueError]; a row cannot be converted when its data
    type is [int] or [float] and Python's [int] or [float] rejects the
    value, or when its data type is none of [int], [float] and
    [string]. *)
Theorem read_scenario_data_raises_iff (rows : list config_row) :
  (forall e,
      read_scenario_data int float rows = Raises e <->
      e = ValueError
      /\ exists r, In r rows /\ Value r <> ""%string
                   /\ convert int float r = Raises ValueError)
  /\ (forall r,
         convert int float r = Raises ValueError <->
         (data_type r = "int"%string /\ int (Value r) = None)
         \/ (data_type r = "float"%string /\ float (Value r) = None)
         \/ (data_type r <> "int"%string /\ data_type r <> "float"%string
             /\ data_type r <> "string"%string)).
Proof.
  split; [intro e; apply read_rows_raises|].
  intro r. unfold convert.
  destruct (String.eqb (data_type r) "int") eqn:Ei.
  { apply String.eqb_eq in Ei.
    destruct (int (Value r)); split; intro H;
      try discriminate H; try (left; auto; fail);
      destruct H as [[_ C] | [[C _] | [C _]]]; congruence. }
  apply String.eqb_neq in Ei.
  destruct (String.eqb (data_type r) "float") eqn:Ef.
  { apply String.eqb_eq in Ef.
    destruct (float (Value r)); split; intro H;
      try discriminate H; try (right; left; auto; fail);
      destruct H as [[C _] | [[_ C] | [_ [C _]]]]; congruence. }
  apply String.eqb_neq in Ef.
  destruct (String.eqb (data_type r) "string") eqn:Es.
  { apply String.eqb_eq in Es. split; intro H; [discriminate H|].
    destruct H as [[C _] | [[C _] | [_ [_ C]]]]; congruence. }
  apply String.eqb_neq in Es. split; [|reflexivity]. intros _. auto.
Qed.

End ConfigFacts.

Lemma read_scenario_data_last_row_decides_witness :
  exists config,
    read_scenario_data digit digit_float scenario_file = Returns config
    /\ dict_get "Rural_HHsize" config = Some (Float (Fin (inject_Z 6)))
    /\ dict_get "Country" config = None.
Proof.
  destruct (read_scenario_data digit digit_float scenario_file)
    as [config|e] eqn:H; [|discriminate H].
  exists config. split; [reflexivity|]. split.
  - destruct (@read_scenario_data_last_row_decides digit digit_float
                scenario_file config "Rural_HHsize"%string H)
      as (v & C & G).
    rewrite G. f_equal. cbn in C. injection C as <-. reflexivity.
  - exact (@read_scenario_data_last_row_decides digit digit_float
             scenario_file config "Country"%string H).
Defined.
